(** * NoiseShaper: the plateau filter, its FFT and its two audio paths

    A shallow embedding of the spectral plateau filter of NoiseShaper:
    - [worklets/plateau-processor.js] (class [Complex], [fft], [ifft],
      [PlateauProcessor]),
    - [webbeta/js/audio/filters/plateau.js] (class [PlateauFilter], the
      script-processor fallback and the parameter setters),
    - [webbeta2/ftt.js] ([createFrequencyArray], [createPlateauFilterMask],
      [applyFFTFilter], [isPowerOf2], [bitReverse]),
    - [webbeta2/ui.js] (the filter stage of [generateFilteredNoise]).

    Numbers.  A JavaScript number is modelled by an exact real: rounding
    (IEEE double arithmetic, the narrowing of a [Float32Array] store) is
    not modelled, and input samples and parameters are finite.  Where the
    code can produce [NaN] from a read outside an array or from [0/0], the
    model says so explicitly with the type [num].  Exceptions are explicit
    too: a call returns a [completion].  The module [Binary64] has [fft]
    and [ifft] once more on binary64 numbers, as far as ECMAScript fixes
    their values. *)

From Stdlib Require Import Reals Lra Lia List Arith PeanoNat Bool ZArith.
From Stdlib Require PrimFloat.
From Equations Require Import Equations.
Import ListNotations.

Local Open Scope R_scope.

(** ** JavaScript completions *)

Inductive exn : Type :=
| RangeError
| TypeError.

Inductive completion (A : Type) : Type :=
| Normal (a : A)
| Throw (e : exn).

Arguments Normal {A} a.
Arguments Throw {A} e.

Definition bind {A B : Type} (c : completion A) (k : A -> completion B)
  : completion B :=
  match c with
  | Normal a => k a
  | Throw e => Throw e
  end.

Notation "x <- c ;; k" := (bind c (fun x => k))
  (at level 61, c at next level, right associativity).

(** ** Numbers that may be [NaN] *)

Inductive num : Type :=
| Fin (r : R)
| NaN.

(** [a + b] and [a * b] where an operand may be [undefined] or [NaN]. *)
Definition nadd (a b : num) : num :=
  match a, b with
  | Fin x, Fin y => Fin (x + y)
  | _, _ => NaN
  end.

Definition nmul (a b : num) : num :=
  match a, b with
  | Fin x, Fin y => Fin (x * y)
  | _, _ => NaN
  end.

(** A read [a[i]] of a typed array of finite samples: [undefined] outside
    the array, which arithmetic turns into [NaN]. *)
Definition rd (a : list R) (i : nat) : num :=
  match nth_error a i with
  | Some r => Fin r
  | None => NaN
  end.

(** A store [a[i] = v] into a typed array: ignored outside the array. *)
Fixpoint store {A : Type} (a : list A) (i : nat) (v : A) : list A :=
  match a, i with
  | [], _ => []
  | _ :: t, O => v :: t
  | h :: t, S j => h :: store t j v
  end.

Definition Rltb (a b : R) : bool := if Rlt_dec a b then true else false.
Definition Rleb (a b : R) : bool := if Rle_dec a b then true else false.
Definition Reqb (a b : R) : bool := if Req_dec_T a b then true else false.

(** ** class Complex *)

Record Complex : Type := mkComplex { real : R; imag : R }.

Module Cx.

Definition conjugate (a : Complex) : Complex :=
  mkComplex (real a) (- imag a).

Definition multiply (a other : Complex) : Complex :=
  mkComplex (real a * real other - imag a * imag other)
            (real a * imag other + imag a * real other).

Definition add (a other : Complex) : Complex :=
  mkComplex (real a + real other) (imag a + imag other).

Definition subtract (a other : Complex) : Complex :=
  mkComplex (real a - real other) (imag a - imag other).

Definition scale (a : Complex) (factor : R) : Complex :=
  mkComplex (real a * factor) (imag a * factor).

Definition abs (a : Complex) : R :=
  sqrt (real a * real a + imag a * imag a).

Definition fromPolar (r theta : R) : Complex :=
  mkComplex (r * cos theta) (r * sin theta).

Definition zero : Complex := mkComplex 0 0.

End Cx.

(** ** fft and ifft (identical in the worklet and in ftt.js) *)

(** [even[i] = x[2*i]] and [odd[i] = x[2*i + 1]] for [i < N/2]. *)
Definition evens (x : list Complex) : list Complex :=
  map (fun i => nth (2 * i) x Cx.zero) (seq 0 (length x / 2)).

Definition odds (x : list Complex) : list Complex :=
  map (fun i => nth (2 * i + 1) x Cx.zero) (seq 0 (length x / 2)).

(** The combination loop of [fft]: [angle = -2 * Math.PI * k / N]. *)
Definition fft_combine (N : nat) (evenFFT oddFFT : list Complex)
  : list Complex :=
  let t k := Cx.multiply (nth k oddFFT Cx.zero)
               (Cx.fromPolar 1 (-2 * PI * INR k / INR N)) in
  map (fun k => Cx.add (nth k evenFFT Cx.zero) (t k)) (seq 0 (N / 2)) ++
  map (fun k => Cx.subtract (nth k evenFFT Cx.zero) (t k)) (seq 0 (N / 2)).

(** The combination loop of [ifft]: [angle = 2 * Math.PI * k / N], and the
    0.5 scale of each level. *)
Definition ifft_combine (N : nat) (evenIFFT oddIFFT : list Complex)
  : list Complex :=
  let t k := Cx.multiply (nth k oddIFFT Cx.zero)
               (Cx.fromPolar 1 (2 * PI * INR k / INR N)) in
  map (fun k => Cx.scale (Cx.add (nth k evenIFFT Cx.zero) (t k)) (1/2))
      (seq 0 (N / 2)) ++
  map (fun k => Cx.scale (Cx.subtract (nth k evenIFFT Cx.zero) (t k)) (1/2))
      (seq 0 (N / 2)).

(** [new Array(N / 2)] throws a RangeError when [N / 2] is not an integer. *)
Equations? fft (x : list Complex) : completion (list Complex)
  by wf (length x) lt :=
fft x with le_lt_dec (length x) 1 := {
  | left _ := Normal x
  | right _ :=
      if Nat.even (length x) then
        evenFFT <- fft (evens x) ;;
        oddFFT <- fft (odds x) ;;
        Normal (fft_combine (length x) evenFFT oddFFT)
      else Throw RangeError }.
Proof.
  all: unfold evens, odds; rewrite length_map, length_seq;
    apply Nat.div_lt; lia.
Qed.

Equations? ifft (x : list Complex) : completion (list Complex)
  by wf (length x) lt :=
ifft x with le_lt_dec (length x) 1 := {
  | left _ := Normal x
  | right _ :=
      if Nat.even (length x) then
        evenIFFT <- ifft (evens x) ;;
        oddIFFT <- ifft (odds x) ;;
        Normal (ifft_combine (length x) evenIFFT oddIFFT)
      else Throw RangeError }.
Proof.
  all: unfold evens, odds; rewrite length_map, length_seq;
    apply Nat.div_lt; lia.
Qed.

(** ** fft and ifft on binary64 numbers

    The same two functions and the methods of [Complex] they call, on the
    numbers that JavaScript computes with: every operation rounds to
    binary64 and overflows to an infinity.  ECMAScript fixes [Math.cos]
    and [Math.sin] at zeros, infinities and [NaN] only and leaves them
    implementation-approximated elsewhere: a call that needs such a value
    has the outcome [Approximated]. *)

Module Binary64.

Import PrimFloat.

Record Complex : Type := mkComplex {
  real : PrimFloat.float;
  imag : PrimFloat.float
}.

Definition multiply (a other : Complex) : Complex :=
  mkComplex (real a * real other - imag a * imag other)%float
            (real a * imag other + imag a * real other)%float.

Definition add (a other : Complex) : Complex :=
  mkComplex (real a + real other)%float (imag a + imag other)%float.

Definition subtract (a other : Complex) : Complex :=
  mkComplex (real a - real other)%float (imag a - imag other)%float.

Definition scale (a : Complex) (factor : PrimFloat.float) : Complex :=
  mkComplex (real a * factor)%float (imag a * factor)%float.

(** [Math.PI]: 3.141592653589793. *)
Definition Math_PI : PrimFloat.float := (0x1.921fb54442d18p+1)%float.

Definition Math_cos (x : PrimFloat.float) : option PrimFloat.float :=
  if (PrimFloat.is_nan x || PrimFloat.is_infinity x)%bool
  then Some PrimFloat.nan
  else if (x =? 0)%float then Some 1%float
  else None.

Definition Math_sin (x : PrimFloat.float) : option PrimFloat.float :=
  if (PrimFloat.is_nan x || PrimFloat.is_infinity x)%bool
  then Some PrimFloat.nan
  else if (x =? 0)%float then Some x
  else None.

Definition fromPolar (r theta : PrimFloat.float) : option Complex :=
  match Math_cos theta, Math_sin theta with
  | Some c, Some s => Some (mkComplex (r * c)%float (r * s)%float)
  | _, _ => None
  end.

(** An array index or length as a number. *)
Definition of_nat (n : nat) : PrimFloat.float :=
  Nat.iter n (fun f => (f + 1)%float) 0%float.

Inductive outcome (A : Type) : Type :=
| Returns (a : A)
| Throws (e : exn)
| Approximated.

Arguments Returns {A} a.
Arguments Throws {A} e.
Arguments Approximated {A}.

Definition then_ {A B : Type} (c : outcome A) (k : A -> outcome B)
  : outcome B :=
  match c with
  | Returns a => k a
  | Throws e => Throws e
  | Approximated => Approximated
  end.

Definition zero : Complex := mkComplex 0%float 0%float.

Definition evens (x : list Complex) : list Complex :=
  map (fun i => nth (2 * i) x zero) (seq 0 (length x / 2)).

Definition odds (x : list Complex) : list Complex :=
  map (fun i => nth (2 * i + 1) x zero) (seq 0 (length x / 2)).

(** The values [t] of the combination loop, [sign * 2 * Math.PI * k / N]
    being the angle; [None] when one of them is left to the engine. *)
Fixpoint twiddled (angle : nat -> PrimFloat.float) (odd : list Complex)
  (ks : list nat) : option (list Complex) :=
  match ks with
  | [] => Some []
  | k :: rest =>
      match fromPolar 1%float (angle k), twiddled angle odd rest with
      | Some w, Some ts => Some (multiply (nth k odd zero) w :: ts)
      | _, _ => None
      end
  end.

Definition fft_combine (N : nat) (evenFFT oddFFT : list Complex)
  : outcome (list Complex) :=
  let angle k := (-2 * Math_PI * of_nat k / of_nat N)%float in
  match twiddled angle oddFFT (seq 0 (N / 2)) with
  | None => Approximated
  | Some ts =>
      Returns
        (map (fun k => add (nth k evenFFT zero) (nth k ts zero))
             (seq 0 (N / 2)) ++
         map (fun k => subtract (nth k evenFFT zero) (nth k ts zero))
             (seq 0 (N / 2)))
  end.

Definition ifft_combine (N : nat) (evenIFFT oddIFFT : list Complex)
  : outcome (list Complex) :=
  let angle k := (2 * Math_PI * of_nat k / of_nat N)%float in
  match twiddled angle oddIFFT (seq 0 (N / 2)) with
  | None => Approximated
  | Some ts =>
      Returns
        (map (fun k => scale (add (nth k evenIFFT zero) (nth k ts zero))
                             0.5%float)
             (seq 0 (N / 2)) ++
         map (fun k => scale (subtract (nth k evenIFFT zero) (nth k ts zero))
                             0.5%float)
             (seq 0 (N / 2)))
  end.

Equations? fft (x : list Complex) : outcome (list Complex)
  by wf (length x) lt :=
fft x with le_lt_dec (length x) 1 := {
  | left _ := Returns x
  | right _ :=
      if Nat.even (length x) then
        then_ (fft (evens x)) (fun evenFFT =>
        then_ (fft (odds x)) (fun oddFFT =>
        fft_combine (length x) evenFFT oddFFT))
      else Throws RangeError }.
Proof.
  all: unfold evens, odds; rewrite length_map, length_seq;
    apply Nat.div_lt; lia.
Qed.

Equations? ifft (x : list Complex) : outcome (list Complex)
  by wf (length x) lt :=
ifft x with le_lt_dec (length x) 1 := {
  | left _ := Returns x
  | right _ :=
      if Nat.even (length x) then
        then_ (ifft (evens x)) (fun evenIFFT =>
        then_ (ifft (odds x)) (fun oddIFFT =>
        ifft_combine (length x) evenIFFT oddIFFT))
      else Throws RangeError }.
Proof.
  all: unfold evens, odds; rewrite length_map, length_seq;
    apply Nat.div_lt; lia.
Qed.

(** [new Complex(x, 0)] for each sample. *)
Definition of_reals (xs : list PrimFloat.float) : list Complex :=
  map (fun r => mkComplex r 0%float) xs.

End Binary64.

(** ** Loops *)

(** [for (let i = 0; i < n; i++) body] over a loop state [s]. *)
Definition for_loop {S : Type} (n : nat) (body : nat -> S -> S) (s : S) : S :=
  fold_left (fun acc i => body i acc) (seq 0 n) s.

(** [for (let i = a; i < b; i++) body]. *)
Definition for_range {S : Type} (a b : nat) (body : nat -> S -> S) (s : S)
  : S :=
  fold_left (fun acc i => body i acc) (seq a (b - a)) s.

(** A store of a computed value into a buffer of reals.  On a well-formed
    processor (see [well_formed]) such a value is [NaN] only when the index
    lies outside the buffer, where JavaScript ignores the store; the model
    drops every [NaN] store. *)
Definition store_num (a : list R) (i : nat) (v : num) : list R :=
  match v with
  | Fin r => store a i r
  | NaN => a
  end.

(** [Math.round], as an integer: the floor of [x + 0.5]. *)
Definition jsround (x : R) : Z := Int_part (x + 1/2).

(** [ToInt32], the conversion that every bitwise operator applies to an
    operand, on an integer: wrap to 32 bits, two's complement. *)
Definition toInt32 (z : Z) : Z := ((z + 2 ^ 31) mod 2 ^ 32 - 2 ^ 31)%Z.

(** ** worklets/plateau-processor.js: class PlateauProcessor *)

Module Worklet.

Record PlateauProcessor : Type := mkPlateauProcessor {
  centerFreq : R;
  width : R;
  flatWidth : R;
  gain : R;
  fftSize : nat;
  fftBuffer : list R;
  fftPosition : nat;
  overlappedOutput : list R;
  processedOutput : list R;
  hanningWindow : list R
}.

(** The [k-rate] parameter arrays handed to [process], and the sparse
    record of a message: each entry is [parameters.name[0]], or
    [undefined]. *)
Record AudioParams : Type := mkAudioParams {
  p_centerFreq : option R;
  p_width : option R;
  p_flatWidth : option R;
  p_gain : option R
}.

(** The calls of the transforms that an invocation makes, in order. *)
Inductive transform : Type :=
| CallFFT
| CallIFFT.

Record ProcessResult : Type := mkProcessResult {
  r_this : PlateauProcessor;
  r_outputs : list (list (list num));
  r_completion : completion bool;
  r_transforms : list transform
}.

Definition hanning (size i : nat) : R :=
  0.5 * (1 - cos (2 * PI * INR i / (INR size - 1))).

Definition constructor : PlateauProcessor :=
  let size := 2048%nat in
  {| centerFreq := 10000;
     width := 5000;
     flatWidth := 2000;
     gain := 0;
     fftSize := size;
     fftBuffer := repeat 0 size;
     fftPosition := 0;
     overlappedOutput := repeat 0 size;
     processedOutput := repeat 0 size;
     hanningWindow := map (hanning size) (seq 0 size) |}.

Definition or_else (v : option R) (d : R) : R :=
  match v with
  | Some x => x
  | None => d
  end.

Definition set_params (this : PlateauProcessor) (cf w fw g : R)
  : PlateauProcessor :=
  {| centerFreq := cf;
     width := w;
     flatWidth := fw;
     gain := g;
     fftSize := fftSize this;
     fftBuffer := fftBuffer this;
     fftPosition := fftPosition this;
     overlappedOutput := overlappedOutput this;
     processedOutput := processedOutput this;
     hanningWindow := hanningWindow this |}.

Definition set_buffers (this : PlateauProcessor)
  (processed overlapped : list R) : PlateauProcessor :=
  {| centerFreq := centerFreq this;
     width := width this;
     flatWidth := flatWidth this;
     gain := gain this;
     fftSize := fftSize this;
     fftBuffer := fftBuffer this;
     fftPosition := fftPosition this;
     overlappedOutput := overlapped;
     processedOutput := processed;
     hanningWindow := hanningWindow this |}.

Definition handleMessage (this : PlateauProcessor) (params : AudioParams)
  : PlateauProcessor :=
  set_params this
    (or_else (p_centerFreq params) (centerFreq this))
    (or_else (p_width params) (width this))
    (or_else (p_flatWidth params) (flatWidth this))
    (or_else (p_gain params) (gain this)).

(** The folded frequency axis of [createPlateauFilterMask]. *)
Definition freq_axis (sampleRate : R) (size i : nat) : R :=
  if Rleb (INR i) (INR size / 2)
  then INR i * sampleRate / INR size
  else (INR i - INR size) * sampleRate / INR size.

(** One bin of the plateau: flat top, raised-cosine skirt, stop band. *)
Definition plateau (centerFreq width flatWidth f : R) : R :=
  let freq := Rabs f in
  let absDiff := Rabs (freq - centerFreq) in
  if Rltb absDiff (flatWidth / 2) then 1
  else if Rltb absDiff (width / 2) then
    0.5 * (1 + cos (PI * (absDiff - flatWidth / 2)
                    / (width / 2 - flatWidth / 2)))
  else 0.

(** [sampleRate] is a global of the worklet scope. *)
Definition createPlateauFilterMask (sampleRate centerFreq width flatWidth : R)
  (size : nat) : list R :=
  let freqs := map (freq_axis sampleRate size) (seq 0 size) in
  let mask :=
    map (fun i => plateau centerFreq width flatWidth (nth i freqs 0))
        (seq 0 size) in
  store mask 0 0.

(** Lines 213-225 of [process]: latch the parameters, clamp the width. *)
Definition latch (this : PlateauProcessor) (parameters : AudioParams)
  : PlateauProcessor :=
  let cf := or_else (p_centerFreq parameters) (centerFreq this) in
  let w := or_else (p_width parameters) (width this) in
  let fw := or_else (p_flatWidth parameters) (flatWidth this) in
  let g := or_else (p_gain parameters) (gain this) in
  set_params this cf (Rmax w (fw + 1)) fw g.

(** The overlap-add loop, lines 284-295. *)
Definition overlap_add (size : nat) (processed : list R)
  (output : list num) (overlapped : list R) : list num * list R :=
  for_loop (length output)
    (fun i '(out, ov) =>
       let out' := store out i (nadd (rd processed i) (rd ov i)) in
       let ov' :=
         if (i + length output <? size)%nat
         then store_num ov i (rd processed (i + length output))
         else store ov i 0 in
       (out', ov'))
    (output, overlapped).

(** Lines 248-282: window, transform, mask, inverse transform, window.
    The result is the new [processedOutput]. *)
Definition windowed_input (this : PlateauProcessor) (input : list R)
  : list Complex :=
  let inputBuffer :=
    for_loop (length input)
      (fun i b =>
         store_num b i (nmul (rd input i) (rd (hanningWindow this) i)))
      (repeat 0 (fftSize this)) in
  map (fun i => mkComplex (nth i inputBuffer 0) 0) (seq 0 (fftSize this)).

Definition apply_mask (this : PlateauProcessor) (filterMask : list R)
  (fftOutput : list Complex) : list Complex :=
  for_loop (fftSize this)
    (fun i o =>
       store o i (Cx.scale (nth i o Cx.zero)
                           (nth i filterMask 0 * gain this)))
    fftOutput.

Definition synthesis (this : PlateauProcessor) (ifftOutput : list Complex)
  : list R :=
  for_loop (fftSize this)
    (fun i p =>
       store_num p i (nmul (Fin (real (nth i ifftOutput Cx.zero)))
                           (rd (hanningWindow this) i)))
    (processedOutput this).

Definition process (sampleRate : R) (this : PlateauProcessor)
  (inputs : list (list (list R))) (outputs : list (list (list num)))
  (parameters : AudioParams) : ProcessResult :=
  let this := latch this parameters in
  match inputs with
  | [] => mkProcessResult this outputs (Normal true) []
  | [] :: _ => mkProcessResult this outputs (Normal true) []
  | (input :: _) :: _ =>
    match outputs with
    | [] => mkProcessResult this outputs (Throw TypeError) []
    | [] :: _ => mkProcessResult this outputs (Normal true) []
    | (output :: channels) :: rest =>
      if Reqb (gain this) 0 then
        let output := for_loop (length output)
                        (fun i o => store o i (Fin 0)) output in
        mkProcessResult this ((output :: channels) :: rest)
                        (Normal true) []
      else
        match fft (windowed_input this input) with
        | Throw e => mkProcessResult this outputs (Throw e) [CallFFT]
        | Normal fftOutput =>
          let filterMask :=
            createPlateauFilterMask sampleRate (centerFreq this)
              (width this) (flatWidth this) (fftSize this) in
          match ifft (apply_mask this filterMask fftOutput) with
          | Throw e =>
              mkProcessResult this outputs (Throw e) [CallFFT; CallIFFT]
          | Normal ifftOutput =>
            let processed := synthesis this ifftOutput in
            let '(output, overlapped) :=
              overlap_add (fftSize this) processed output
                          (overlappedOutput this) in
            mkProcessResult (set_buffers this processed overlapped)
                            ((output :: channels) :: rest)
                            (Normal true) [CallFFT; CallIFFT]
          end
        end
    end
  end.

End Worklet.

(** ** webbeta/js/audio/filters/plateau.js: class PlateauFilter *)

Module PlateauFilter.

(** The values held by the four AudioParams of the worklet node. *)
Record NodeParams : Type := mkNodeParams {
  n_centerFreq : R;
  n_width : R;
  n_flatWidth : R;
  n_gain : R
}.

(** [this.processor]: not created yet, the AudioWorkletNode, or the
    ScriptProcessorNode of the fallback (no [parameters], no [port]). *)
Inductive processor_node : Type :=
| NoProcessor
| WorkletNode (params : NodeParams)
| ScriptProcessor.

Record t : Type := mkPlateauFilter {
  sampleRate : R;
  centerFreq : R;
  width : R;
  flatWidth : R;
  gain : R;
  processor : processor_node
}.

Definition with_processor (this : t) (p : processor_node) : t :=
  mkPlateauFilter (sampleRate this) (centerFreq this) (width this)
                  (flatWidth this) (gain this) p.

Definition _updateParameters (this : t) : t :=
  match processor this with
  | NoProcessor => this
  | WorkletNode _ =>
      with_processor this
        (WorkletNode (mkNodeParams (centerFreq this) (width this)
                                   (flatWidth this) (gain this)))
  | ScriptProcessor => this
  end.

Definition setCenterFreq (this : t) (value : R) : t :=
  _updateParameters
    (mkPlateauFilter (sampleRate this) value (width this)
                     (flatWidth this) (gain this) (processor this)).

Definition setWidth (this : t) (value : R) : t :=
  let newWidth := Rmax value (flatWidth this + 1) in
  if Reqb newWidth (width this) then this
  else
    _updateParameters
      (mkPlateauFilter (sampleRate this) (centerFreq this) newWidth
                       (flatWidth this) (gain this) (processor this)).

Definition setFlatWidth (this : t) (value : R) : t :=
  let newFlatWidth := Rmin value (width this - 1) in
  if Reqb newFlatWidth (flatWidth this) then this
  else
    _updateParameters
      (mkPlateauFilter (sampleRate this) (centerFreq this) (width this)
                       newFlatWidth (gain this) (processor this)).

Definition setGain (this : t) (value : R) : t :=
  if Reqb (gain this) value then this
  else
    _updateParameters
      (mkPlateauFilter (sampleRate this) (centerFreq this) (width this)
                       (flatWidth this) value (processor this)).

(** [0.5 * (1 - Math.cos(2 * Math.PI * i / (size - 1)))]: for a buffer of
    one sample the quotient is [0/0]. *)
Definition window (size i : nat) : num :=
  if (size =? 1)%nat then NaN
  else Fin (0.5 * (1 - cos (2 * PI * INR i / (INR size - 1)))).

Definition _applyWindow (buffer : list num) : list num :=
  let size := length buffer in
  for_loop size
    (fun i b => store b i (nmul (nth i b NaN) (window size i)))
    buffer.

(** The transform of the fallback hands its argument back. *)
Definition _calculateFFT (buffer : list num) : list num := buffer.

Definition _calculateIFFT (spectrum : list num) : list num := spectrum.

(** In the skirt the quotient is [0/0] when the two half widths agree. *)
Definition _calculateMask (this : t) (freq : R) : num :=
  let freqDiff := Rabs (freq - centerFreq this) in
  let flatHalfWidth := flatWidth this / 2 in
  let totalHalfWidth := width this / 2 in
  if Rltb freqDiff flatHalfWidth then Fin 1
  else if Rleb freqDiff totalHalfWidth then
    if Reqb (totalHalfWidth - flatHalfWidth) 0 then NaN
    else Fin (0.5 * (1 + cos (PI * (freqDiff - flatHalfWidth)
                              / (totalHalfWidth - flatHalfWidth))))
  else Fin 0.

Definition _applyFilter (this : t) (spectrum : list num) : list num :=
  let nyquist := sampleRate this / 2 in
  let binCount := length spectrum in
  for_loop binCount
    (fun i s =>
       let freq := INR i * nyquist / INR binCount in
       store s i (nmul (nth i s NaN) (_calculateMask this freq)))
    spectrum.

(** [event.inputBuffer.getChannelData(0)] and
    [event.outputBuffer.getChannelData(0)]; the result is the output
    channel after the call. *)
Definition _processAudio (this : t) (inputData : list R)
  (outputData : list num) : list num :=
  let bufferSize := length inputData in
  let tempBuffer :=
    for_loop bufferSize (fun i b => store b i (rd inputData i))
             (repeat (Fin 0) bufferSize) in
  let tempBuffer := _applyWindow tempBuffer in
  let fft := _calculateFFT tempBuffer in
  let fft := _applyFilter this fft in
  let ifft := _calculateIFFT fft in
  for_loop bufferSize
    (fun i o => store o i (nmul (nth i ifft NaN) (Fin (gain this))))
    outputData.


End PlateauFilter.

(** ** webbeta2/ftt.js *)

Module Ftt.

Definition createFrequencyArray (n : nat) (sampleRate : R) : list R :=
  let df := sampleRate / INR n in
  let freqs := repeat 0 n in
  let freqs :=
    for_loop (n / 2 + 1) (fun i f => store f i (INR i * df)) freqs in
  for_range (n / 2 + 1) n
    (fun i f => store f i ((INR i - INR n) * df)) freqs.

Definition plateau (targetFreq width delta f : R) : R :=
  let freq := Rabs f in
  let absDiff := Rabs (freq - targetFreq) in
  if Rltb absDiff delta then 1
  else if Rltb absDiff width then
    0.5 * (1 + cos (PI * (absDiff - delta) / (width - delta)))
  else 0.

(** [mask[Math.round(a / freqStep)].toFixed(3)] inside a log line: the
    look-up is [undefined], and [toFixed] throws, unless the rounded
    quotient is an index of the mask.  [freqStep] is [NaN] for fewer
    than two frequencies; a zero [freqStep] gives an infinite or [NaN]
    quotient. *)
Definition log_bin (mask : list R) (a : R) (freqStep : num)
  : completion unit :=
  match freqStep with
  | NaN => Throw TypeError
  | Fin s =>
      if Reqb s 0 then Throw TypeError
      else
        let bin := jsround (a / s) in
        if ((0 <=? bin)%Z && (bin <? Z.of_nat (length mask))%Z)%bool
        then Normal tt
        else Throw TypeError
  end.

Definition log_at (mask : list R) (i : nat) : completion unit :=
  match nth_error mask i with
  | Some _ => Normal tt
  | None => Throw TypeError
  end.

Definition nsub (a b : num) : num :=
  match a, b with
  | Fin x, Fin y => Fin (x - y)
  | _, _ => NaN
  end.

Definition createPlateauFilterMask (frequencies : list R)
  (targetFreq width delta : R) : completion (list R) :=
  let n := length frequencies in
  let mask :=
    map (fun i => plateau targetFreq width delta (nth i frequencies 0))
        (seq 0 n) in
  let mask := store mask 0 0 in
  let midpoint := (n / 2)%nat in
  let freqStep := nsub (rd frequencies 1) (rd frequencies 0) in
  _ <- log_at mask 0 ;;
  _ <- log_bin mask 5000 freqStep ;;
  _ <- log_bin mask targetFreq freqStep ;;
  _ <- log_bin mask 15000 freqStep ;;
  _ <- log_at mask midpoint ;;
  Normal mask.

(** [Math.pow(2, Math.ceil(Math.log2(n)))]; [Math.log2(0)] is
    [-Infinity] and the power is 0. *)
Definition paddedLength (n : nat) : nat :=
  match n with
  | O => O
  | _ => (2 ^ Nat.log2_up n)%nat
  end.

Definition applyFFTFilter (samples : list R)
  (sampleRate targetFreq width delta : R) : completion (list R) :=
  let paddedLength := paddedLength (length samples) in
  let paddedInput :=
    map (fun s => mkComplex s 0) samples ++
    repeat (mkComplex 0 0) (paddedLength - length samples) in
  let freqArray := createFrequencyArray paddedLength sampleRate in
  filterMask <- createPlateauFilterMask freqArray targetFreq width delta ;;
  fftResult <- fft paddedInput ;;
  let filteredFFT :=
    map (fun i =>
           let val := nth i fftResult Cx.zero in
           let mask := nth i filterMask 0 in
           mkComplex (real val * mask) (imag val * mask))
        (seq 0 (length fftResult)) in
  ifftResult <- ifft filteredFFT ;;
  let '(result, maxAmp) :=
    for_loop (length samples)
      (fun i '(res, maxAmp) =>
         let res := store res i (real (nth i ifftResult Cx.zero)) in
         (res, Rmax maxAmp (Rabs (nth i res 0))))
      (repeat 0 (length samples), 0) in
  let result :=
    if Rltb 0 maxAmp then
      for_loop (length samples)
        (fun i res => store res i (nth i res 0 / maxAmp)) result
    else result in
  Normal result.

(** [isPowerOf2(n)] on an integer: [n > 0 && (n & (n - 1)) === 0]. *)
Definition isPowerOf2 (n : Z) : bool :=
  ((0 <? n) && (Z.land (toInt32 n) (toInt32 (n - 1)) =? 0))%Z.

(** [bitReverse(n, bits)] on integers: the loop state is
    [(reversed, n)]; [<<], [|], [&] and [>>] work on 32-bit integers. *)
Definition bitReverse (n : Z) (bits : nat) : Z :=
  fst (for_loop bits
         (fun (_ : nat) '(reversed, n) =>
            (Z.lor (toInt32 (Z.shiftl (toInt32 reversed) 1))
                   (Z.land (toInt32 n) 1),
             Z.shiftr (toInt32 n) 1))
         (0%Z, n)).

End Ftt.

(** ** webbeta2/ui.js: the filter stage of generateFilteredNoise

    [generateFilteredNoise(numSamples, options)] first fills
    [noiseBuffer] with [numSamples] random samples and then filters it
    (lines 1230-1292).  The model takes the filled buffer, of finite
    samples, as its argument; [params] is [this.params].  In the
    transition band [delta / 2 < distance <= width / 2], so the divisor
    [(width - delta) / 2] is not 0. *)

Module Ui.

Record Params : Type := mkParams {
  centerFreq : R;
  width : R;
  delta : R
}.

Definition frequency (paddedSize i : nat) : R :=
  if Rleb (INR i) (INR paddedSize / 2)
  then INR i / INR paddedSize * 44100
  else (INR i - INR paddedSize) / INR paddedSize * 44100.

Definition mask_value (params : Params) (f : R) : R :=
  let freq := Rabs f in
  let distance := Rabs (freq - centerFreq params) in
  if Rleb distance (delta params / 2) then 1
  else if Rleb distance (width params / 2) then
    let x := (distance - delta params / 2)
             / ((width params - delta params) / 2) in
    cos (x * PI / 2)
  else 0.

Definition generateFilteredNoise (params : Params) (noiseBuffer : list R)
  : completion (list R) :=
  let numSamples := length noiseBuffer in
  let paddedSize := Ftt.paddedLength numSamples in
  let paddedBuffer :=
    for_loop numSamples (fun i b => store b i (nth i noiseBuffer 0))
             (repeat 0 paddedSize) in
  let complexBuffer :=
    map (fun i => mkComplex (nth i paddedBuffer 0) 0) (seq 0 paddedSize) in
  fftResult <- fft complexBuffer ;;
  let frequencies := map (frequency paddedSize) (seq 0 paddedSize) in
  let filterMask :=
    map (fun i => mask_value params (nth i frequencies 0))
        (seq 0 paddedSize) in
  let fftResult :=
    for_loop paddedSize
      (fun i r => store r i (Cx.scale (nth i r Cx.zero) (nth i filterMask 0)))
      fftResult in
  let fftResult := store fftResult 0 (mkComplex 0 0) in
  ifftResult <- ifft fftResult ;;
  Normal (for_loop numSamples
            (fun i r => store r i (real (nth i ifftResult Cx.zero)))
            (repeat 0 numSamples)).

End Ui.

(** The sum of the samples of a buffer. *)
Definition Rsum (l : list R) : R := fold_right Rplus 0 l.

(** ** The discrete Fourier transform, as a sum *)

Fixpoint csum (n : nat) (f : nat -> Complex) : Complex :=
  match n with
  | O => Cx.zero
  | S k => Cx.add (csum k f) (f k)
  end.

(** The unit complex number at angle [theta]. *)
Definition cis (theta : R) : Complex := Cx.fromPolar 1 theta.

(** Bin [k] of the transform of [x] with angular step [c / N] per index:
    [c = -2 * PI] is the forward transform, [c = 2 * PI] the inverse one
    before its [1/N] scale. *)
Definition dft (c : R) (x : list Complex) (k : nat) : Complex :=
  csum (length x)
       (fun n => Cx.multiply (nth n x Cx.zero)
                             (cis (c * INR k * INR n / INR (length x)))).

Definition dft_list (c : R) (x : list Complex) : list Complex :=
  map (dft c x) (seq 0 (length x)).

Definition idft_list (c : R) (x : list Complex) : list Complex :=
  map (fun k => Cx.scale (dft c x k) (/ INR (length x))) (seq 0 (length x)).

(** A real sequence as a complex one, [new Complex(x, 0)]. *)
Definition of_reals (xs : list R) : list Complex :=
  map (fun r => mkComplex r 0) xs.

(** ** Predicates on the blocks of an invocation *)

(** The guard of line 228: [inputs.length === 0 || inputs[0].length === 0]. *)
Definition no_input (inputs : list (list (list R))) : bool :=
  match inputs with
  | [] => true
  | [] :: _ => true
  | _ => false
  end.


(** The invariant that [constructor] sets up and [process] keeps: a
    power-of-two transform size, buffers of that size, the Hanning table. *)
Definition well_formed (this : Worklet.PlateauProcessor) : Prop :=
  (exists m, Worklet.fftSize this = (2 ^ m)%nat) /\
  length (Worklet.overlappedOutput this) = Worklet.fftSize this /\
  length (Worklet.processedOutput this) = Worklet.fftSize this /\
  Worklet.hanningWindow this =
    map (Worklet.hanning (Worklet.fftSize this))
        (seq 0 (Worklet.fftSize this)).

(** ** The block that the frame pipeline computes, as sums *)

(** Sample [i] of the windowed, zero-padded input. *)
Definition window_sample (N : nat) (input : list R) (i : nat) : R :=
  match nth_error input i with
  | Some x => x * Worklet.hanning N i
  | None => 0
  end.

Definition windowed_block (N : nat) (input : list R) : list Complex :=
  map (fun i => mkComplex (window_sample N input i) 0) (seq 0 N).

(** The spectrum of the windowed block after the mask and the gain; [this]
    is the processor with the parameters of the block latched. *)
Definition masked_spectrum (sampleRate : R) (this : Worklet.PlateauProcessor)
  (input : list R) : list Complex :=
  let N := Worklet.fftSize this in
  let mask :=
    Worklet.createPlateauFilterMask sampleRate (Worklet.centerFreq this)
      (Worklet.width this) (Worklet.flatWidth this) N in
  map (fun k => Cx.scale (dft (-2 * PI) (windowed_block N input) k)
                         (nth k mask 0 * Worklet.gain this))
      (seq 0 N).

(** The samples that lines 248-282 leave in [processedOutput]. *)
Definition processed_block (sampleRate : R) (this : Worklet.PlateauProcessor)
  (input : list R) : list R :=
  let N := Worklet.fftSize this in
  map (fun i =>
         real (Cx.scale (dft (2 * PI) (masked_spectrum sampleRate this input) i)
                        (/ INR N))
         * Worklet.hanning N i)
      (seq 0 N).

(** ** A concrete stream for the worklet

    Blocks of 128 samples at a sample rate of 8000 Hz; the plateau is set
    so wide that its flat band covers every bin but bin 0. *)

Definition impulse_block : list R := 0 :: 1 :: repeat 0 126.

Definition silent_output : list num := repeat (Fin 0) 128.

Definition wide_params (gain : R) : Worklet.AudioParams :=
  Worklet.mkAudioParams (Some 2000) (Some 10000) (Some 9999) (Some gain).

(** ** Streams for the two audio paths *)

(** The render loop of the host on a mono stream: one invocation of
    [process] per block, each with a zero-filled output block of the size
    of the input block.  The result lists the output blocks and gives the
    processor after the last block. *)
Fixpoint render (sampleRate : R) (this : Worklet.PlateauProcessor)
  (parameters : Worklet.AudioParams) (blocks : list (list R))
  : list (list num) * Worklet.PlateauProcessor :=
  match blocks with
  | [] => ([], this)
  | block :: rest =>
      let r := Worklet.process sampleRate this [[block]]
                 [[repeat (Fin 0) (length block)]] parameters in
      let '(outs, final) :=
        render sampleRate (Worklet.r_this r) parameters rest in
      (nth 0 (nth 0 (Worklet.r_outputs r) []) [] :: outs, final)
  end.

(** A block of [before + 1 + after] samples: a single 1 after [before]
    zeros. *)
Definition impulse_at (before after : nat) : list R :=
  repeat 0 before ++ 1 :: repeat 0 after.

(** A stream of 2048 samples, in 16 blocks of 128, that is 0 but for a
    single 1 in block 7, at index [i] of that block. *)
Definition impulse_stream (i : nat) : list (list R) :=
  repeat (repeat 0 128) 7 ++ [impulse_at i (127 - i)]
  ++ repeat (repeat 0 128) 8.

(** The filter as constructed (centre 10000 Hz, width 5000 Hz, flat width
    2000 Hz) at a gain of 1 and a sample rate of 44100 Hz. *)
Definition default_params : Worklet.AudioParams :=
  Worklet.mkAudioParams (Some 10000) (Some 5000) (Some 2000) (Some 1).

Definition default_filter : PlateauFilter.t :=
  PlateauFilter.mkPlateauFilter 44100 10000 5000 2000 1
    PlateauFilter.ScriptProcessor.

(** A plateau 2 Hz wide around 11988.28125 Hz at a sample rate of 48000 Hz:
    the centre is 1023 * 24000 / 2048, bin 1023 of the fallback's axis, and
    half way between bins 511 and 512 of the worklet's axis. *)
Definition narrow_filter : PlateauFilter.t :=
  PlateauFilter.mkPlateauFilter 48000 (383625 / 32) 2 1 1
    PlateauFilter.ScriptProcessor.

Definition narrow_params : Worklet.AudioParams :=
  Worklet.mkAudioParams (Some (383625 / 32)) (Some 2) (Some 1) (Some 1).

(** * Properties *)

(** ** Typed-array stores and loops *)

Section Stores.

Context {A : Type}.

Lemma length_store (a : list A) i v : length (store a i v) = length a.
Proof.
  revert i; induction a as [|h t IH]; intros [|i]; simpl; auto.
Qed.

Lemma nth_error_store_same (a : list A) i v :
  (i < length a)%nat -> nth_error (store a i v) i = Some v.
Proof.
  revert i; induction a as [|h t IH]; intros [|i] H; simpl in *;
    try lia; auto.
  apply IH; lia.
Qed.

Lemma nth_error_store_other (a : list A) i j v :
  i <> j -> nth_error (store a i v) j = nth_error a j.
Proof.
  revert i j; induction a as [|h t IH]; intros [|i] [|j] H; simpl;
    auto; try congruence.
Qed.

Lemma store_outside (a : list A) i v :
  (length a <= i)%nat -> store a i v = a.
Proof.
  revert i; induction a as [|h t IH]; intros [|i] H; simpl in *;
    auto; try lia.
  f_equal; apply IH; lia.
Qed.

Lemma nth_error_store (a : list A) i j v :
  nth_error (store a i v) j =
  if (i =? j)%nat then
    match nth_error a j with Some _ => Some v | None => None end
  else nth_error a j.
Proof.
  destruct (Nat.eqb_spec i j) as [->|Hne].
  - destruct (Nat.lt_ge_cases j (length a)) as [Hlt|Hge].
    + rewrite nth_error_store_same by assumption.
      destruct (nth_error a j) eqn:E; auto.
      apply nth_error_None in E; lia.
    + rewrite store_outside by assumption.
      destruct (nth_error a j) eqn:E; auto.
      assert (nth_error a j <> None) by congruence.
      apply nth_error_Some in H; lia.
  - apply nth_error_store_other; assumption.
Qed.

End Stores.

Lemma nth_of_nth_error {A : Type} (a b : list A) j d :
  nth_error a j = nth_error b j -> nth j a d = nth j b d.
Proof.
  intros H. rewrite <- !nth_default_eq. unfold nth_default. rewrite H.
  reflexivity.
Qed.

Lemma for_loop_S {S : Type} n (body : nat -> S -> S) s :
  for_loop (Datatypes.S n) body s = body n (for_loop n body s).
Proof.
  unfold for_loop. rewrite seq_S, fold_left_app. reflexivity.
Qed.

(** A loop that rewrites cell [i] from the old content of cell [i]. *)
Lemma for_loop_update {A : Type} (d : A) (g : nat -> A -> A) n (a : list A) j :
  nth_error (for_loop n (fun i b => store b i (g i (nth i b d))) a) j =
  if (j <? n)%nat then option_map (g j) (nth_error a j) else nth_error a j.
Proof.
  induction n as [|n IH].
  - reflexivity.
  - rewrite for_loop_S, nth_error_store.
    destruct (Nat.eqb_spec n j) as [->|Hne].
    + rewrite IH. rewrite Nat.ltb_irrefl.
      assert ((j <? S j)%nat = true) as -> by (apply Nat.ltb_lt; lia).
      destruct (nth_error a j) as [x|] eqn:E; simpl; auto.
      f_equal. f_equal.
      apply nth_error_nth with (d := d).
      rewrite Nat.ltb_irrefl in IH. exact IH.
    + rewrite IH.
      destruct (Nat.ltb_spec j n), (Nat.ltb_spec j (S n)); auto; lia.
Qed.

Lemma length_for_loop_update {A : Type} (f : nat -> list A -> A) n a :
  length (for_loop n (fun i b => store b i (f i b)) a) = length a.
Proof.
  induction n as [|n IH]; auto.
  rewrite for_loop_S, length_store. exact IH.
Qed.

(** Filling a typed array with a constant. *)
Lemma for_loop_fill {A : Type} (v : A) (a : list A) :
  for_loop (length a) (fun i b => store b i v) a = repeat v (length a).
Proof.
  apply nth_error_ext; intros j.
  rewrite (for_loop_update v (fun _ _ => v)).
  destruct (Nat.ltb_spec j (length a)) as [H|H].
  - rewrite nth_error_repeat by assumption.
    destruct (nth_error a j) eqn:E; auto.
    apply nth_error_None in E; lia.
  - transitivity (@None A).
    + apply nth_error_None; assumption.
    + symmetry; apply nth_error_None. rewrite repeat_length; assumption.
Qed.

Lemma length_store_num a i v : length (store_num a i v) = length a.
Proof. destruct v; simpl; auto using length_store. Qed.

(** A loop that stores computed samples: a [NaN] is dropped. *)
Lemma for_loop_store_num (v : nat -> num) n (a : list R) j :
  nth_error (for_loop n (fun i b => store_num b i (v i)) a) j =
  if (j <? n)%nat then
    match v j, nth_error a j with
    | Fin r, Some _ => Some r
    | _, o => o
    end
  else nth_error a j.
Proof.
  induction n as [|n IH].
  - reflexivity.
  - rewrite for_loop_S.
    destruct (Nat.eqb_spec n j) as [->|Hne].
    + assert ((j <? S j)%nat = true) as -> by (apply Nat.ltb_lt; lia).
      destruct (v j) as [r|]; simpl.
      * rewrite nth_error_store, Nat.eqb_refl, IH, Nat.ltb_irrefl.
        reflexivity.
      * rewrite IH, Nat.ltb_irrefl. destruct (nth_error a j); reflexivity.
    + assert (nth_error (store_num (for_loop n (fun i b => store_num b i (v i)) a)
                                   n (v n)) j
              = nth_error (for_loop n (fun i b => store_num b i (v i)) a) j) as ->.
      { destruct (v n); simpl; auto using nth_error_store_other. }
      rewrite IH.
      destruct (Nat.ltb_spec j n), (Nat.ltb_spec j (S n)); auto; lia.
Qed.

Lemma rd_Fin a i r : nth_error a i = Some r -> rd a i = Fin r.
Proof. unfold rd; intros ->; reflexivity. Qed.

Lemma rd_inside a i : (i < length a)%nat -> rd a i = Fin (nth i a 0).
Proof.
  intros H. apply rd_Fin. apply nth_error_nth'. assumption.
Qed.

Lemma Rltb_true a b : a < b -> Rltb a b = true.
Proof. unfold Rltb; destruct (Rlt_dec a b); auto; contradiction. Qed.

Lemma Rltb_false a b : b <= a -> Rltb a b = false.
Proof. unfold Rltb; destruct (Rlt_dec a b); auto; lra. Qed.

Lemma Rleb_true a b : a <= b -> Rleb a b = true.
Proof. unfold Rleb; destruct (Rle_dec a b); auto; contradiction. Qed.

Lemma Rleb_false a b : b < a -> Rleb a b = false.
Proof. unfold Rleb; destruct (Rle_dec a b); auto; lra. Qed.

Lemma Reqb_true a b : a = b -> Reqb a b = true.
Proof. unfold Reqb; destruct (Req_dec_T a b); auto; contradiction. Qed.

Lemma Reqb_false a b : a <> b -> Reqb a b = false.
Proof. unfold Reqb; destruct (Req_dec_T a b); auto; contradiction. Qed.

(** ** Complex arithmetic *)

Lemma Complex_eq (a b : Complex) :
  real a = real b -> imag a = imag b -> a = b.
Proof. destruct a, b; simpl; intros -> ->; reflexivity. Qed.

Ltac cx_eq := apply Complex_eq; simpl; try ring.

Lemma cis_0 : cis 0 = mkComplex 1 0.
Proof. unfold cis, Cx.fromPolar. rewrite cos_0, sin_0. cx_eq. Qed.

Lemma cis_plus a b : cis (a + b) = Cx.multiply (cis a) (cis b).
Proof.
  unfold cis, Cx.fromPolar. rewrite cos_plus, sin_plus. cx_eq.
Qed.

Lemma multiply_1_r a : Cx.multiply a (mkComplex 1 0) = a.
Proof. destruct a; cx_eq. Qed.

Lemma multiply_0_r a : Cx.multiply a Cx.zero = Cx.zero.
Proof. cx_eq. Qed.

Lemma multiply_0_l a : Cx.multiply Cx.zero a = Cx.zero.
Proof. cx_eq. Qed.

Lemma multiply_assoc a b c :
  Cx.multiply a (Cx.multiply b c) = Cx.multiply (Cx.multiply a b) c.
Proof. cx_eq. Qed.

Lemma add_0_l a : Cx.add Cx.zero a = a.
Proof. destruct a; cx_eq. Qed.

Lemma add_0_r a : Cx.add a Cx.zero = a.
Proof. destruct a; cx_eq. Qed.

(** A product of complex numbers vanishes only if a factor does. *)
Lemma multiply_eq_0 a b :
  Cx.multiply a b = Cx.zero -> a <> Cx.zero -> b = Cx.zero.
Proof.
  destruct a as [ar ai], b as [br bi]. unfold Cx.multiply, Cx.zero; simpl.
  intros H Ha. injection H as Hr Hi.
  assert (Hn : ar * ar + ai * ai <> 0).
  { intros Hz. apply Ha.
    assert (ar = 0) by nra. assert (ai = 0) by nra. subst; reflexivity. }
  assert (Hbr : (ar * ar + ai * ai) * br = 0).
  { replace ((ar * ar + ai * ai) * br)
      with (ar * (ar * br - ai * bi) + ai * (ar * bi + ai * br)) by ring.
    rewrite Hr, Hi. ring. }
  assert (Hbi : (ar * ar + ai * ai) * bi = 0).
  { replace ((ar * ar + ai * ai) * bi)
      with (ar * (ar * bi + ai * br) - ai * (ar * br - ai * bi)) by ring.
    rewrite Hr, Hi. ring. }
  apply Rmult_integral in Hbr, Hbi.
  destruct Hbr as [?|Hbr], Hbi as [?|Hbi]; try contradiction.
  subst; reflexivity.
Qed.

(** ** Finite sums *)

Lemma csum_ext n f g :
  (forall i, (i < n)%nat -> f i = g i) -> csum n f = csum n g.
Proof.
  induction n as [|n IH]; intros H; simpl; auto.
  rewrite IH, H by auto with arith. reflexivity.
Qed.

Lemma csum_add n f g :
  csum n (fun i => Cx.add (f i) (g i)) = Cx.add (csum n f) (csum n g).
Proof.
  induction n as [|n IH]; simpl.
  - cx_eq.
  - rewrite IH. cx_eq.
Qed.

Lemma csum_multiply_r n f c :
  csum n (fun i => Cx.multiply (f i) c) = Cx.multiply (csum n f) c.
Proof.
  induction n as [|n IH]; simpl.
  - cx_eq.
  - rewrite IH. cx_eq.
Qed.

Lemma csum_multiply_l n f c :
  csum n (fun i => Cx.multiply c (f i)) = Cx.multiply c (csum n f).
Proof.
  induction n as [|n IH]; simpl.
  - cx_eq.
  - rewrite IH. cx_eq.
Qed.

Lemma csum_scale n f c :
  csum n (fun i => Cx.scale (f i) c) = Cx.scale (csum n f) c.
Proof.
  induction n as [|n IH]; simpl.
  - cx_eq.
  - rewrite IH. cx_eq.
Qed.

Lemma csum_zero n : csum n (fun _ => Cx.zero) = Cx.zero.
Proof.
  induction n as [|n IH]; simpl; auto. rewrite IH. cx_eq.
Qed.

Lemma csum_swap n m (f : nat -> nat -> Complex) :
  csum n (fun i => csum m (fun j => f i j)) =
  csum m (fun j => csum n (fun i => f i j)).
Proof.
  induction n as [|n IH]; simpl.
  - symmetry; apply csum_zero.
  - rewrite IH. symmetry. apply csum_add.
Qed.

(** A sum over [2 * h] indices, split into even and odd indices. *)
Lemma csum_even_odd h f :
  csum (2 * h) f =
  Cx.add (csum h (fun i => f (2 * i)%nat)) (csum h (fun i => f (2 * i + 1)%nat)).
Proof.
  induction h as [|h IH].
  - simpl. cx_eq.
  - replace (2 * S h)%nat with (S (S (2 * h))) by lia.
    cbn [csum]. rewrite IH.
    replace (2 * h + 1)%nat with (S (2 * h)) by lia.
    cx_eq.
Qed.

(** Only the term of index [j] is left of a sum whose other terms vanish. *)
Lemma csum_single n j f :
  (j < n)%nat -> (forall i, (i < n)%nat -> i <> j -> f i = Cx.zero) ->
  csum n f = f j.
Proof.
  induction n as [|n IH]; intros Hj Hz; [lia|].
  simpl. destruct (Nat.eq_dec j n) as [->|Hne].
  - rewrite (csum_ext n f (fun _ => Cx.zero)).
    + rewrite csum_zero. apply add_0_l.
    + intros i Hi. apply Hz; lia.
  - rewrite IH by (try lia; intros; apply Hz; lia).
    rewrite (Hz n) by lia. apply add_0_r.
Qed.

(** ** The transforms compute the discrete Fourier transform *)

Lemma fft_body x :
  fft x =
  if (length x <=? 1)%nat then Normal x
  else if Nat.even (length x) then
    evenFFT <- fft (evens x) ;;
    oddFFT <- fft (odds x) ;;
    Normal (fft_combine (length x) evenFFT oddFFT)
  else Throw RangeError.
Proof.
  rewrite fft_equation_1.
  destruct (le_lt_dec (length x) 1) as [H|H]; simpl.
  - apply Nat.leb_le in H. rewrite H. reflexivity.
  - apply Nat.leb_gt in H. rewrite H. reflexivity.
Qed.

Lemma ifft_body x :
  ifft x =
  if (length x <=? 1)%nat then Normal x
  else if Nat.even (length x) then
    evenIFFT <- ifft (evens x) ;;
    oddIFFT <- ifft (odds x) ;;
    Normal (ifft_combine (length x) evenIFFT oddIFFT)
  else Throw RangeError.
Proof.
  rewrite ifft_equation_1.
  destruct (le_lt_dec (length x) 1) as [H|H]; simpl.
  - apply Nat.leb_le in H. rewrite H. reflexivity.
  - apply Nat.leb_gt in H. rewrite H. reflexivity.
Qed.

Lemma nth_map_seq {A : Type} (f : nat -> A) n i d :
  (i < n)%nat -> nth i (map f (seq 0 n)) d = f i.
Proof.
  intros H. rewrite (nth_indep _ d (f 0%nat))
    by (rewrite length_map, length_seq; assumption).
  rewrite (map_nth f (seq 0 n) 0%nat i), seq_nth by assumption.
  reflexivity.
Qed.

Lemma map_seq_ext {A : Type} (f g : nat -> A) a n :
  (forall i, (a <= i < a + n)%nat -> f i = g i) ->
  map f (seq a n) = map g (seq a n).
Proof.
  intros H. apply map_ext_in. intros i Hi. apply in_seq in Hi. auto.
Qed.

Lemma map_seq_shift {A : Type} (f : nat -> A) a n :
  map f (seq a n) = map (fun i => f (i + a)%nat) (seq 0 n).
Proof.
  revert a; induction n as [|n IH]; intros a; simpl; auto.
  f_equal. rewrite (IH (S a)), <- seq_shift, map_map.
  apply map_ext. intros i. f_equal. lia.
Qed.

Lemma length_evens x : length (evens x) = (length x / 2)%nat.
Proof. unfold evens. rewrite length_map, length_seq. reflexivity. Qed.

Lemma length_odds x : length (odds x) = (length x / 2)%nat.
Proof. unfold odds. rewrite length_map, length_seq. reflexivity. Qed.

Lemma half_double h : (2 * h / 2 = h)%nat.
Proof. rewrite Nat.mul_comm. apply Nat.div_mul. discriminate. Qed.

Section Butterfly.

Variable c : R.
Hypothesis c_period : forall i : nat, cis (c * INR i) = mkComplex 1 0.
Hypothesis c_half : cis (c / 2) = mkComplex (-1) 0.

Variables (x : list Complex) (h : nat).
Hypothesis Hlen : length x = (2 * h)%nat.
Hypothesis Hpos : (0 < h)%nat.

Let Hh : INR h <> 0.
Proof. apply not_0_INR. lia. Qed.

Lemma dft_evens k :
  dft c (evens x) k =
  csum h (fun i => Cx.multiply (nth (2 * i) x Cx.zero)
                     (cis (c * INR k * INR i / INR h))).
Proof.
  unfold dft. rewrite length_evens, Hlen, half_double.
  apply csum_ext. intros i Hi. f_equal.
  unfold evens. rewrite Hlen, half_double.
  exact (nth_map_seq (fun j => nth (2 * j) x Cx.zero) h i Cx.zero Hi).
Qed.

Lemma dft_odds k :
  dft c (odds x) k =
  csum h (fun i => Cx.multiply (nth (2 * i + 1) x Cx.zero)
                     (cis (c * INR k * INR i / INR h))).
Proof.
  unfold dft. rewrite length_odds, Hlen, half_double.
  apply csum_ext. intros i Hi. f_equal.
  unfold odds. rewrite Hlen, half_double.
  exact (nth_map_seq (fun j => nth (2 * j + 1) x Cx.zero) h i Cx.zero Hi).
Qed.

Lemma dft_low k :
  dft c x k =
  Cx.add (dft c (evens x) k)
         (Cx.multiply (dft c (odds x) k)
                      (cis (c * INR k / INR (length x)))).
Proof.
  rewrite dft_evens, dft_odds. unfold dft. rewrite Hlen, csum_even_odd.
  f_equal.
  - apply csum_ext. intros i _. f_equal. f_equal.
    rewrite !mult_INR. simpl (INR 2). field. assumption.
  - rewrite <- csum_multiply_r. apply csum_ext. intros i _.
    rewrite <- multiply_assoc, <- cis_plus. f_equal. f_equal.
    rewrite plus_INR, !mult_INR. simpl (INR 2). simpl (INR 1).
    field. assumption.
Qed.

Lemma dft_high k :
  dft c x (k + h) =
  Cx.subtract (dft c (evens x) k)
              (Cx.multiply (dft c (odds x) k)
                           (cis (c * INR k / INR (length x)))).
Proof.
  rewrite dft_evens, dft_odds. unfold dft. rewrite Hlen, csum_even_odd.
  transitivity
    (Cx.add
       (csum h (fun i => Cx.multiply (nth (2 * i) x Cx.zero)
                           (cis (c * INR k * INR i / INR h))))
       (Cx.multiply
          (Cx.multiply
             (csum h (fun i => Cx.multiply (nth (2 * i + 1) x Cx.zero)
                                 (cis (c * INR k * INR i / INR h))))
             (cis (c * INR k / INR (2 * h))))
          (mkComplex (-1) 0))).
  - f_equal.
    + apply csum_ext. intros i _. f_equal.
      replace (c * INR (k + h) * INR (2 * i) / INR (2 * h))
        with (c * INR k * INR i / INR h + c * INR i).
      * rewrite cis_plus, c_period. apply multiply_1_r.
      * rewrite plus_INR, !mult_INR. simpl (INR 2). field. assumption.
    + rewrite <- !csum_multiply_r. apply csum_ext. intros i _.
      rewrite <- !multiply_assoc. f_equal.
      replace (c * INR (k + h) * INR (2 * i + 1) / INR (2 * h))
        with (c * INR k * INR i / INR h
              + (c * INR k / INR (2 * h) + (c * INR i + c / 2))).
      * rewrite !cis_plus, c_period, c_half.
        f_equal. f_equal. cx_eq.
      * rewrite !plus_INR, !mult_INR. simpl (INR 2). simpl (INR 1).
        field. assumption.
  - cx_eq.
Qed.

End Butterfly.

Lemma cis_neg a : cis (- a) = Cx.conjugate (cis a).
Proof. unfold cis, Cx.fromPolar. rewrite cos_neg, sin_neg. cx_eq. Qed.

Lemma cis_period_pos (i : nat) : cis (2 * PI * INR i) = mkComplex 1 0.
Proof.
  unfold cis, Cx.fromPolar.
  replace (2 * PI * INR i) with (0 + 2 * INR i * PI) by ring.
  rewrite cos_period, sin_period, cos_0, sin_0. cx_eq.
Qed.

Lemma cis_period_neg (i : nat) : cis (-2 * PI * INR i) = mkComplex 1 0.
Proof.
  replace (-2 * PI * INR i) with (- (2 * PI * INR i)) by ring.
  rewrite cis_neg, cis_period_pos. cx_eq.
Qed.

Lemma cis_half_pos : cis (2 * PI / 2) = mkComplex (-1) 0.
Proof.
  replace (2 * PI / 2) with PI by field.
  unfold cis, Cx.fromPolar. rewrite cos_PI, sin_PI. cx_eq.
Qed.

Lemma cis_half_neg : cis (-2 * PI / 2) = mkComplex (-1) 0.
Proof.
  replace (-2 * PI / 2) with (- PI) by field.
  rewrite cis_neg. unfold cis, Cx.fromPolar. rewrite cos_PI, sin_PI. cx_eq.
Qed.

Lemma length_dft_list c x : length (dft_list c x) = length x.
Proof. unfold dft_list. rewrite length_map, length_seq. reflexivity. Qed.

Lemma length_idft_list c x : length (idft_list c x) = length x.
Proof. unfold idft_list. rewrite length_map, length_seq. reflexivity. Qed.

Lemma pow2_pos m : (0 < 2 ^ m)%nat.
Proof. apply Nat.neq_0_lt_0, Nat.pow_nonzero. discriminate. Qed.

Lemma dft_singleton c a k : dft c [a] k = a.
Proof.
  unfold dft. simpl.
  replace (c * INR k * 0 / 1) with 0 by field.
  rewrite cis_0. destruct a. cx_eq.
Qed.

Lemma singleton_list {A : Type} (x : list A) :
  length x = 1%nat -> exists a, x = [a].
Proof.
  destruct x as [|a [|b t]]; simpl; try discriminate. eauto.
Qed.

(** [fft] is the forward transform on every power-of-two length. *)
Lemma fft_is_dft m x :
  length x = (2 ^ m)%nat -> fft x = Normal (dft_list (-2 * PI) x).
Proof.
  revert x; induction m as [|m IH]; intros x Hx.
  - destruct (singleton_list x Hx) as [a ->].
    rewrite fft_body. simpl. unfold dft_list. simpl.
    rewrite dft_singleton. reflexivity.
  - pose proof (pow2_pos m) as Hpos.
    assert (Hlen : length x = (2 * 2 ^ m)%nat) by (rewrite Hx; simpl; lia).
    rewrite fft_body.
    assert ((length x <=? 1)%nat = false) as -> by (apply Nat.leb_gt; lia).
    assert (Nat.even (length x) = true) as ->
        by (rewrite Hlen, Nat.even_mul; reflexivity).
    assert (He : length (evens x) = (2 ^ m)%nat)
      by (rewrite length_evens, Hlen; apply half_double).
    assert (Ho : length (odds x) = (2 ^ m)%nat)
      by (rewrite length_odds, Hlen; apply half_double).
    rewrite (IH _ He), (IH _ Ho). simpl bind. f_equal.
    unfold fft_combine, dft_list. rewrite He, Ho.
    replace (length x / 2)%nat with (2 ^ m)%nat
      by (rewrite Hlen, half_double; reflexivity).
    replace (seq 0 (length x)) with (seq 0 (2 ^ m + 2 ^ m))
      by (f_equal; lia).
    rewrite seq_app, map_app. simpl (0 + _)%nat.
    rewrite (map_seq_shift _ (2 ^ m)). f_equal.
    + apply map_seq_ext. intros k Hk.
      rewrite !nth_map_seq by lia.
      symmetry. apply (dft_low _ x (2 ^ m)); assumption.
    + apply map_seq_ext. intros k Hk.
      rewrite !nth_map_seq by lia.
      symmetry.
      apply (dft_high _ cis_period_neg cis_half_neg x (2 ^ m)); assumption.
Qed.

(** [ifft] is the inverse transform with its [1/N] scale: the 0.5 of each
    of the [m] levels multiply to [1 / 2 ^ m]. *)
Lemma ifft_is_idft m x :
  length x = (2 ^ m)%nat -> ifft x = Normal (idft_list (2 * PI) x).
Proof.
  revert x; induction m as [|m IH]; intros x Hx.
  - destruct (singleton_list x Hx) as [a ->].
    rewrite ifft_body. simpl. unfold idft_list. simpl.
    rewrite dft_singleton. do 2 f_equal. destruct a. cx_eq; field.
  - pose proof (pow2_pos m) as Hpos.
    assert (Hlen : length x = (2 * 2 ^ m)%nat) by (rewrite Hx; simpl; lia).
    assert (Hh : INR (2 ^ m) <> 0) by (apply not_0_INR; lia).
    rewrite ifft_body.
    assert ((length x <=? 1)%nat = false) as -> by (apply Nat.leb_gt; lia).
    assert (Nat.even (length x) = true) as ->
        by (rewrite Hlen, Nat.even_mul; reflexivity).
    assert (He : length (evens x) = (2 ^ m)%nat)
      by (rewrite length_evens, Hlen; apply half_double).
    assert (Ho : length (odds x) = (2 ^ m)%nat)
      by (rewrite length_odds, Hlen; apply half_double).
    rewrite (IH _ He), (IH _ Ho). simpl bind. f_equal.
    unfold ifft_combine, idft_list. rewrite He, Ho.
    replace (length x / 2)%nat with (2 ^ m)%nat
      by (rewrite Hlen, half_double; reflexivity).
    replace (seq 0 (length x)) with (seq 0 (2 ^ m + 2 ^ m))
      by (f_equal; lia).
    rewrite seq_app, map_app. simpl (0 + _)%nat.
    rewrite (map_seq_shift _ (2 ^ m)). f_equal.
    + apply map_seq_ext. intros k Hk.
      rewrite !nth_map_seq by lia.
      rewrite (dft_low _ x (2 ^ m)) by assumption.
      rewrite Hlen, mult_INR. simpl (INR 2). cx_eq; field; assumption.
    + apply map_seq_ext. intros k Hk.
      rewrite !nth_map_seq by lia.
      rewrite (dft_high _ cis_period_pos cis_half_pos x (2 ^ m))
        by assumption.
      rewrite Hlen, mult_INR. simpl (INR 2). cx_eq; field; assumption.
Qed.

(** ** Orthogonality of the roots of unity *)

Lemma csum_const n a : csum n (fun _ => a) = Cx.scale a (INR n).
Proof.
  induction n as [|n IH].
  - simpl. cx_eq.
  - cbn [csum]. rewrite IH, S_INR. cx_eq.
Qed.

(** The geometric sum. *)
Lemma csum_geometric theta n :
  Cx.multiply (Cx.subtract (cis theta) (mkComplex 1 0))
              (csum n (fun k => cis (INR k * theta))) =
  Cx.subtract (cis (INR n * theta)) (mkComplex 1 0).
Proof.
  induction n as [|n IH].
  - simpl. rewrite Rmult_0_l, cis_0. cx_eq.
  - cbn [csum].
    replace (INR (S n) * theta) with (theta + INR n * theta)
      by (rewrite S_INR; ring).
    rewrite cis_plus.
    transitivity
      (Cx.add (Cx.multiply (Cx.subtract (cis theta) (mkComplex 1 0))
                           (csum n (fun k => cis (INR k * theta))))
              (Cx.multiply (Cx.subtract (cis theta) (mkComplex 1 0))
                           (cis (INR n * theta)))).
    + cx_eq.
    + rewrite IH. cx_eq.
Qed.

(** Inside one turn, only the angle 0 gives the unit 1. *)
Lemma cos_1_inside t : - 2 * PI < t < 2 * PI -> cos t = 1 -> t = 0.
Proof.
  intros [Hlo Hhi] Hc.
  assert (Hs : sin (t / 2) = 0).
  { assert (H : cos t = 1 - 2 * sin (t / 2) * sin (t / 2)).
    { replace t with (2 * (t / 2)) at 1 by field. apply cos_2a_sin. }
    rewrite Hc in H. assert (sin (t / 2) * sin (t / 2) = 0) by lra.
    apply Rmult_integral in H0. tauto. }
  destruct (Rtotal_order t 0) as [Hneg|[Hz|Hp]]; auto; exfalso.
  - assert (0 < sin (- (t / 2))) by (apply sin_gt_0; lra).
    rewrite sin_neg in H. lra.
  - assert (0 < sin (t / 2)) by (apply sin_gt_0; lra). lra.
Qed.

Section Orthogonality.

Variable c : R.
Hypothesis c_period : forall i : nat, cis (c * INR i) = mkComplex 1 0.
Hypothesis c_turn : c = 2 * PI \/ c = - 2 * PI.

Lemma cis_integer (j n : nat) : cis (c * (INR j - INR n)) = mkComplex 1 0.
Proof.
  replace (c * (INR j - INR n)) with (c * INR j + - (c * INR n)) by ring.
  rewrite cis_plus, cis_neg, !c_period. cx_eq.
Qed.

Lemma cis_fraction_not_1 (N j n : nat) :
  (j < N)%nat -> (n < N)%nat -> j <> n ->
  cis (c * (INR j - INR n) / INR N) <> mkComplex 1 0.
Proof.
  intros Hj Hn Hne Heq.
  assert (HN : 0 < INR N) by (apply lt_0_INR; lia).
  assert (Hj' : 0 <= INR j < INR N)
    by (split; [apply pos_INR | apply lt_INR; assumption]).
  assert (Hn' : 0 <= INR n < INR N)
    by (split; [apply pos_INR | apply lt_INR; assumption]).
  assert (Hd : INR j - INR n <> 0).
  { intros H. apply Hne. apply INR_eq. lra. }
  set (t := (INR j - INR n) / INR N).
  assert (Ht : -1 < t < 1).
  { unfold t. split.
    - apply Rmult_lt_reg_r with (INR N); auto.
      unfold Rdiv. rewrite Rmult_assoc, Rinv_l by lra. lra.
    - apply Rmult_lt_reg_r with (INR N); auto.
      unfold Rdiv. rewrite Rmult_assoc, Rinv_l by lra. lra. }
  assert (Ht0 : t <> 0).
  { unfold t. intros H. apply Hd.
    apply Rmult_eq_reg_r with (/ INR N).
    - rewrite Rmult_0_l. exact H.
    - apply Rinv_neq_0_compat. lra. }
  assert (Hcos : cos (c * t) = 1).
  { replace (c * t) with (c * (INR j - INR n) / INR N)
      by (unfold t; field; lra).
    apply (f_equal real) in Heq. simpl in Heq. lra. }
  pose proof PI_RGT_0 as Hpi.
  apply Ht0.
  destruct c_turn as [-> | ->].
  + assert (2 * PI * t = 0) by (apply cos_1_inside; auto; nra). nra.
  + assert (- 2 * PI * t = 0) by (apply cos_1_inside; auto; nra). nra.
Qed.

Lemma roots_orthogonal (N j n : nat) :
  (j < N)%nat -> (n < N)%nat ->
  csum N (fun k => cis (c * INR k * (INR j - INR n) / INR N)) =
  if (j =? n)%nat then mkComplex (INR N) 0 else Cx.zero.
Proof.
  intros Hj Hn.
  assert (HN : INR N <> 0) by (apply not_0_INR; lia).
  destruct (Nat.eqb_spec j n) as [->|Hne].
  - rewrite (csum_ext _ _ (fun _ => mkComplex 1 0)).
    + rewrite csum_const. cx_eq.
    + intros k _. rewrite <- cis_0. f_equal. field. assumption.
  - pose proof (csum_geometric (c * (INR j - INR n) / INR N) N) as G.
    replace (INR N * (c * (INR j - INR n) / INR N))
      with (c * (INR j - INR n)) in G by (field; assumption).
    rewrite cis_integer in G.
    replace (Cx.subtract (mkComplex 1 0) (mkComplex 1 0)) with Cx.zero in G
      by cx_eq.
    rewrite (csum_ext _ _
               (fun k => cis (INR k * (c * (INR j - INR n) / INR N)))).
    + apply multiply_eq_0 in G; auto.
      intros H. apply (cis_fraction_not_1 N j n Hj Hn Hne).
      apply Complex_eq.
      * apply (f_equal real) in H. simpl in *. lra.
      * apply (f_equal imag) in H. simpl in *. lra.
    + intros k _. f_equal. field. assumption.
Qed.

(** The transform with step [-c] undoes the transform with step [c], up
    to the factor [N]. *)
Lemma dft_inverse (x : list Complex) (j : nat) :
  (j < length x)%nat ->
  dft (- c) (dft_list c x) j = Cx.scale (nth j x Cx.zero) (INR (length x)).
Proof.
  intros Hj. set (N := length x).
  assert (HN : INR N <> 0) by (apply not_0_INR; unfold N; lia).
  unfold dft at 1. rewrite length_dft_list. fold N.
  rewrite (csum_ext _ _
    (fun k => csum N (fun n =>
       Cx.multiply (nth n x Cx.zero)
                   (cis (c * INR k * (INR n - INR j) / INR N))))).
  - rewrite csum_swap.
    rewrite (csum_ext _ _
      (fun n => Cx.multiply (nth n x Cx.zero)
                  (if (n =? j)%nat then mkComplex (INR N) 0 else Cx.zero))).
    + rewrite (csum_single N j) by
        (auto; intros i Hi Hne;
         apply Nat.eqb_neq in Hne; rewrite Hne; apply multiply_0_r).
      rewrite Nat.eqb_refl. cx_eq.
    + intros n Hn. rewrite csum_multiply_l.
      rewrite roots_orthogonal by assumption. reflexivity.
  - intros k Hk. unfold dft_list. fold N. rewrite nth_map_seq by assumption.
    unfold dft. fold N. rewrite <- csum_multiply_r.
    apply csum_ext. intros n Hn.
    rewrite <- multiply_assoc, <- cis_plus. f_equal. f_equal.
    field. assumption.
Qed.

End Orthogonality.

(** ** fft and ifft undo each other *)

Lemma map_nth_seq {A : Type} (x : list A) d :
  map (fun k => nth k x d) (seq 0 (length x)) = x.
Proof.
  apply nth_ext with (d := d) (d' := d).
  - rewrite length_map, length_seq. reflexivity.
  - intros n Hn. rewrite length_map, length_seq in Hn.
    exact (nth_map_seq (fun k => nth k x d) (length x) n d Hn).
Qed.

Lemma idft_list_scale c x :
  idft_list c x = map (fun a => Cx.scale a (/ INR (length x))) (dft_list c x).
Proof. unfold idft_list, dft_list. rewrite map_map. reflexivity. Qed.

Lemma dft_scale c y s k :
  dft c (map (fun a => Cx.scale a s) y) k = Cx.scale (dft c y k) s.
Proof.
  unfold dft. rewrite length_map, <- csum_scale.
  apply csum_ext. intros n Hn.
  rewrite (nth_indep _ Cx.zero (Cx.scale Cx.zero s))
    by (rewrite length_map; assumption).
  rewrite (map_nth (fun a => Cx.scale a s)). cx_eq.
Qed.


Lemma fft_after_ifft m x :
  length x = (2 ^ m)%nat -> (y <- ifft x ;; fft y) = Normal x.
Proof.
  intros Hx. pose proof (pow2_pos m) as Hpos.
  assert (HN : INR (length x) <> 0) by (apply not_0_INR; lia).
  rewrite (ifft_is_idft m x Hx). simpl bind.
  rewrite (fft_is_dft m) by (rewrite length_idft_list; assumption).
  f_equal. unfold dft_list at 1. rewrite length_idft_list.
  transitivity (map (fun k => nth k x Cx.zero) (seq 0 (length x)));
    [|apply map_nth_seq].
  apply map_seq_ext. intros k Hk.
  rewrite idft_list_scale, dft_scale.
  replace (-2 * PI) with (- (2 * PI)) by ring.
  rewrite (dft_inverse _ cis_period_pos) by (auto; lia).
  cx_eq; field; assumption.
Qed.




(** ** The round trip on binary64 numbers *)

Section Binary64RoundTrip.

Import PrimFloat.






End Binary64RoundTrip.

(** ** The worklet: bypass branches *)

Lemma latch_gain this parameters :
  Worklet.gain (Worklet.latch this parameters) =
  Worklet.or_else (Worklet.p_gain parameters) (Worklet.gain this).
Proof. reflexivity. Qed.

(** The bypass branch of line 241. *)
Lemma process_gain_zero sampleRate this input ins inputs
      output channels outputs parameters :
  Worklet.or_else (Worklet.p_gain parameters) (Worklet.gain this) = 0 ->
  Worklet.process sampleRate this ((input :: ins) :: inputs)
    ((output :: channels) :: outputs) parameters
  = Worklet.mkProcessResult (Worklet.latch this parameters)
      ((repeat (Fin 0) (length output) :: channels) :: outputs)
      (Normal true) [].
Proof.
  intros Hg. unfold Worklet.process.
  rewrite latch_gain, Hg, Reqb_true by reflexivity.
  rewrite for_loop_fill. reflexivity.
Qed.

(** C6.  With an input block and an output block at hand and a gain of
    exactly 0, [process] writes 0 into every sample of the output block,
    whatever the input holds, returns [true], and calls neither [fft] nor
    [ifft]. *)
Theorem gain_zero_fast_path sampleRate this input ins inputs
        output channels outputs parameters :
  Worklet.or_else (Worklet.p_gain parameters) (Worklet.gain this) = 0 ->
  let r := Worklet.process sampleRate this ((input :: ins) :: inputs)
             ((output :: channels) :: outputs) parameters in
  Worklet.r_outputs r
    = (repeat (Fin 0) (length output) :: channels) :: outputs /\
  (forall i, (i < length output)%nat ->
     nth_error (nth 0 (nth 0 (Worklet.r_outputs r) []) []) i = Some (Fin 0)) /\
  Worklet.r_completion r = Normal true /\
  Worklet.r_transforms r = [].
Proof.
  intros Hg r. unfold r. rewrite process_gain_zero by exact Hg.
  cbn [Worklet.r_outputs Worklet.r_completion Worklet.r_transforms nth].
  repeat split. intros i Hi. apply nth_error_repeat. exact Hi.
Qed.

Lemma gain_zero_fast_path_witness :
  Worklet.or_else (Some 0) (Worklet.gain Worklet.constructor) = 0 /\
  Worklet.r_outputs
    (Worklet.process 48000 Worklet.constructor [[[1; 2]]] [[[NaN; Fin 3]]]
       (Worklet.mkAudioParams None None None (Some 0)))
  = [[[Fin 0; Fin 0]]].
Proof.
  split; [reflexivity|].
  apply (gain_zero_fast_path 48000 Worklet.constructor [1; 2] [] []
           [NaN; Fin 3] [] []
           (Worklet.mkAudioParams None None None (Some 0))).
  reflexivity.
Defined.




(** ** The plateau mask *)

Lemma nth_error_map_seq {A : Type} (f : nat -> A) n i :
  (i < n)%nat -> nth_error (map f (seq 0 n)) i = Some (f i).
Proof.
  intros H. rewrite nth_error_map, nth_error_seq.
  apply Nat.ltb_lt in H. rewrite H. reflexivity.
Qed.

Lemma worklet_mask_bin sampleRate centerFreq width flatWidth size i :
  (i < size)%nat ->
  nth_error (Worklet.createPlateauFilterMask sampleRate centerFreq width
               flatWidth size) i =
  Some (if (i =? 0)%nat then 0
        else Worklet.plateau centerFreq width flatWidth
               (Worklet.freq_axis sampleRate size i)).
Proof.
  intros Hi. unfold Worklet.createPlateauFilterMask.
  rewrite nth_error_store.
  rewrite (nth_error_map_seq
             (fun i => Worklet.plateau centerFreq width flatWidth
                (nth i (map (Worklet.freq_axis sampleRate size) (seq 0 size)) 0)))
    by assumption.
  destruct i as [|i]; simpl (_ =? _)%nat; cbv iota; [reflexivity|].
  do 2 f_equal.
  exact (nth_map_seq (Worklet.freq_axis sampleRate size) size (S i) 0 Hi).
Qed.

Lemma length_worklet_mask sampleRate centerFreq width flatWidth size :
  length (Worklet.createPlateauFilterMask sampleRate centerFreq width
            flatWidth size) = size.
Proof.
  unfold Worklet.createPlateauFilterMask.
  rewrite length_store, length_map, length_seq. reflexivity.
Qed.

(** C4.  Bin 0 of the worklet mask is 0, and every other bin [i] follows
    the plateau formula on the folded frequency axis: 1 in the flat band,
    the raised cosine in the skirt, 0 outside. *)
Theorem worklet_mask_formula sampleRate centerFreq width flatWidth N i freq :
  (i < N)%nat -> flatWidth < width ->
  (INR i <= INR N / 2 /\ freq = INR i * sampleRate / INR N) \/
  (INR N / 2 < INR i /\ freq = (INR i - INR N) * sampleRate / INR N) ->
  let absDiff := Rabs (Rabs freq - centerFreq) in
  let bin := nth_error (Worklet.createPlateauFilterMask sampleRate centerFreq
                          width flatWidth N) i in
  (i = 0%nat -> bin = Some 0) /\
  (i <> 0%nat -> absDiff < flatWidth / 2 -> bin = Some 1) /\
  (i <> 0%nat -> flatWidth / 2 <= absDiff < width / 2 ->
   bin = Some (0.5 * (1 + cos (PI * (absDiff - flatWidth / 2)
                               / (width / 2 - flatWidth / 2))))) /\
  (i <> 0%nat -> width / 2 <= absDiff -> bin = Some 0).
Proof.
  intros Hi Hw Hfreq absDiff bin.
  assert (Haxis : Worklet.freq_axis sampleRate N i = freq).
  { unfold Worklet.freq_axis.
    destruct Hfreq as [[Hle ->]|[Hgt ->]].
    - rewrite Rleb_true by assumption. reflexivity.
    - rewrite Rleb_false by assumption. reflexivity. }
  unfold bin. rewrite worklet_mask_bin by assumption. rewrite Haxis.
  unfold Worklet.plateau. fold absDiff.
  repeat split.
  - intros ->. reflexivity.
  - intros Hne Hflat. apply Nat.eqb_neq in Hne. rewrite Hne.
    rewrite Rltb_true by assumption. reflexivity.
  - intros Hne [Hlo Hhi]. apply Nat.eqb_neq in Hne. rewrite Hne.
    rewrite Rltb_false by assumption. rewrite Rltb_true by assumption.
    reflexivity.
  - intros Hne Hout. apply Nat.eqb_neq in Hne. rewrite Hne.
    rewrite Rltb_false by lra. rewrite Rltb_false by assumption.
    reflexivity.
Qed.

Lemma worklet_mask_formula_witness :
  (1 < 8)%nat /\ 100 < 200 /\
  nth_error (Worklet.createPlateauFilterMask 8000 1000 200 100 8) 1 = Some 1.
Proof.
  split; [lia | split; [lra|]].
  refine (proj1 (proj2 (worklet_mask_formula 8000 1000 200 100 8 1 1000
                          _ _ _)) _ _).
  - lia.
  - lra.
  - left. simpl. split; lra.
  - discriminate.
  - rewrite (Rabs_pos_eq 1000) by lra.
    replace (1000 - 1000) with 0 by ring. rewrite Rabs_R0. lra.
Defined.

Lemma ftt_mask_returned frequencies targetFreq width delta mask :
  Ftt.createPlateauFilterMask frequencies targetFreq width delta = Normal mask ->
  mask = store (map (fun i => Ftt.plateau targetFreq width delta
                                (nth i frequencies 0))
                    (seq 0 (length frequencies))) 0 0 /\
  (0 < length mask)%nat.
Proof.
  unfold Ftt.createPlateauFilterMask.
  set (m := store _ 0%nat 0).
  unfold Ftt.log_at at 1.
  destruct (nth_error m 0) eqn:E0; simpl bind; [|discriminate].
  assert (Hlen : (0 < length m)%nat).
  { apply nth_error_Some. congruence. }
  destruct (Ftt.log_bin m 5000 _); simpl bind; [|discriminate].
  destruct (Ftt.log_bin m targetFreq _); simpl bind; [|discriminate].
  destruct (Ftt.log_bin m 15000 _); simpl bind; [|discriminate].
  destruct (Ftt.log_at m _); simpl bind; [|discriminate].
  intros H; injection H as <-. auto.
Qed.

(** C7.  Bin 0 of the mask is 0 for every parameter combination: in the
    worklet generator for every size with a bin 0, and in the generator of
    ftt.js for every mask that it returns. *)
Theorem mask_dc_is_zero sampleRate centerFreq width flatWidth size
        frequencies targetFreq width' delta mask :
  (0 < size)%nat ->
  Ftt.createPlateauFilterMask frequencies targetFreq width' delta
    = Normal mask ->
  nth_error (Worklet.createPlateauFilterMask sampleRate centerFreq width
               flatWidth size) 0 = Some 0 /\
  nth_error mask 0 = Some 0.
Proof.
  intros Hsize Hret. split.
  - rewrite worklet_mask_bin by assumption. reflexivity.
  - apply ftt_mask_returned in Hret. destruct Hret as [Hm Hlen].
    rewrite Hm in *. rewrite length_store in Hlen.
    apply nth_error_store_same. assumption.
Qed.

Lemma jsround_spec (z : Z) (x : R) :
  IZR z - 1/2 <= x < IZR z + 1/2 -> jsround x = z.
Proof.
  intros [Hlo Hhi]. unfold jsround. symmetry.
  apply Int_part_spec. lra.
Qed.

Lemma log_bin_ok mask a s (z : Z) :
  s <> 0 -> IZR z - 1/2 <= a / s < IZR z + 1/2 ->
  (0 <= z < Z.of_nat (length mask))%Z ->
  Ftt.log_bin mask a (Fin s) = Normal tt.
Proof.
  intros Hs Hz [Hlo Hhi]. unfold Ftt.log_bin.
  rewrite Reqb_false by assumption.
  rewrite (jsround_spec z) by assumption.
  apply Z.leb_le in Hlo. apply Z.ltb_lt in Hhi. rewrite Hlo, Hhi.
  reflexivity.
Qed.

Lemma ftt_mask_example :
  Ftt.createPlateauFilterMask [0; 5000; 10000; 15000] 10000 1 1 =
  Normal (store (map (fun i => Ftt.plateau 10000 1 1
                                 (nth i [0; 5000; 10000; 15000] 0))
                     (seq 0 4)) 0 0).
Proof.
  unfold Ftt.createPlateauFilterMask.
  set (m := store _ 0%nat 0).
  assert (Hlen : length m = 4%nat) by reflexivity.
  assert (Hstep : Ftt.nsub (rd [0; 5000; 10000; 15000] 1)
                           (rd [0; 5000; 10000; 15000] 0) = Fin (5000 - 0))
    by reflexivity.
  rewrite Hstep.
  assert (H0 : Ftt.log_at m 0 = Normal tt) by reflexivity.
  assert (H2 : Ftt.log_at m (length [0; 5000; 10000; 15000] / 2) = Normal tt)
    by reflexivity.
  rewrite H0, H2.
  rewrite (log_bin_ok m 5000 (5000 - 0) 1), (log_bin_ok m 10000 (5000 - 0) 2),
    (log_bin_ok m 15000 (5000 - 0) 3);
    try (rewrite Hlen; simpl; lia); try lra.
  reflexivity.
Qed.

Lemma mask_dc_is_zero_witness :
  (0 < 8)%nat /\
  nth_error (Worklet.createPlateauFilterMask 8000 1000 200 100 8) 0 = Some 0 /\
  nth_error (store (map (fun i => Ftt.plateau 10000 1 1
                                    (nth i [0; 5000; 10000; 15000] 0))
                        (seq 0 4)) 0 0) 0 = Some 0.
Proof.
  split; [lia|].
  apply (mask_dc_is_zero 8000 1000 200 100 8
           [0; 5000; 10000; 15000] 10000 1 1).
  - lia.
  - exact ftt_mask_example.
Defined.

(** ** The parameter setters of PlateauFilter *)

Lemma updateParameters_fields this :
  PlateauFilter.width (PlateauFilter._updateParameters this)
    = PlateauFilter.width this /\
  PlateauFilter.flatWidth (PlateauFilter._updateParameters this)
    = PlateauFilter.flatWidth this.
Proof.
  unfold PlateauFilter._updateParameters.
  destruct (PlateauFilter.processor this); auto.
Qed.

Lemma setWidth_width this value :
  PlateauFilter.width (PlateauFilter.setWidth this value)
    = Rmax value (PlateauFilter.flatWidth this + 1) /\
  PlateauFilter.flatWidth (PlateauFilter.setWidth this value)
    = PlateauFilter.flatWidth this.
Proof.
  unfold PlateauFilter.setWidth, Reqb.
  destruct (Req_dec_T _ _) as [E|E].
  - auto.
  - destruct (updateParameters_fields
                (PlateauFilter.mkPlateauFilter
                   (PlateauFilter.sampleRate this)
                   (PlateauFilter.centerFreq this)
                   (Rmax value (PlateauFilter.flatWidth this + 1))
                   (PlateauFilter.flatWidth this) (PlateauFilter.gain this)
                   (PlateauFilter.processor this))) as [-> ->].
    auto.
Qed.

Lemma setFlatWidth_flatWidth this value :
  PlateauFilter.flatWidth (PlateauFilter.setFlatWidth this value)
    = Rmin value (PlateauFilter.width this - 1) /\
  PlateauFilter.width (PlateauFilter.setFlatWidth this value)
    = PlateauFilter.width this.
Proof.
  unfold PlateauFilter.setFlatWidth, Reqb.
  destruct (Req_dec_T _ _) as [E|E].
  - auto.
  - destruct (updateParameters_fields
                (PlateauFilter.mkPlateauFilter
                   (PlateauFilter.sampleRate this)
                   (PlateauFilter.centerFreq this)
                   (PlateauFilter.width this)
                   (Rmin value (PlateauFilter.width this - 1))
                   (PlateauFilter.gain this)
                   (PlateauFilter.processor this))) as [-> ->].
    auto.
Qed.

Lemma setCenterFreq_widths this value :
  PlateauFilter.width (PlateauFilter.setCenterFreq this value)
    = PlateauFilter.width this /\
  PlateauFilter.flatWidth (PlateauFilter.setCenterFreq this value)
    = PlateauFilter.flatWidth this.
Proof.
  unfold PlateauFilter.setCenterFreq.
  destruct (updateParameters_fields
              (PlateauFilter.mkPlateauFilter
                 (PlateauFilter.sampleRate this) value
                 (PlateauFilter.width this) (PlateauFilter.flatWidth this)
                 (PlateauFilter.gain this) (PlateauFilter.processor this)))
    as [-> ->].
  auto.
Qed.

Lemma setGain_widths this value :
  PlateauFilter.width (PlateauFilter.setGain this value)
    = PlateauFilter.width this /\
  PlateauFilter.flatWidth (PlateauFilter.setGain this value)
    = PlateauFilter.flatWidth this.
Proof.
  unfold PlateauFilter.setGain, Reqb.
  destruct (Req_dec_T _ _) as [E|E]; [auto|].
  destruct (updateParameters_fields
              (PlateauFilter.mkPlateauFilter
                 (PlateauFilter.sampleRate this)
                 (PlateauFilter.centerFreq this)
                 (PlateauFilter.width this) (PlateauFilter.flatWidth this)
                 value (PlateauFilter.processor this)))
    as [-> ->].
  auto.
Qed.

(** C5, as the code has it.  From a state with [width > flatWidth], each
    of the four setters leads to a state with [width > flatWidth], each by
    its own means.  [setWidth] raises the width to [flatWidth + 1] where
    the value is lower, and leaves the flat width; so a value of at most
    [flatWidth] leaves [width = flatWidth + 1].  [setFlatWidth] does not
    touch the width: it lowers the flat width to [width - 1] where the
    value is higher.  [setCenterFreq] and [setGain] change neither width.
    The worklet, when it latches the parameters of a block, raises the
    width to [flatWidth + 1] where it is lower. *)
Theorem setters_keep_width_above_flatWidth this value worklet parameters :
  PlateauFilter.flatWidth this < PlateauFilter.width this ->
  let ok s := PlateauFilter.flatWidth s < PlateauFilter.width s in
  let w := PlateauFilter.width in
  let fw := PlateauFilter.flatWidth in
  ok (PlateauFilter.setCenterFreq this value) /\
  ok (PlateauFilter.setWidth this value) /\
  ok (PlateauFilter.setFlatWidth this value) /\
  ok (PlateauFilter.setGain this value) /\
  (w (PlateauFilter.setWidth this value) = Rmax value (fw this + 1) /\
   fw (PlateauFilter.setWidth this value) = fw this) /\
  (value <= fw this -> w (PlateauFilter.setWidth this value) = fw this + 1) /\
  (fw (PlateauFilter.setFlatWidth this value) = Rmin value (w this - 1) /\
   w (PlateauFilter.setFlatWidth this value) = w this) /\
  (w this - 1 <= value ->
   fw (PlateauFilter.setFlatWidth this value) = w this - 1) /\
  (w (PlateauFilter.setCenterFreq this value) = w this /\
   fw (PlateauFilter.setCenterFreq this value) = fw this) /\
  (w (PlateauFilter.setGain this value) = w this /\
   fw (PlateauFilter.setGain this value) = fw this) /\
  (Worklet.flatWidth (Worklet.latch worklet parameters)
   = Worklet.or_else (Worklet.p_flatWidth parameters)
       (Worklet.flatWidth worklet) /\
   Worklet.width (Worklet.latch worklet parameters)
   = Rmax (Worklet.or_else (Worklet.p_width parameters)
             (Worklet.width worklet))
          (Worklet.flatWidth (Worklet.latch worklet parameters) + 1) /\
   Worklet.flatWidth (Worklet.latch worklet parameters)
   < Worklet.width (Worklet.latch worklet parameters)).
Proof.
  intros Hinv ok w fw. unfold ok, w, fw.
  destruct (setWidth_width this value) as [Hw Hf].
  destruct (setFlatWidth_flatWidth this value) as [Hf' Hw'].
  destruct (setCenterFreq_widths this value) as [Hcw Hcf].
  destruct (setGain_widths this value) as [Hgw Hgf].
  split; [rewrite Hcw, Hcf; exact Hinv|].
  split.
  { rewrite Hw, Hf.
    pose proof (Rmax_r value (PlateauFilter.flatWidth this + 1)). lra. }
  split.
  { rewrite Hw', Hf'.
    pose proof (Rmin_r value (PlateauFilter.width this - 1)). lra. }
  split; [rewrite Hgw, Hgf; exact Hinv|].
  split; [split; assumption|].
  split; [intros Hle; rewrite Hw; apply Rmax_right; lra|].
  split; [split; assumption|].
  split; [intros Hle; rewrite Hf'; apply Rmin_right; lra|].
  split; [split; assumption|].
  split; [split; assumption|].
  split; [reflexivity|]. split; [reflexivity|].
  simpl.
  match goal with |- ?f < Rmax ?a _ => pose proof (Rmax_r a (f + 1)) end.
  lra.
Qed.

Lemma setters_keep_width_above_flatWidth_witness :
  let this := PlateauFilter.mkPlateauFilter 44100 10000 5000 2000 0
                PlateauFilter.ScriptProcessor in
  PlateauFilter.flatWidth this < PlateauFilter.width this /\
  PlateauFilter.flatWidth (PlateauFilter.setWidth this 1500)
  < PlateauFilter.width (PlateauFilter.setWidth this 1500).
Proof.
  intros this. split; [simpl; lra|].
  apply (setters_keep_width_above_flatWidth this 1500 Worklet.constructor
           (Worklet.mkAudioParams None None None None)).
  simpl; lra.
Defined.

(** C5 as stated fails: the width is not clamped to [flatWidth + 1] on
    every update.  On the filter as constructed (width 5000, flat width
    2000), [setFlatWidth(6000)] leaves the width at 5000 and stores the
    flat width 4999; the worklet, given the same flat width, stores 6000
    and raises its width to 6001. *)
Lemma setFlatWidth_lowers_flatWidth_instead :
  let this := PlateauFilter.mkPlateauFilter 44100 10000 5000 2000 0
                PlateauFilter.ScriptProcessor in
  let s := PlateauFilter.setFlatWidth this 6000 in
  let l := Worklet.latch Worklet.constructor
             (Worklet.mkAudioParams None None (Some 6000) None) in
  PlateauFilter.flatWidth this < PlateauFilter.width this /\
  PlateauFilter.width s = 5000 /\
  PlateauFilter.flatWidth s = 4999 /\
  PlateauFilter.width s <> 6000 + 1 /\
  PlateauFilter.flatWidth s <> 6000 /\
  Worklet.flatWidth l = 6000 /\
  Worklet.width l = 6001.
Proof.
  cbv zeta.
  destruct (setFlatWidth_flatWidth
              (PlateauFilter.mkPlateauFilter 44100 10000 5000 2000 0
                 PlateauFilter.ScriptProcessor) 6000) as [Hf Hw].
  cbn [PlateauFilter.width PlateauFilter.flatWidth] in Hf, Hw |- *.
  rewrite Rmin_right in Hf by lra.
  rewrite Hf, Hw.
  repeat split; try lra.
  cbn. rewrite Rmax_right by lra. lra.
Qed.

(** ** The overlap-add loop *)

Section OverlapAdd.

Variables (size : nat) (processed : list R).
Variables (output : list num) (overlapped : list R).

Let B := length output.

Let body (i : nat) (s : list num * list R) : list num * list R :=
  let '(out, ov) := s in
  (store out i (nadd (rd processed i) (rd ov i)),
   if (i + B <? size)%nat
   then store_num ov i (rd processed (i + B))
   else store ov i 0).

(** Cell [j] of the overlap buffer once the loop has passed it. *)
Let refreshed (j : nat) : option R :=
  if (j + B <? size)%nat then
    match rd processed (j + B), nth_error overlapped j with
    | Fin r, Some _ => Some r
    | _, o => o
    end
  else option_map (fun _ => 0) (nth_error overlapped j).

Lemma overlap_loop n :
  let s := for_loop n body (output, overlapped) in
  (forall j, nth_error (fst s) j =
             if (j <? n)%nat
             then option_map
                    (fun _ => nadd (rd processed j) (rd overlapped j))
                    (nth_error output j)
             else nth_error output j) /\
  (forall j, nth_error (snd s) j =
             if (j <? n)%nat then refreshed j else nth_error overlapped j).
Proof.
  induction n as [|n [IHo IHv]].
  - split; reflexivity.
  - rewrite for_loop_S.
    destruct (for_loop n body (output, overlapped)) as [o v].
    simpl fst in *; simpl snd in *. intros _.
    assert (Hrd : rd v n = rd overlapped n).
    { unfold rd. rewrite IHv, Nat.ltb_irrefl. reflexivity. }
    split; intros j; simpl fst; simpl snd.
    + rewrite nth_error_store, Hrd, IHo.
      destruct (Nat.eqb_spec n j) as [->|Hne].
      * rewrite Nat.ltb_irrefl.
        assert ((j <? S j)%nat = true) as -> by (apply Nat.ltb_lt; lia).
        destruct (nth_error output j); reflexivity.
      * destruct (Nat.ltb_spec j n), (Nat.ltb_spec j (S n)); auto; lia.
    + destruct (Nat.eqb_spec n j) as [->|Hne].
      * assert ((j <? S j)%nat = true) as -> by (apply Nat.ltb_lt; lia).
        unfold refreshed.
        destruct (j + B <? size)%nat.
        -- destruct (rd processed (j + B)) as [r|]; simpl.
           ++ rewrite nth_error_store, Nat.eqb_refl, IHv, Nat.ltb_irrefl.
              reflexivity.
           ++ rewrite IHv, Nat.ltb_irrefl.
              destruct (nth_error overlapped j); reflexivity.
        -- rewrite nth_error_store, Nat.eqb_refl, IHv, Nat.ltb_irrefl.
           destruct (nth_error overlapped j); reflexivity.
      * assert (Hother :
                  nth_error (if (n + B <? size)%nat
                             then store_num v n (rd processed (n + B))
                             else store v n 0) j = nth_error v j).
        { destruct (n + B <? size)%nat.
          - destruct (rd processed (n + B)); simpl;
              auto using nth_error_store_other.
          - apply nth_error_store_other; assumption. }
        rewrite Hother, IHv.
        destruct (Nat.ltb_spec j n), (Nat.ltb_spec j (S n)); auto; lia.
Qed.

Lemma overlap_add_cells :
  let s := Worklet.overlap_add size processed output overlapped in
  (forall j, nth_error (fst s) j =
             option_map (fun _ => nadd (rd processed j) (rd overlapped j))
                        (nth_error output j)) /\
  (forall j, nth_error (snd s) j =
             if (j <? B)%nat then refreshed j else nth_error overlapped j).
Proof.
  pose proof (overlap_loop B) as [Ho Hv].
  assert (Hbody : Worklet.overlap_add size processed output overlapped
                  = for_loop B body (output, overlapped)).
  { unfold Worklet.overlap_add, B. f_equal. }
  simpl. rewrite Hbody. split; intros j.
  - rewrite Ho. destruct (Nat.ltb_spec j B) as [H|H]; auto.
    assert (nth_error output j = None) as -> by (apply nth_error_None; exact H).
    reflexivity.
  - apply Hv.
Qed.

End OverlapAdd.

(** ** The frame pipeline of the worklet *)

Lemma well_formed_latch this parameters :
  well_formed this -> well_formed (Worklet.latch this parameters).
Proof. intros H. exact H. Qed.

Lemma well_formed_constructor : well_formed Worklet.constructor.
Proof.
  unfold well_formed, Worklet.constructor.
  cbn [Worklet.fftSize Worklet.overlappedOutput Worklet.processedOutput
       Worklet.hanningWindow].
  rewrite !repeat_length. repeat split. exists 11%nat. reflexivity.
Qed.

Lemma length_windowed_block N input : length (windowed_block N input) = N.
Proof. unfold windowed_block. rewrite length_map, length_seq. reflexivity. Qed.

Section Pipeline.

Variable sampleRate : R.
Variable this : Worklet.PlateauProcessor.
Hypothesis Hwf : well_formed this.

Let N := Worklet.fftSize this.

Lemma rd_hanningWindow i :
  (i < N)%nat -> rd (Worklet.hanningWindow this) i = Fin (Worklet.hanning N i).
Proof.
  intros Hi. destruct Hwf as (_ & _ & _ & ->). fold N.
  apply rd_Fin. apply nth_error_map_seq. assumption.
Qed.

Lemma windowed_input_block input :
  Worklet.windowed_input this input = windowed_block N input.
Proof.
  unfold Worklet.windowed_input, windowed_block. fold N.
  apply map_seq_ext. intros i [_ Hi]. simpl in Hi. f_equal.
  apply nth_error_nth.
  rewrite for_loop_store_num.
  rewrite nth_error_repeat by assumption.
  unfold window_sample, rd at 1.
  destruct (Nat.ltb_spec i (length input)) as [Hlt|Hge].
  - destruct (nth_error input i) as [x|] eqn:E.
    + rewrite rd_hanningWindow by assumption. reflexivity.
    + apply nth_error_None in E. lia.
  - apply nth_error_None in Hge. rewrite Hge. reflexivity.
Qed.

Lemma apply_mask_block filterMask fftOutput :
  length fftOutput = N ->
  Worklet.apply_mask this filterMask fftOutput =
  map (fun k => Cx.scale (nth k fftOutput Cx.zero)
                         (nth k filterMask 0 * Worklet.gain this))
      (seq 0 N).
Proof.
  intros Hlen. unfold Worklet.apply_mask. fold N.
  apply nth_error_ext. intros j.
  rewrite (for_loop_update Cx.zero
             (fun i a => Cx.scale a (nth i filterMask 0 * Worklet.gain this))).
  destruct (Nat.ltb_spec j N) as [Hj|Hj].
  - rewrite nth_error_map_seq by assumption.
    rewrite (nth_error_nth' fftOutput Cx.zero) by lia. reflexivity.
  - transitivity (@None Complex).
    + apply nth_error_None. lia.
    + symmetry. apply nth_error_None.
      rewrite length_map, length_seq. assumption.
Qed.

Lemma synthesis_block ifftOutput :
  Worklet.synthesis this ifftOutput =
  map (fun i => real (nth i ifftOutput Cx.zero) * Worklet.hanning N i)
      (seq 0 N).
Proof.
  unfold Worklet.synthesis. fold N.
  assert (Hp : length (Worklet.processedOutput this) = N)
    by (destruct Hwf as (_ & _ & H & _); exact H).
  apply nth_error_ext. intros j.
  rewrite for_loop_store_num.
  destruct (Nat.ltb_spec j N) as [Hj|Hj].
  - rewrite nth_error_map_seq by assumption.
    rewrite rd_hanningWindow by assumption. simpl.
    destruct (nth_error (Worklet.processedOutput this) j) eqn:E; auto.
    apply nth_error_None in E. lia.
  - transitivity (@None R).
    + apply nth_error_None. lia.
    + symmetry. apply nth_error_None.
      rewrite length_map, length_seq. assumption.
Qed.

End Pipeline.

(** What [process] does to a block when the gain is not 0: both transforms
    return, the processed block is the one given by the sums, and the
    overlap-add loop runs on it. *)
Lemma process_block sampleRate this input ins inputs output channels outputs
      parameters :
  well_formed this ->
  Worklet.or_else (Worklet.p_gain parameters) (Worklet.gain this) <> 0 ->
  let latched := Worklet.latch this parameters in
  let P := processed_block sampleRate latched input in
  let s := Worklet.overlap_add (Worklet.fftSize this) P output
             (Worklet.overlappedOutput this) in
  Worklet.process sampleRate this ((input :: ins) :: inputs)
    ((output :: channels) :: outputs) parameters =
  Worklet.mkProcessResult (Worklet.set_buffers latched P (snd s))
    ((fst s :: channels) :: outputs) (Normal true)
    [Worklet.CallFFT; Worklet.CallIFFT].
Proof.
  intros Hwf Hg latched P s.
  assert (Hwf' : well_formed latched) by (apply well_formed_latch; exact Hwf).
  destruct Hwf as ((m & Hm) & _).
  unfold Worklet.process.
  rewrite latch_gain, Reqb_false by assumption. fold latched.
  assert (HN : Worklet.fftSize latched = Worklet.fftSize this)
    by reflexivity.
  rewrite (windowed_input_block latched Hwf'), HN.
  rewrite (fft_is_dft m)
    by (rewrite length_windowed_block; exact Hm).
  rewrite (apply_mask_block latched)
    by (rewrite length_dft_list, HN; apply length_windowed_block).
  rewrite ?HN.
  set (V := map _ (seq 0 (Worklet.fftSize this))).
  assert (HV : V = masked_spectrum sampleRate latched input).
  { unfold V, masked_spectrum.
    rewrite ?HN.
    apply map_seq_ext. intros k [_ Hk]. simpl in Hk.
    unfold dft_list. rewrite length_windowed_block.
    rewrite nth_map_seq by assumption. reflexivity. }
  assert (HlenV : length V = Worklet.fftSize this)
    by (unfold V; rewrite length_map, length_seq; reflexivity).
  rewrite (ifft_is_idft m) by (rewrite HlenV; exact Hm).
  rewrite (synthesis_block latched Hwf'), ?HN.
  set (P' := map _ (seq 0 (Worklet.fftSize this))).
  assert (HP : P' = P).
  { unfold P', P, processed_block.
    rewrite ?HN.
    apply map_seq_ext. intros i [_ Hi]. simpl in Hi.
    unfold idft_list. rewrite HlenV.
    rewrite nth_map_seq by assumption. rewrite HV. reflexivity. }
  rewrite HP. change (Worklet.overlappedOutput latched)
    with (Worklet.overlappedOutput this).
  fold s. destruct s as [out ov]. reflexivity.
Qed.

Lemma nth_error_same_length {A B : Type} (a : list A) (b : list B) :
  (forall j, nth_error a j = None <-> nth_error b j = None) ->
  length a = length b.
Proof.
  intros H. apply Nat.le_antisymm.
  - apply nth_error_None, H, nth_error_None. auto.
  - apply nth_error_None, H, nth_error_None. auto.
Qed.

Lemma length_overlap_add size processed output overlapped :
  length (fst (Worklet.overlap_add size processed output overlapped))
    = length output /\
  length (snd (Worklet.overlap_add size processed output overlapped))
    = length overlapped.
Proof.
  pose proof (overlap_add_cells size processed output overlapped) as [Ho Hv].
  simpl in Ho, Hv. split; apply nth_error_same_length; intros j.
  - rewrite Ho. destruct (nth_error output j); simpl; split; congruence.
  - rewrite Hv. destruct (j <? length output)%nat; [|tauto].
    destruct (j + length output <? size)%nat.
    + destruct (rd processed (j + length output));
        destruct (nth_error overlapped j); split; congruence.
    + destruct (nth_error overlapped j); simpl; split; congruence.
Qed.

Lemma length_processed_block sampleRate this input :
  length (processed_block sampleRate this input) = Worklet.fftSize this.
Proof.
  unfold processed_block. rewrite length_map, length_seq. reflexivity.
Qed.

Lemma process_keeps_well_formed sampleRate this inputs outputs parameters :
  well_formed this ->
  well_formed
    (Worklet.r_this (Worklet.process sampleRate this inputs outputs parameters)).
Proof.
  intros Hwf.
  destruct inputs as [|[|input ins] inputs]; try exact Hwf.
  destruct outputs as [|[|output channels] outputs]; try exact Hwf.
  destruct (Req_dec_T
              (Worklet.or_else (Worklet.p_gain parameters) (Worklet.gain this)) 0)
    as [Hg|Hg].
  - unfold Worklet.process. rewrite latch_gain, Reqb_true by assumption.
    exact Hwf.
  - rewrite process_block by assumption.
    destruct Hwf as (Hm & Hov & Hp & Hh).
    unfold well_formed.
    cbn [Worklet.r_this Worklet.set_buffers Worklet.fftSize
         Worklet.overlappedOutput Worklet.processedOutput
         Worklet.hanningWindow].
    rewrite (proj2 (length_overlap_add _ _ _ _)), length_processed_block.
    change (Worklet.fftSize (Worklet.latch this parameters))
      with (Worklet.fftSize this).
    change (Worklet.hanningWindow (Worklet.latch this parameters))
      with (Worklet.hanningWindow this).
    auto.
Qed.

(** What the overlap-add loop of a block leaves behind. *)
Lemma process_overlap_cells sampleRate this input ins inputs output channels
        outputs parameters :
  well_formed this ->
  Worklet.or_else (Worklet.p_gain parameters) (Worklet.gain this) <> 0 ->
  (length output <= Worklet.fftSize this)%nat ->
  let r := Worklet.process sampleRate this ((input :: ins) :: inputs)
             ((output :: channels) :: outputs) parameters in
  let B := length output in
  let N := Worklet.fftSize this in
  let processed := Worklet.processedOutput (Worklet.r_this r) in
  let old := Worklet.overlappedOutput this in
  let new := Worklet.overlappedOutput (Worklet.r_this r) in
  Worklet.r_completion r = Normal true /\
  length processed = N /\
  (exists out,
      Worklet.r_outputs r = (out :: channels) :: outputs /\
      length out = B /\
      forall i, (i < B)%nat ->
                nth_error out i = Some (Fin (nth i processed 0 + nth i old 0))) /\
  (forall i, (i < B)%nat -> (i + B < N)%nat ->
             nth_error new i = Some (nth (i + B) processed 0)) /\
  (forall i, (i < B)%nat -> (N <= i + B)%nat -> nth_error new i = Some 0) /\
  (forall i, (B <= i)%nat -> nth_error new i = nth_error old i).
Proof.
  intros Hwf Hg HB r B N processed old new.
  unfold processed, new, r. rewrite process_block by assumption.
  cbn [Worklet.r_this Worklet.r_completion Worklet.r_outputs
       Worklet.set_buffers Worklet.processedOutput Worklet.overlappedOutput].
  set (P := processed_block sampleRate (Worklet.latch this parameters) input).
  assert (HP : length P = N) by apply length_processed_block.
  assert (Hold : length old = N) by (destruct Hwf as (_ & H & _); exact H).
  pose proof (overlap_add_cells N P output old) as [Ho Hv].
  pose proof (length_overlap_add N P output old) as [Hlo Hlv].
  simpl in Ho, Hv. fold B in Hv.
  split; [reflexivity|]. split; [exact HP|]. split; [|split; [|split]].
  - eexists. split; [reflexivity|]. split; [exact Hlo|].
    intros i Hi. rewrite Ho.
    rewrite (nth_error_nth' output NaN) by exact Hi. simpl.
    rewrite !rd_inside by (fold B in HB; lia). reflexivity.
  - intros i Hi HiB. rewrite Hv.
    apply Nat.ltb_lt in Hi. rewrite Hi.
    apply Nat.ltb_lt in Hi.
    assert ((i + B <? N)%nat = true) as -> by (apply Nat.ltb_lt; exact HiB).
    rewrite rd_inside by lia.
    rewrite (nth_error_nth' old 0) by (fold B in HB; lia). reflexivity.
  - intros i Hi HiB. rewrite Hv.
    apply Nat.ltb_lt in Hi. rewrite Hi.
    apply Nat.ltb_lt in Hi.
    assert ((i + B <? N)%nat = false) as -> by (apply Nat.ltb_ge; exact HiB).
    rewrite (nth_error_nth' old 0) by (fold B in HB; lia). reflexivity.
  - intros i Hi. rewrite Hv.
    assert ((i <? B)%nat = false) as -> by (apply Nat.ltb_ge; exact Hi).
    reflexivity.
Qed.

(** ** A plateau that passes every bin but bin 0 *)

Lemma csum_drop_first n (a b : nat -> Complex) :
  csum (S n) (fun k => Cx.multiply (if (k =? 0)%nat then Cx.zero else a k) (b k))
  = Cx.subtract (csum (S n) (fun k => Cx.multiply (a k) (b k)))
                (Cx.multiply (a 0%nat) (b 0%nat)).
Proof.
  induction n as [|n IH].
  - simpl. cx_eq.
  - cbn [csum] in *. rewrite IH. simpl (S n =? 0)%nat. cx_eq.
Qed.

Lemma dft_drop_dc c (U : list Complex) j :
  (0 < length U)%nat ->
  dft c (map (fun k => if (k =? 0)%nat then Cx.zero else nth k U Cx.zero)
             (seq 0 (length U))) j
  = Cx.subtract (dft c U j) (nth 0 U Cx.zero).
Proof.
  intros Hpos. unfold dft. rewrite length_map, length_seq.
  destruct (length U) as [|n] eqn:E; [lia|].
  rewrite (csum_ext _ _
    (fun k => Cx.multiply (if (k =? 0)%nat then Cx.zero else nth k U Cx.zero)
                          (cis (c * INR j * INR k / INR (S n))))).
  - rewrite (csum_drop_first n (fun k => nth k U Cx.zero)). f_equal.
    replace (c * INR j * INR 0 / INR (S n)) with 0.
    + rewrite cis_0. apply multiply_1_r.
    + simpl (INR 0). field. apply not_0_INR. discriminate.
  - intros k Hk. f_equal.
    exact (nth_map_seq
             (fun k => if (k =? 0)%nat then Cx.zero else nth k U Cx.zero)
             (S n) k Cx.zero Hk).
Qed.

Section AllPass.

Variable sampleRate : R.
Variable this : Worklet.PlateauProcessor.
Variable input : list R.

Let N := Worklet.fftSize this.

Hypothesis Hgain : Worklet.gain this = 1.
Hypothesis Hmask :
  forall k, (0 < k < N)%nat ->
    Worklet.plateau (Worklet.centerFreq this) (Worklet.width this)
      (Worklet.flatWidth this) (Worklet.freq_axis sampleRate N k) = 1.

Let u := windowed_block N input.
Let U := dft_list (-2 * PI) u.

Lemma allpass_spectrum :
  masked_spectrum sampleRate this input =
  map (fun k => if (k =? 0)%nat then Cx.zero else nth k U Cx.zero)
      (seq 0 (length U)).
Proof.
  unfold masked_spectrum. fold N. fold u.
  assert (HU : length U = N)
    by (unfold U, u; rewrite length_dft_list; apply length_windowed_block).
  rewrite HU. apply map_seq_ext. intros k [_ Hk]. simpl in Hk.
  rewrite (nth_error_nth _ _ 0 (worklet_mask_bin _ _ _ _ N k Hk)).
  rewrite Hgain.
  destruct k as [|k]; simpl (_ =? _)%nat; cbv iota.
  - cx_eq.
  - rewrite Hmask by lia.
    unfold U, dft_list.
    replace (length u) with N by (symmetry; apply length_windowed_block).
    rewrite nth_map_seq by assumption.
    destruct (dft (-2 * PI) u (S k)). cx_eq.
Qed.

(** The pipeline takes the mean of the windowed block away, and applies
    the window a second time. *)
Lemma allpass_processed j :
  (j < N)%nat ->
  nth j (processed_block sampleRate this input) 0 =
  (window_sample N input j - real (dft (-2 * PI) u 0) / INR N)
  * Worklet.hanning N j.
Proof.
  intros Hj.
  assert (Hu : length u = N) by apply length_windowed_block.
  assert (HU : length U = N) by (unfold U; rewrite length_dft_list; exact Hu).
  assert (HN : INR N <> 0) by (apply not_0_INR; lia).
  unfold processed_block. fold N.
  rewrite (nth_map_seq
             (fun i => real (Cx.scale
                               (dft (2 * PI)
                                    (masked_spectrum sampleRate this input) i)
                               (/ INR N)) * Worklet.hanning N i))
    by assumption.
  rewrite allpass_spectrum, dft_drop_dc by lia.
  replace (2 * PI) with (- (-2 * PI)) by ring.
  unfold U at 1.
  rewrite (dft_inverse _ cis_period_neg) by (auto; lia).
  rewrite Hu. unfold U, dft_list. rewrite Hu.
  rewrite (nth_map_seq (dft (-2 * PI) u)) by lia.
  unfold u at 1, windowed_block.
  rewrite (nth_map_seq (fun i => mkComplex (window_sample N input i) 0))
    by assumption.
  simpl. field. assumption.
Qed.

End AllPass.

(** ** The concrete stream *)

Lemma INR_2048 : INR 2048 = 2048.
Proof. rewrite INR_IZR_INZ. reflexivity. Qed.

Lemma INR_below_2048 k : (k < 2048)%nat -> 0 <= INR k < 2048.
Proof.
  intros H. split; [apply pos_INR|].
  rewrite <- INR_2048. apply lt_INR. assumption.
Qed.

Lemma wide_mask k :
  (0 < k < 2048)%nat ->
  Worklet.plateau 2000 (Rmax 10000 (9999 + 1)) 9999
    (Worklet.freq_axis 8000 2048 k) = 1.
Proof.
  intros [Hlo Hhi].
  pose proof (INR_below_2048 k Hhi) as Hk.
  assert (Hk0 : 1 <= INR k).
  { change 1 with (INR 1). apply le_INR. lia. }
  unfold Worklet.plateau.
  rewrite Rltb_true; [reflexivity|].
  unfold Worklet.freq_axis, Rleb. rewrite INR_2048.
  destruct (Rle_dec (INR k) (2048 / 2)) as [Hle|Hgt].
  - rewrite (Rabs_pos_eq (INR k * 8000 / 2048)) by lra.
    apply Rabs_def1; lra.
  - rewrite (Rabs_left ((INR k - 2048) * 8000 / 2048)) by lra.
    apply Rabs_def1; lra.
Qed.

Lemma wide_latched g :
  let this := Worklet.latch Worklet.constructor (wide_params g) in
  well_formed this /\ Worklet.fftSize this = 2048%nat /\
  Worklet.gain this = g /\ Worklet.centerFreq this = 2000 /\
  Worklet.width this = Rmax 10000 (9999 + 1) /\
  Worklet.flatWidth this = 9999.
Proof.
  intros this. split; [|repeat split].
  apply well_formed_latch, well_formed_constructor.
Qed.

Lemma impulse_window N n :
  window_sample N impulse_block n =
  if (n =? 1)%nat then Worklet.hanning N 1 else 0.
Proof.
  unfold window_sample, impulse_block.
  destruct n as [|[|n]]; cbn [nth_error]; simpl (_ =? _)%nat; cbv iota.
  - ring.
  - ring.
  - destruct (Nat.lt_ge_cases n 126) as [H|H].
    + rewrite nth_error_repeat by assumption. ring.
    + assert (nth_error (repeat 0 126) n = None) as ->
          by (apply nth_error_None; rewrite repeat_length; exact H).
      reflexivity.
Qed.

Lemma impulse_dc N :
  (1 < N)%nat ->
  dft (-2 * PI) (windowed_block N impulse_block) 0
  = mkComplex (Worklet.hanning N 1) 0.
Proof.
  intros HN. unfold dft. rewrite length_windowed_block.
  assert (Hnth : forall n, (n < N)%nat ->
            nth n (windowed_block N impulse_block) Cx.zero
            = mkComplex (if (n =? 1)%nat then Worklet.hanning N 1 else 0) 0).
  { intros n Hn. unfold windowed_block.
    rewrite (nth_map_seq
               (fun i => mkComplex (window_sample N impulse_block i) 0))
      by assumption.
    rewrite impulse_window. reflexivity. }
  rewrite (csum_single N 1).
  - rewrite Hnth by assumption. simpl (1 =? 1)%nat. cbv iota.
    replace (-2 * PI * INR 0 * INR 1 / INR N) with 0.
    + rewrite cis_0. cx_eq.
    + simpl (INR 0). unfold Rdiv. ring.
  - assumption.
  - intros n Hn Hne. rewrite Hnth by assumption.
    apply Nat.eqb_neq in Hne. rewrite Hne. apply multiply_0_l.
Qed.

Lemma hanning_positive i :
  (0 < i < 2047)%nat -> 0 < Worklet.hanning 2048 i.
Proof.
  intros [Hlo Hhi]. unfold Worklet.hanning. rewrite INR_2048.
  assert (Hi : 1 <= INR i <= 2046).
  { split.
    - change 1 with (INR 1). apply le_INR. lia.
    - replace 2046 with (INR 2046)
        by (rewrite INR_IZR_INZ; reflexivity).
      apply le_INR. lia. }
  set (t := INR i / (2048 - 1)).
  assert (Ht : 0 < t < 1) by (unfold t; split; lra).
  replace (2 * PI * INR i / (2048 - 1)) with (2 * PI * t)
    by (unfold t; field; lra).
  pose proof PI_RGT_0 as Hpi.
  pose proof (COS_bound (2 * PI * t)) as [_ Hc].
  assert (Hne : cos (2 * PI * t) <> 1).
  { intros H. apply cos_1_inside in H; nra. }
  lra.
Qed.

(** After the impulse block, the processed samples past the block are the
    mean of the windowed block, negated and windowed. *)
Lemma impulse_tail j :
  (128 <= j < 2048)%nat ->
  nth j (processed_block 8000
           (Worklet.latch Worklet.constructor (wide_params 1))
           impulse_block) 0
  = - (Worklet.hanning 2048 1 / 2048) * Worklet.hanning 2048 j.
Proof.
  intros [Hlo Hhi].
  destruct (wide_latched 1) as (Hwf & HN & Hg & Hcf & Hw & Hfw).
  rewrite (allpass_processed 8000 _ impulse_block Hg).
  - rewrite HN, impulse_dc by lia. rewrite impulse_window.
    assert ((j =? 1)%nat = false) as -> by (apply Nat.eqb_neq; lia).
    rewrite INR_2048. simpl real. field.
  - rewrite HN, Hcf, Hw, Hfw. apply wide_mask.
  - rewrite HN. exact Hhi.
Qed.

Lemma impulse_tail_nonzero j :
  (128 <= j < 2047)%nat ->
  nth j (processed_block 8000
           (Worklet.latch Worklet.constructor (wide_params 1))
           impulse_block) 0 <> 0.
Proof.
  intros Hj. rewrite impulse_tail by lia.
  pose proof (hanning_positive 1 ltac:(lia)) as H1.
  pose proof (hanning_positive j ltac:(lia)) as Hj'.
  assert (0 < Worklet.hanning 2048 1 / 2048 * Worklet.hanning 2048 j).
  { apply Rmult_lt_0_compat; [|assumption].
    apply Rdiv_lt_0_compat; lra. }
  lra.
Qed.

Lemma process_fftSize sampleRate this inputs outputs parameters :
  Worklet.fftSize
    (Worklet.r_this (Worklet.process sampleRate this inputs outputs parameters))
  = Worklet.fftSize this.
Proof.
  unfold Worklet.process.
  destruct inputs as [|[|input ins] inputs]; try reflexivity.
  destruct outputs as [|[|output channels] outputs]; try reflexivity.
  destruct (Reqb _ 0); try reflexivity.
  destruct (fft _); try reflexivity.
  destruct (ifft _); try reflexivity.
  destruct (Worklet.overlap_add _ _ _ _). reflexivity.
Qed.

Lemma process_processedOutput sampleRate this input ins inputs output channels
      outputs parameters :
  well_formed this ->
  Worklet.or_else (Worklet.p_gain parameters) (Worklet.gain this) <> 0 ->
  Worklet.processedOutput
    (Worklet.r_this
       (Worklet.process sampleRate this ((input :: ins) :: inputs)
          ((output :: channels) :: outputs) parameters))
  = processed_block sampleRate (Worklet.latch this parameters) input.
Proof.
  intros Hwf Hg. rewrite process_block by assumption. reflexivity.
Qed.

Lemma bypass_keeps_overlap sampleRate this inputs outputs parameters :
  Worklet.or_else (Worklet.p_gain parameters) (Worklet.gain this) = 0 ->
  Worklet.overlappedOutput
    (Worklet.r_this (Worklet.process sampleRate this inputs outputs parameters))
  = Worklet.overlappedOutput this.
Proof.
  intros Hg. unfold Worklet.process.
  destruct inputs as [|[|input ins] inputs]; try reflexivity.
  destruct outputs as [|[|output channels] outputs]; try reflexivity.
  rewrite latch_gain, Hg, Reqb_true by reflexivity. reflexivity.
Qed.

Lemma length_silent_output : length silent_output = 128%nat.
Proof. apply repeat_length. Qed.

(** C1, as the code has it.  For a block of [B <= N] samples that goes
    through the pipeline, [output[i] = processed[i] + overlapBuffer[i]] for
    every [i < B]; the loop refreshes the first [B] cells of the overlap
    buffer only, with [processed[i + B]] when [i + B < N] and with 0
    otherwise, and leaves the cells from [B] on as they were. *)
Theorem overlap_add_block sampleRate this input ins inputs output channels
        outputs parameters :
  well_formed this ->
  Worklet.or_else (Worklet.p_gain parameters) (Worklet.gain this) <> 0 ->
  (length output <= Worklet.fftSize this)%nat ->
  let r := Worklet.process sampleRate this ((input :: ins) :: inputs)
             ((output :: channels) :: outputs) parameters in
  let B := length output in
  let N := Worklet.fftSize this in
  let processed := Worklet.processedOutput (Worklet.r_this r) in
  let old := Worklet.overlappedOutput this in
  let new := Worklet.overlappedOutput (Worklet.r_this r) in
  let out := nth 0 (nth 0 (Worklet.r_outputs r) []) [] in
  Worklet.r_completion r = Normal true /\
  length out = B /\
  (forall i, (i < B)%nat ->
     nth_error out i = Some (Fin (nth i processed 0 + nth i old 0))) /\
  length new = N /\
  (forall i, (i < N)%nat ->
     nth i new 0 =
     if (i <? B)%nat
     then if (i + B <? N)%nat then nth (i + B) processed 0 else 0
     else nth i old 0).
Proof.
  intros Hwf Hg HB r B N processed old new out.
  pose proof (process_overlap_cells sampleRate this input ins inputs output
                channels outputs parameters Hwf Hg HB) as H.
  cbv zeta in H. fold r B N processed old new in H.
  destruct H as (Hret & HP & (o & Hout & Hlen & Hadd) & Hlo & Hhi & Hold).
  assert (Ho : out = o) by (unfold out; rewrite Hout; reflexivity).
  assert (HlenOld : length old = N)
    by (destruct Hwf as (_ & H & _); exact H).
  assert (HlenNew : length new = N).
  { rewrite <- HlenOld. apply nth_error_same_length. intros j.
    destruct (Nat.lt_ge_cases j B) as [Hj|Hj].
    - destruct (Nat.lt_ge_cases (j + B) N) as [Hs|Hs].
      + rewrite Hlo by assumption. split; [discriminate|].
        intros Hn. apply nth_error_None in Hn. lia.
      + rewrite Hhi by assumption. split; [discriminate|].
        intros Hn. apply nth_error_None in Hn. lia.
    - rewrite Hold by assumption. tauto. }
  rewrite Ho. split; [exact Hret|]. split; [exact Hlen|].
  split; [exact Hadd|]. split; [exact HlenNew|].
  intros i Hi.
  destruct (Nat.ltb_spec i B) as [Hb|Hb].
  - destruct (Nat.ltb_spec (i + B) N) as [Hs|Hs].
    + apply nth_error_nth. apply Hlo; assumption.
    + apply nth_error_nth. apply Hhi; assumption.
  - apply nth_of_nth_error. apply Hold. exact Hb.
Qed.

Lemma overlap_add_block_witness :
  well_formed Worklet.constructor /\
  Worklet.or_else (Worklet.p_gain (wide_params 1))
    (Worklet.gain Worklet.constructor) <> 0 /\
  (length silent_output <= Worklet.fftSize Worklet.constructor)%nat /\
  Worklet.r_completion
    (Worklet.process 8000 Worklet.constructor [[impulse_block]]
       [[silent_output]] (wide_params 1)) = Normal true.
Proof.
  assert (Hg : Worklet.or_else (Worklet.p_gain (wide_params 1))
                 (Worklet.gain Worklet.constructor) <> 0)
    by (simpl; lra).
  assert (Hle : (length silent_output
                 <= Worklet.fftSize Worklet.constructor)%nat)
    by (rewrite length_silent_output; simpl; lia).
  split; [exact well_formed_constructor|]. split; [exact Hg|].
  split; [exact Hle|].
  apply (overlap_add_block 8000 Worklet.constructor impulse_block [] []
           silent_output [] [] (wide_params 1)
           well_formed_constructor Hg Hle).
Defined.

(** The claim of C1 on the refreshed overlap buffer fails past the block
    size: after the impulse block, cell 128 of the overlap buffer (and
    128 < N - B = 1920) still holds its old 0, not [processed[256]]. *)
Lemma overlap_tail_not_refreshed :
  let r := Worklet.process 8000 Worklet.constructor [[impulse_block]]
             [[silent_output]] (wide_params 1) in
  let B := length silent_output in
  let N := Worklet.fftSize Worklet.constructor in
  (B <= N)%nat /\ (128 < N - B)%nat /\
  nth_error (Worklet.overlappedOutput (Worklet.r_this r)) 128 = Some 0 /\
  nth_error (Worklet.overlappedOutput (Worklet.r_this r)) 128
  <> Some (nth (128 + B) (Worklet.processedOutput (Worklet.r_this r)) 0).
Proof.
  intros r B N.
  assert (HB : B = 128%nat) by apply length_silent_output.
  assert (HN : N = 2048%nat) by reflexivity.
  assert (Hg : Worklet.or_else (Worklet.p_gain (wide_params 1))
                 (Worklet.gain Worklet.constructor) <> 0)
    by (simpl; lra).
  assert (Hle : (length silent_output <= Worklet.fftSize Worklet.constructor)%nat)
    by (fold B N; lia).
  pose proof (process_overlap_cells 8000 Worklet.constructor impulse_block [] []
                silent_output [] [] (wide_params 1)
                well_formed_constructor Hg Hle) as H.
  cbv zeta in H. fold r B N in H.
  destruct H as (_ & _ & _ & _ & _ & Hold).
  assert (H0 : nth_error (Worklet.overlappedOutput (Worklet.r_this r)) 128
               = Some 0).
  { rewrite Hold by lia.
    change (Worklet.overlappedOutput Worklet.constructor)
      with (repeat 0 2048).
    apply nth_error_repeat. lia. }
  split; [lia|]. split; [lia|]. split; [exact H0|].
  rewrite H0. intros Heq. injection Heq as Heq.
  unfold r in Heq.
  rewrite (process_processedOutput 8000 Worklet.constructor)
    in Heq by (auto using well_formed_constructor).
  rewrite HB in Heq.
  apply (impulse_tail_nonzero (128 + 128)); [lia|]. symmetry. exact Heq.
Qed.

(** C9.  With a gain of exactly 0 [process] leaves the overlap buffer as it
    was.  So on the stream "impulse block at gain 1, any block at gain 0,
    any block at gain 1", the second block is silent and the third block
    gets the tail of the first one added, a tail that is not 0. *)
Theorem bypass_keeps_stale_overlap sampleRate this inputs outputs parameters
        (block2 block3 : list R) :
  Worklet.or_else (Worklet.p_gain parameters) (Worklet.gain this) = 0 ->
  Worklet.overlappedOutput
    (Worklet.r_this (Worklet.process sampleRate this inputs outputs parameters))
  = Worklet.overlappedOutput this /\
  let r1 := Worklet.process 8000 Worklet.constructor [[impulse_block]]
              [[silent_output]] (wide_params 1) in
  let r2 := Worklet.process 8000 (Worklet.r_this r1) [[block2]]
              [[silent_output]] (wide_params 0) in
  let r3 := Worklet.process 8000 (Worklet.r_this r2) [[block3]]
              [[silent_output]] (wide_params 1) in
  let stale := Worklet.processedOutput (Worklet.r_this r1) in
  let fresh := Worklet.processedOutput (Worklet.r_this r3) in
  Worklet.r_outputs r2 = [[silent_output]] /\
  Worklet.r_transforms r2 = [] /\
  (exists out,
      Worklet.r_outputs r3 = [[out]] /\
      forall i, (i < 128)%nat ->
        nth_error out i = Some (Fin (nth i fresh 0 + nth (i + 128) stale 0))) /\
  (forall i, (i < 128)%nat -> nth (i + 128) stale 0 <> 0).
Proof.
  intros Hg. split; [apply bypass_keeps_overlap; exact Hg|].
  intros r1 r2 r3 stale fresh.
  assert (Hg1 : forall st, Worklet.or_else (Worklet.p_gain (wide_params 1))
                             (Worklet.gain st) <> 0)
    by (intros st; simpl; lra).
  assert (HB : length silent_output = 128%nat) by apply length_silent_output.
  assert (Hwf1 : well_formed (Worklet.r_this r1))
    by (apply process_keeps_well_formed, well_formed_constructor).
  assert (Hwf2 : well_formed (Worklet.r_this r2))
    by (apply process_keeps_well_formed, Hwf1).
  assert (HN2 : Worklet.fftSize (Worklet.r_this r2) = 2048%nat)
    by (unfold r2, r1; rewrite !process_fftSize; reflexivity).
  (* block 1 *)
  pose proof (process_overlap_cells 8000 Worklet.constructor impulse_block [] []
                silent_output [] [] (wide_params 1)
                well_formed_constructor (Hg1 _)) as H1.
  cbv zeta in H1. fold r1 stale in H1. rewrite HB in H1.
  destruct H1 as (_ & _ & _ & Htail & _); [simpl; lia|].
  (* block 2 *)
  pose proof (process_gain_zero 8000 (Worklet.r_this r1) block2 [] []
                silent_output [] [] (wide_params 0) eq_refl) as H2.
  fold r2 in H2.
  assert (Hout2 : Worklet.r_outputs r2
                  = [[repeat (Fin 0) (length silent_output)]])
    by (rewrite H2; reflexivity).
  assert (Htr2 : Worklet.r_transforms r2 = []) by (rewrite H2; reflexivity).
  assert (Hov2 : Worklet.overlappedOutput (Worklet.r_this r2)
                 = Worklet.overlappedOutput (Worklet.r_this r1))
    by (apply bypass_keeps_overlap; reflexivity).
  (* block 3 *)
  pose proof (process_overlap_cells 8000 (Worklet.r_this r2) block3 [] []
                silent_output [] [] (wide_params 1) Hwf2 (Hg1 _)) as H3.
  cbv zeta in H3. fold r3 fresh in H3. rewrite HB, HN2, Hov2 in H3.
  destruct H3 as (_ & _ & (out & Hout3 & _ & Hadd) & _); [lia|].
  split; [|split; [exact Htr2|split]].
  - rewrite Hout2, HB. reflexivity.
  - exists out. split; [exact Hout3|].
    intros i Hi. rewrite (Hadd i Hi). do 3 f_equal.
    apply nth_error_nth. apply Htail; simpl; lia.
  - intros i Hi. unfold stale, r1.
    rewrite process_processedOutput
      by (auto using well_formed_constructor).
    apply impulse_tail_nonzero. lia.
Qed.

Lemma bypass_keeps_stale_overlap_witness :
  Worklet.or_else (Some 0) (Worklet.gain Worklet.constructor) = 0 /\
  Worklet.overlappedOutput
    (Worklet.r_this
       (Worklet.process 8000 Worklet.constructor [[impulse_block]]
          [[silent_output]] (wide_params 0)))
  = Worklet.overlappedOutput Worklet.constructor.
Proof.
  split; [reflexivity|].
  apply (bypass_keeps_stale_overlap 8000 Worklet.constructor
           [[impulse_block]] [[silent_output]] (wide_params 0)
           impulse_block impulse_block).
  reflexivity.
Defined.

(** ** A plateau that stops every bin *)

Lemma dft_zeros c n j : dft c (map (fun _ => Cx.zero) (seq 0 n)) j = Cx.zero.
Proof.
  unfold dft. rewrite length_map, length_seq.
  rewrite (csum_ext _ _ (fun _ => Cx.zero)).
  - apply csum_zero.
  - intros k Hk.
    rewrite (nth_map_seq (fun _ => Cx.zero)) by assumption.
    apply multiply_0_l.
Qed.

Section StopBand.

Variable sampleRate : R.
Variable this : Worklet.PlateauProcessor.
Variable input : list R.

Let N := Worklet.fftSize this.

Hypothesis Hmask :
  forall k, (0 < k < N)%nat ->
    Worklet.plateau (Worklet.centerFreq this) (Worklet.width this)
      (Worklet.flatWidth this) (Worklet.freq_axis sampleRate N k) = 0.

Lemma stopband_spectrum :
  masked_spectrum sampleRate this input = map (fun _ => Cx.zero) (seq 0 N).
Proof.
  unfold masked_spectrum. fold N.
  apply map_seq_ext. intros k [_ Hk]. simpl in Hk.
  rewrite (nth_error_nth _ _ 0 (worklet_mask_bin _ _ _ _ N k Hk)).
  destruct k as [|k]; simpl (_ =? _)%nat; cbv iota.
  - cx_eq.
  - rewrite Hmask by lia. cx_eq.
Qed.

Lemma stopband_processed :
  processed_block sampleRate this input = repeat 0 N.
Proof.
  unfold processed_block. fold N. rewrite stopband_spectrum.
  apply nth_error_ext. intros j.
  destruct (Nat.lt_ge_cases j N) as [Hj|Hj].
  - rewrite nth_error_map_seq, nth_error_repeat by assumption.
    rewrite dft_zeros. simpl. f_equal. ring.
  - transitivity (@None R).
    + apply nth_error_None. rewrite length_map, length_seq. exact Hj.
    + symmetry. apply nth_error_None. rewrite repeat_length. exact Hj.
Qed.

End StopBand.

Lemma nth_repeat_0 n i : nth i (repeat 0 n) 0 = 0.
Proof.
  revert i; induction n as [|n IH]; intros [|i]; simpl; auto.
Qed.

(** A block whose processed samples are all 0 leaves a processor with a
    silent overlap buffer silent. *)
Lemma silent_block sampleRate this input ins inputs output channels outputs
      parameters :
  well_formed this ->
  Worklet.overlappedOutput this = repeat 0 (Worklet.fftSize this) ->
  Worklet.or_else (Worklet.p_gain parameters) (Worklet.gain this) <> 0 ->
  (length output <= Worklet.fftSize this)%nat ->
  processed_block sampleRate (Worklet.latch this parameters) input
  = repeat 0 (Worklet.fftSize this) ->
  let r := Worklet.process sampleRate this ((input :: ins) :: inputs)
             ((output :: channels) :: outputs) parameters in
  Worklet.r_outputs r
    = (repeat (Fin 0) (length output) :: channels) :: outputs /\
  Worklet.overlappedOutput (Worklet.r_this r)
    = repeat 0 (Worklet.fftSize this).
Proof.
  intros Hwf Hov Hg HB Hzero r.
  pose proof (process_overlap_cells sampleRate this input ins inputs output
                channels outputs parameters Hwf Hg HB) as H.
  cbv zeta in H. fold r in H.
  destruct H as (_ & _ & (out & Hout & Hlen & Hadd) & Hlo & Hhi & Hold).
  assert (HP : Worklet.processedOutput (Worklet.r_this r)
               = repeat 0 (Worklet.fftSize this)).
  { unfold r. rewrite process_processedOutput by assumption. exact Hzero. }
  rewrite HP in *. rewrite Hov in *. split.
  - rewrite Hout. do 2 f_equal.
    apply nth_error_ext. intros j.
    destruct (Nat.lt_ge_cases j (length output)) as [Hj|Hj].
    + rewrite Hadd, nth_error_repeat by assumption.
      rewrite !nth_repeat_0. do 2 f_equal. ring.
    + transitivity (@None num).
      * apply nth_error_None. lia.
      * symmetry. apply nth_error_None. rewrite repeat_length. exact Hj.
  - apply nth_error_ext. intros j.
    destruct (Nat.lt_ge_cases j (length output)) as [Hj|Hj].
    + destruct (Nat.lt_ge_cases (j + length output) (Worklet.fftSize this))
        as [Hs|Hs].
      * rewrite Hlo, nth_repeat_0 by assumption.
        symmetry. apply nth_error_repeat. lia.
      * rewrite Hhi by assumption.
        symmetry. apply nth_error_repeat. lia.
    + apply Hold. exact Hj.
Qed.

(** ** Streams *)

Lemma render_app sampleRate parameters a b this :
  render sampleRate this parameters (a ++ b) =
  (fst (render sampleRate this parameters a)
   ++ fst (render sampleRate
             (snd (render sampleRate this parameters a)) parameters b),
   snd (render sampleRate
          (snd (render sampleRate this parameters a)) parameters b)).
Proof.
  revert this; induction a as [|block a IH]; intros this.
  - simpl. destruct (render sampleRate this parameters b); reflexivity.
  - cbn [render app]. rewrite IH.
    destruct (render sampleRate _ parameters a) as [o1 s1]. reflexivity.
Qed.

Lemma length_render sampleRate parameters blocks this :
  length (fst (render sampleRate this parameters blocks)) = length blocks.
Proof.
  revert this; induction blocks as [|block rest IH]; intros this;
    [reflexivity|].
  cbn [render]. specialize (IH (Worklet.r_this
    (Worklet.process sampleRate this [[block]]
       [[repeat (Fin 0) (length block)]] parameters))).
  destruct (render sampleRate _ parameters rest) as [o s].
  simpl in *. f_equal. exact IH.
Qed.

(** A stream of blocks whose processed samples are all 0 is answered
    with silence, and leaves the overlap buffer silent. *)
Lemma render_silent sampleRate parameters N blocks :
  (forall st, Worklet.or_else (Worklet.p_gain parameters) (Worklet.gain st)
              <> 0) ->
  (forall st block, In block blocks ->
     well_formed st -> Worklet.fftSize st = N ->
     processed_block sampleRate (Worklet.latch st parameters) block
     = repeat 0 N) ->
  (forall block, In block blocks -> (length block <= N)%nat) ->
  forall this,
    well_formed this -> Worklet.fftSize this = N ->
    Worklet.overlappedOutput this = repeat 0 N ->
    fst (render sampleRate this parameters blocks)
    = map (fun block => repeat (Fin 0) (length block)) blocks /\
    well_formed (snd (render sampleRate this parameters blocks)) /\
    Worklet.fftSize (snd (render sampleRate this parameters blocks)) = N /\
    Worklet.overlappedOutput (snd (render sampleRate this parameters blocks))
    = repeat 0 N.
Proof.
  intros Hg. induction blocks as [|block rest IH];
    intros Hzero Hlen this Hwf HN Hov.
  - simpl. auto.
  - cbn [render].
    set (r := Worklet.process sampleRate this [[block]]
                [[repeat (Fin 0) (length block)]] parameters).
    assert (Hblock : Worklet.r_outputs r
                     = [[repeat (Fin 0) (length block)]] /\
                     Worklet.overlappedOutput (Worklet.r_this r) = repeat 0 N).
    { pose proof (silent_block sampleRate this block [] []
                    (repeat (Fin 0) (length block)) [] [] parameters Hwf) as H.
      rewrite repeat_length, HN in H.
      apply H; auto.
      - apply Hlen. left. reflexivity.
      - apply Hzero; auto. left. reflexivity. }
    destruct Hblock as [Hout Hov'].
    destruct (IH (fun st b Hb => Hzero st b (or_intror Hb))
                 (fun b Hb => Hlen b (or_intror Hb))
                 (Worklet.r_this r)) as (Hfst & Hwf' & HN' & Hov'').
    + apply process_keeps_well_formed. exact Hwf.
    + unfold r. rewrite process_fftSize. exact HN.
    + exact Hov'.
    + destruct (render sampleRate (Worklet.r_this r) parameters rest)
        as [outs final].
      simpl in *. rewrite Hout. simpl. rewrite Hfst. auto.
Qed.

(** ** The fallback path *)

Lemma processAudio_sample this inputData outputData i x :
  nth_error inputData i = Some x ->
  (i < length outputData)%nat ->
  nth_error (PlateauFilter._processAudio this inputData outputData) i =
  Some (nmul (nmul (nmul (Fin x) (PlateauFilter.window (length inputData) i))
                   (PlateauFilter._calculateMask this
                      (INR i * (PlateauFilter.sampleRate this / 2)
                       / INR (length inputData))))
             (Fin (PlateauFilter.gain this))).
Proof.
  intros Hx Hout.
  assert (Hi : (i < length inputData)%nat)
    by (apply nth_error_Some; congruence).
  unfold PlateauFilter._processAudio, PlateauFilter._calculateIFFT,
    PlateauFilter._calculateFFT.
  set (B := length inputData).
  assert (HiB : (i <? B)%nat = true) by (apply Nat.ltb_lt; exact Hi).
  set (temp := for_loop B (fun i b => store b i (rd inputData i))
                 (repeat (Fin 0) B)).
  assert (Htemp : nth_error temp i = Some (Fin x)).
  { unfold temp.
    rewrite (for_loop_update NaN (fun i _ => rd inputData i)).
    rewrite HiB.
    rewrite nth_error_repeat by assumption. simpl.
    rewrite (rd_Fin _ _ _ Hx). reflexivity. }
  assert (HlenT : length temp = B).
  { unfold temp.
    rewrite (length_for_loop_update (fun i _ => rd inputData i)).
    apply repeat_length. }
  set (win := PlateauFilter._applyWindow temp).
  assert (Hwin : nth_error win i
                 = Some (nmul (Fin x) (PlateauFilter.window B i))).
  { unfold win, PlateauFilter._applyWindow. rewrite HlenT.
    rewrite (for_loop_update NaN
               (fun i a => nmul a (PlateauFilter.window B i))).
    rewrite HiB, Htemp. reflexivity. }
  assert (HlenW : length win = B).
  { unfold win, PlateauFilter._applyWindow.
    rewrite (length_for_loop_update
               (fun i b => nmul (nth i b NaN)
                             (PlateauFilter.window (length temp) i))).
    exact HlenT. }
  set (fil := PlateauFilter._applyFilter this win).
  assert (Hfil : nth_error fil i
                 = Some (nmul (nmul (Fin x) (PlateauFilter.window B i))
                              (PlateauFilter._calculateMask this
                                 (INR i * (PlateauFilter.sampleRate this / 2)
                                  / INR B)))).
  { unfold fil, PlateauFilter._applyFilter. rewrite HlenW.
    rewrite (for_loop_update NaN
               (fun i a => nmul a (PlateauFilter._calculateMask this
                                     (INR i * (PlateauFilter.sampleRate this / 2)
                                      / INR B)))).
    rewrite HiB, Hwin. reflexivity. }
  rewrite (for_loop_update NaN
             (fun i _ => nmul (nth i fil NaN) (Fin (PlateauFilter.gain this)))).
  rewrite HiB.
  rewrite (nth_error_nth' outputData NaN) by assumption. simpl.
  rewrite (nth_error_nth _ _ NaN Hfil). reflexivity.
Qed.

(** ** applyFFTFilter *)

(** C10 fails on one sample.  The padded length is 1, so the frequency
    array has no entry 1, [freqStep] is [NaN], and the log line of the mask
    generator that reads [mask[Math.round(5000 / freqStep)].toFixed(3)]
    throws a TypeError: [applyFFTFilter] returns no array.  On no sample
    at all the log line that reads [mask[0].toFixed(3)] throws. *)
Theorem applyFFTFilter_single_sample_throws x sampleRate targetFreq width delta :
  Ftt.applyFFTFilter [x] sampleRate targetFreq width delta = Throw TypeError /\
  Ftt.applyFFTFilter [] sampleRate targetFreq width delta = Throw TypeError.
Proof. split; reflexivity. Qed.

Section Normalise.

Variable raw : nat -> R.
Variable L : nat.

Let scan (i : nat) (s : list R * R) : list R * R :=
  let '(res, maxAmp) := s in
  let res := store res i (raw i) in
  (res, Rmax maxAmp (Rabs (nth i res 0))).

Lemma scan_loop n :
  (n <= L)%nat ->
  let s := for_loop n scan (repeat 0 L, 0) in
  length (fst s) = L /\
  (forall j, (j < n)%nat -> nth j (fst s) 0 = raw j) /\
  0 <= snd s /\
  (forall j, (j < n)%nat -> Rabs (raw j) <= snd s) /\
  (snd s = 0 \/ exists j, (j < n)%nat /\ snd s = Rabs (raw j)).
Proof.
  induction n as [|n IH]; intros Hn.
  - simpl. rewrite repeat_length. repeat split; try lia; try lra; auto.
  - rewrite for_loop_S.
    destruct (for_loop n scan (repeat 0 L, 0)) as [res maxAmp].
    destruct (IH ltac:(lia)) as (Hlen & Hraw & Hpos & Hmax & Hatt).
    simpl fst in *; simpl snd in *. intros _. unfold scan.
    simpl fst; simpl snd.
    assert (Hn' : nth n (store res n (raw n)) 0 = raw n).
    { apply nth_error_nth. apply nth_error_store_same. lia. }
    rewrite Hn'. split; [|split; [|split; [|split]]].
    + rewrite length_store. exact Hlen.
    + intros j Hj. destruct (Nat.eq_dec j n) as [->|Hne]; [exact Hn'|].
      rewrite <- (Hraw j) by lia.
      apply nth_of_nth_error. apply nth_error_store_other. lia.
    + pose proof (Rmax_l maxAmp (Rabs (raw n))). lra.
    + intros j Hj. destruct (Nat.eq_dec j n) as [->|Hne].
      * apply Rmax_r.
      * pose proof (Rmax_l maxAmp (Rabs (raw n))).
        pose proof (Hmax j ltac:(lia)). lra.
    + unfold Rmax. destruct (Rle_dec maxAmp (Rabs (raw n))).
      * right. exists n. split; [lia|reflexivity].
      * destruct Hatt as [H0|(j & Hj & Hj')]; [left; exact H0|].
        right. exists j. split; [lia|exact Hj'].
Qed.

End Normalise.

(** Whenever [applyFFTFilter] returns, the array has the length of the
    input and is normalised: divided by its largest absolute amplitude
    when that is positive, all zeros otherwise; so no sample exceeds 1 in
    absolute value. *)
Lemma applyFFTFilter_normalised samples sampleRate targetFreq width delta
      result :
  Ftt.applyFFTFilter samples sampleRate targetFreq width delta = Normal result ->
  length result = length samples /\
  (forall i, Rabs (nth i result 0) <= 1) /\
  exists (raw : nat -> R) (maxAmp : R),
    0 <= maxAmp /\
    (forall i, (i < length samples)%nat -> Rabs (raw i) <= maxAmp) /\
    (maxAmp = 0 \/
     exists j, (j < length samples)%nat /\ maxAmp = Rabs (raw j)) /\
    (0 < maxAmp ->
     forall i, (i < length samples)%nat -> nth i result 0 = raw i / maxAmp) /\
    (maxAmp = 0 ->
     forall i, (i < length samples)%nat -> nth i result 0 = 0).
Proof.
  unfold Ftt.applyFFTFilter.
  destruct (Ftt.createPlateauFilterMask _ _ _ _) as [filterMask|];
    simpl bind; [|discriminate].
  destruct (fft _) as [fftResult|]; simpl bind; [|discriminate].
  destruct (ifft _) as [ifftResult|]; simpl bind; [|discriminate].
  set (L := length samples).
  set (raw := fun i => real (nth i ifftResult Cx.zero)).
  pose proof (scan_loop raw L L (le_n L)) as H. cbv zeta in H.
  match type of H with
  | context [for_loop L ?f ?s] =>
      match goal with
      | |- context [for_loop L ?g s] => change g with f
      end;
      destruct (for_loop L f s) as [res maxAmp]
  end.
  simpl fst in H; simpl snd in H.
  destruct H as (Hlen & Hraw & Hpos & Hmax & Hatt).
  intros Hret. injection Hret as <-.
  assert (Hcells : forall i, (i < L)%nat ->
            nth i (if Rltb 0 maxAmp
                   then for_loop L
                          (fun i res => store res i (nth i res 0 / maxAmp)) res
                   else res) 0
            = if Rltb 0 maxAmp then raw i / maxAmp else raw i).
  { intros i Hi. destruct (Rltb 0 maxAmp).
    - apply nth_error_nth.
      rewrite (for_loop_update 0 (fun _ a => a / maxAmp)).
      apply Nat.ltb_lt in Hi. rewrite Hi. apply Nat.ltb_lt in Hi.
      rewrite (nth_error_nth' res 0) by lia. simpl.
      rewrite Hraw by assumption. reflexivity.
    - apply Hraw. assumption. }
  assert (Hlen' : length (if Rltb 0 maxAmp
                   then for_loop L
                          (fun i res => store res i (nth i res 0 / maxAmp)) res
                   else res) = L).
  { destruct (Rltb 0 maxAmp); [|exact Hlen].
    rewrite (length_for_loop_update (fun i res => nth i res 0 / maxAmp)).
    exact Hlen. }
  split; [exact Hlen'|]. split.
  - intros i. destruct (Nat.lt_ge_cases i L) as [Hi|Hi].
    + rewrite Hcells by assumption. unfold Rltb.
      destruct (Rlt_dec 0 maxAmp) as [Hp|Hnp].
      * unfold Rdiv. rewrite Rabs_mult, (Rabs_pos_eq (/ maxAmp))
          by (left; apply Rinv_0_lt_compat; exact Hp).
        apply Rmult_le_reg_r with maxAmp; [exact Hp|].
        rewrite Rmult_assoc, Rinv_l by lra.
        pose proof (Hmax i Hi). lra.
      * pose proof (Hmax i Hi). pose proof (Rabs_pos (raw i)).
        assert (Rabs (raw i) = 0) by lra. lra.
    + rewrite nth_overflow by lia. rewrite Rabs_R0. lra.
  - exists raw, maxAmp. repeat split; auto.
    + intros Hp i Hi. rewrite Hcells by assumption.
      rewrite Rltb_true by assumption. reflexivity.
    + intros Hz i Hi. rewrite Hcells by assumption.
      rewrite Rltb_false by lra.
      pose proof (Hmax i Hi) as Hm. rewrite Hz in Hm.
      pose proof (Rabs_pos (raw i)).
      destruct (Req_dec (raw i) 0) as [E|E]; [exact E|].
      apply Rabs_no_R0 in E. lra.
Qed.

Lemma paddedLength_spec L :
  (L <= Ftt.paddedLength L)%nat /\
  (Ftt.paddedLength L = 0%nat \/ exists m, Ftt.paddedLength L = (2 ^ m)%nat).
Proof.
  destruct L as [|L].
  - simpl. auto.
  - unfold Ftt.paddedLength. split.
    + destruct L as [|L]; [simpl; lia|].
      apply Nat.log2_up_spec. lia.
    + right. eauto.
Qed.

Lemma fft_empty : fft [] = Normal [].
Proof. rewrite fft_body. reflexivity. Qed.

Lemma ifft_empty : ifft [] = Normal [].
Proof. rewrite ifft_body. reflexivity. Qed.

Lemma fft_returns x :
  length x = 0%nat \/ (exists m, length x = (2 ^ m)%nat) ->
  exists y, fft x = Normal y /\ length y = length x.
Proof.
  intros [H0|[m Hm]].
  - destruct x; [|discriminate]. exists []. split; [apply fft_empty|reflexivity].
  - exists (dft_list (-2 * PI) x). split.
    + apply (fft_is_dft m). exact Hm.
    + apply length_dft_list.
Qed.

Lemma ifft_returns x :
  length x = 0%nat \/ (exists m, length x = (2 ^ m)%nat) ->
  exists y, ifft x = Normal y /\ length y = length x.
Proof.
  intros [H0|[m Hm]].
  - destruct x; [|discriminate]. exists []. split; [apply ifft_empty|reflexivity].
  - exists (idft_list (2 * PI) x). split.
    + apply (ifft_is_idft m). exact Hm.
    + apply length_idft_list.
Qed.

(** [applyFFTFilter] returns an array as soon as the mask generator gets
    through its log lines: on the padded length both transforms return. *)
Lemma applyFFTFilter_returns samples sampleRate targetFreq width delta mask :
  Ftt.createPlateauFilterMask
    (Ftt.createFrequencyArray (Ftt.paddedLength (length samples)) sampleRate)
    targetFreq width delta = Normal mask ->
  exists result,
    Ftt.applyFFTFilter samples sampleRate targetFreq width delta
    = Normal result.
Proof.
  intros Hmask. unfold Ftt.applyFFTFilter. rewrite Hmask. simpl bind.
  destruct (paddedLength_spec (length samples)) as [Hle Hpow].
  set (paddedInput := map _ samples ++ repeat _ _).
  assert (Hlen : length paddedInput = Ftt.paddedLength (length samples)).
  { unfold paddedInput. rewrite length_app, length_map, repeat_length. lia. }
  destruct (fft_returns paddedInput) as (fftResult & -> & Hf).
  { rewrite Hlen. exact Hpow. }
  simpl bind.
  set (filteredFFT := map _ (seq 0 (length fftResult))).
  destruct (ifft_returns filteredFFT) as (ifftResult & -> & Hi).
  { unfold filteredFFT. rewrite length_map, length_seq, Hf, Hlen. exact Hpow. }
  simpl bind.
  destruct (for_loop (length samples) _ _) as [res maxAmp].
  eexists. reflexivity.
Qed.

Lemma ftt_mask_two_bins :
  exists mask,
    Ftt.createPlateauFilterMask (Ftt.createFrequencyArray 2 44100)
      10000 5000 2000 = Normal mask.
Proof.
  assert (Hf : Ftt.createFrequencyArray 2 44100
               = [INR 0 * (44100 / INR 2); INR 1 * (44100 / INR 2)])
    by reflexivity.
  rewrite Hf. unfold Ftt.createPlateauFilterMask.
  set (m := store _ 0%nat 0).
  assert (Hlen : length m = 2%nat) by reflexivity.
  assert (H0 : Ftt.log_at m 0 = Normal tt) by reflexivity.
  assert (H1 : Ftt.log_at m (length [INR 0 * (44100 / INR 2);
                                     INR 1 * (44100 / INR 2)] / 2)
               = Normal tt) by reflexivity.
  assert (Hstep : Ftt.nsub (rd [INR 0 * (44100 / INR 2);
                                INR 1 * (44100 / INR 2)] 1)
                           (rd [INR 0 * (44100 / INR 2);
                                INR 1 * (44100 / INR 2)] 0)
                  = Fin 22050).
  { unfold rd. simpl. f_equal. field. }
  rewrite Hstep, H0, H1.
  rewrite (log_bin_ok m 5000 22050 0), (log_bin_ok m 10000 22050 0),
    (log_bin_ok m 15000 22050 1);
    try (rewrite Hlen; simpl; lia); try lra.
  simpl bind. eauto.
Qed.

(** On two samples at 44100 Hz the log lines get through. *)
Lemma applyFFTFilter_two_samples :
  exists result,
    Ftt.applyFFTFilter [1; 1] 44100 10000 5000 2000 = Normal result /\
    length result = 2%nat /\
    forall i, Rabs (nth i result 0) <= 1.
Proof.
  destruct ftt_mask_two_bins as [mask Hmask].
  destruct (applyFFTFilter_returns [1; 1] 44100 10000 5000 2000 mask Hmask)
    as [result Hres].
  exists result. split; [exact Hres|].
  apply applyFFTFilter_normalised in Hres. destruct Hres as (Hl & Hb & _).
  auto.
Qed.

(** ** The response of the pipeline to an impulse *)

Lemma plateau_nonneg centerFreq width flatWidth f :
  0 <= Worklet.plateau centerFreq width flatWidth f.
Proof.
  unfold Worklet.plateau.
  destruct (Rltb _ (flatWidth / 2)); [lra|].
  destruct (Rltb _ (width / 2)); [|lra].
  match goal with |- context [cos ?t] => pose proof (COS_bound t) end.
  lra.
Qed.

Lemma csum_reals_ge n (r : nat -> R) k0 :
  (forall k, (k < n)%nat -> 0 <= r k) -> (k0 < n)%nat ->
  r k0 <= real (csum n (fun k => mkComplex (r k) 0)).
Proof.
  induction n as [|n IH]; intros Hpos Hk; [lia|].
  assert (Hsum : 0 <= real (csum n (fun k => mkComplex (r k) 0))).
  { clear IH Hk. induction n as [|n IHn]; simpl; [lra|].
    pose proof (Hpos n ltac:(lia)).
    assert (0 <= real (csum n (fun k => mkComplex (r k) 0)))
      by (apply IHn; intros; apply Hpos; lia).
    lra. }
  simpl. destruct (Nat.eq_dec k0 n) as [->|Hne].
  - lra.
  - pose proof (IH ltac:(intros; apply Hpos; lia) ltac:(lia)).
    pose proof (Hpos n ltac:(lia)). lra.
Qed.

Lemma cis_unit theta : cos theta * cos theta + sin theta * sin theta = 1.
Proof.
  pose proof (sin2_cos2 theta) as H. unfold Rsqr in H. lra.
Qed.

Section ImpulseResponse.

Variable sampleRate : R.
Variable this : Worklet.PlateauProcessor.
Variable input : list R.
Variables (n0 : nat) (a : R).

Let N := Worklet.fftSize this.

Hypothesis Hn0 : (n0 < N)%nat.
Hypothesis Hinput :
  forall n, (n < N)%nat ->
    window_sample N input n = if (n =? n0)%nat then a else 0.

Lemma impulse_spectrum k :
  dft (-2 * PI) (windowed_block N input) k =
  Cx.multiply (mkComplex a 0) (cis (-2 * PI * INR k * INR n0 / INR N)).
Proof.
  unfold dft. rewrite length_windowed_block.
  assert (Hnth : forall n, (n < N)%nat ->
            nth n (windowed_block N input) Cx.zero
            = mkComplex (if (n =? n0)%nat then a else 0) 0).
  { intros n Hn. unfold windowed_block.
    rewrite (nth_map_seq (fun i => mkComplex (window_sample N input i) 0))
      by assumption.
    rewrite Hinput by assumption. reflexivity. }
  rewrite (csum_single N n0).
  - rewrite Hnth, Nat.eqb_refl by assumption. reflexivity.
  - assumption.
  - intros n Hn Hne. rewrite Hnth by assumption.
    apply Nat.eqb_neq in Hne. rewrite Hne. apply multiply_0_l.
Qed.

(** At the place of the impulse the pipeline returns the impulse, windowed
    twice and weighted by the mean of the mask times the gain. *)
Lemma impulse_processed :
  nth n0 (processed_block sampleRate this input) 0 =
  real (csum N (fun k =>
          mkComplex
            (a * (nth k (Worklet.createPlateauFilterMask sampleRate
                           (Worklet.centerFreq this) (Worklet.width this)
                           (Worklet.flatWidth this) N) 0
                  * Worklet.gain this)) 0))
  / INR N * Worklet.hanning N n0.
Proof.
  assert (HN : INR N <> 0) by (apply not_0_INR; lia).
  unfold processed_block. fold N.
  rewrite (nth_map_seq
             (fun i => real (Cx.scale
                               (dft (2 * PI)
                                    (masked_spectrum sampleRate this input) i)
                               (/ INR N)) * Worklet.hanning N i))
    by assumption.
  f_equal. unfold dft at 1.
  assert (Hlen : length (masked_spectrum sampleRate this input) = N)
    by (unfold masked_spectrum; rewrite length_map, length_seq; reflexivity).
  rewrite Hlen.
  rewrite (csum_ext _ _
    (fun k => mkComplex
                (a * (nth k (Worklet.createPlateauFilterMask sampleRate
                               (Worklet.centerFreq this) (Worklet.width this)
                               (Worklet.flatWidth this) N) 0
                      * Worklet.gain this)) 0)).
  - simpl. unfold Rdiv. reflexivity.
  - intros k Hk. unfold masked_spectrum. fold N.
    rewrite (nth_map_seq
               (fun k => Cx.scale (dft (-2 * PI) (windowed_block N input) k)
                  (nth k (Worklet.createPlateauFilterMask sampleRate
                            (Worklet.centerFreq this) (Worklet.width this)
                            (Worklet.flatWidth this) N) 0
                   * Worklet.gain this)))
      by assumption.
    rewrite impulse_spectrum.
    replace (-2 * PI * INR k * INR n0 / INR N)
      with (- (2 * PI * INR n0 * INR k / INR N)) by (field; assumption).
    rewrite cis_neg.
    set (theta := 2 * PI * INR n0 * INR k / INR N).
    set (m := nth k _ 0 * Worklet.gain this).
    pose proof (cis_unit theta) as Hu.
    apply Complex_eq; simpl.
    + replace ((a * (1 * cos theta) - 0 * - (1 * sin theta)) * m
               * (1 * cos theta)
               - (a * - (1 * sin theta) + 0 * (1 * cos theta)) * m
                 * (1 * sin theta))
        with (a * m * (cos theta * cos theta + sin theta * sin theta))
        by ring.
      rewrite Hu. ring.
    + ring.
Qed.

End ImpulseResponse.


(** ** Windows, masks and sums: bounds *)

Lemma impulse_at_window N before after n :
  window_sample N (impulse_at before after) n =
  if (n =? before)%nat then Worklet.hanning N before else 0.
Proof.
  unfold window_sample, impulse_at.
  destruct (Nat.lt_ge_cases n before) as [Hlt|Hge].
  - rewrite nth_error_app1 by (rewrite repeat_length; exact Hlt).
    rewrite nth_error_repeat by exact Hlt.
    assert ((n =? before)%nat = false) as -> by (apply Nat.eqb_neq; lia).
    ring.
  - rewrite nth_error_app2 by (rewrite repeat_length; exact Hge).
    rewrite repeat_length.
    destruct (Nat.eqb_spec n before) as [->|Hne].
    + rewrite Nat.sub_diag. cbn [nth_error]. ring.
    + destruct (n - before)%nat as [|m] eqn:E; [lia|]. cbn [nth_error].
      destruct (nth_error (repeat 0 after) m) as [x|] eqn:Ex; [|reflexivity].
      apply nth_error_In, repeat_spec in Ex. subst x. ring.
Qed.

Lemma silence_window N len n : window_sample N (repeat 0 len) n = 0.
Proof.
  unfold window_sample.
  destruct (nth_error (repeat 0 len) n) as [x|] eqn:E; [|reflexivity].
  apply nth_error_In, repeat_spec in E. subst x. ring.
Qed.

Lemma silence_processed sampleRate this input :
  (forall n, window_sample (Worklet.fftSize this) input n = 0) ->
  processed_block sampleRate this input = repeat 0 (Worklet.fftSize this).
Proof.
  intros Hzero. set (N := Worklet.fftSize this).
  assert (Hu : windowed_block N input = map (fun _ => Cx.zero) (seq 0 N)).
  { unfold windowed_block. apply map_seq_ext. intros i _.
    unfold N. rewrite Hzero. reflexivity. }
  assert (HV : masked_spectrum sampleRate this input
               = map (fun _ => Cx.zero) (seq 0 N)).
  { unfold masked_spectrum. fold N. apply map_seq_ext. intros k _.
    rewrite Hu, dft_zeros. cx_eq. }
  unfold processed_block. fold N. rewrite HV.
  apply nth_error_ext. intros j.
  destruct (Nat.lt_ge_cases j N) as [Hj|Hj].
  - rewrite nth_error_map_seq, nth_error_repeat by assumption.
    rewrite dft_zeros. simpl. f_equal. ring.
  - transitivity (@None R).
    + apply nth_error_None. rewrite length_map, length_seq. exact Hj.
    + symmetry. apply nth_error_None. rewrite repeat_length. exact Hj.
Qed.

Lemma plateau_le_1 centerFreq width flatWidth f :
  Worklet.plateau centerFreq width flatWidth f <= 1.
Proof.
  unfold Worklet.plateau.
  destruct (Rltb _ (flatWidth / 2)); [lra|].
  destruct (Rltb _ (width / 2)); [|lra].
  match goal with |- context [cos ?t] => pose proof (COS_bound t) end.
  lra.
Qed.

Lemma worklet_mask_bounds sampleRate centerFreq width flatWidth size k :
  0 <= nth k (Worklet.createPlateauFilterMask sampleRate centerFreq width
                flatWidth size) 0 <= 1.
Proof.
  destruct (Nat.lt_ge_cases k size) as [Hk|Hk].
  - rewrite (nth_error_nth _ _ 0
               (worklet_mask_bin sampleRate centerFreq width flatWidth
                  size k Hk)).
    destruct (k =? 0)%nat; [lra|].
    split; [apply plateau_nonneg | apply plateau_le_1].
  - rewrite nth_overflow by (rewrite length_worklet_mask; exact Hk). lra.
Qed.

Lemma csum_reals_le n (r : nat -> R) c :
  (forall k, (k < n)%nat -> r k <= c) ->
  real (csum n (fun k => mkComplex (r k) 0)) <= INR n * c.
Proof.
  induction n as [|n IH]; intros Hle.
  - simpl. lra.
  - cbn [csum]. rewrite S_INR. simpl real.
    pose proof (IH ltac:(intros; apply Hle; lia)).
    pose proof (Hle n ltac:(lia)). lra.
Qed.

Lemma hanning_nonneg size i : 0 <= Worklet.hanning size i.
Proof.
  unfold Worklet.hanning.
  match goal with |- context [cos ?t] => pose proof (COS_bound t) end.
  lra.
Qed.

Lemma INR_literal n : INR n = IZR (Z.of_nat n).
Proof. apply INR_IZR_INZ. Qed.

(** The window is at most 1/2 in the first quarter of the table, and at
    least 1/2 in the middle half. *)
Lemma hanning_first_quarter i :
  (i <= 511)%nat -> Worklet.hanning 2048 i <= 1/2.
Proof.
  intros Hi. unfold Worklet.hanning. rewrite INR_2048.
  assert (Hb : 0 <= INR i <= 511).
  { split; [apply pos_INR|].
    replace 511 with (INR 511) by (rewrite INR_literal; reflexivity).
    apply le_INR. exact Hi. }
  set (t := INR i / (2048 - 1)).
  assert (Ht : 0 <= t <= 1/4) by (unfold t; split; lra).
  replace (2 * PI * INR i / (2048 - 1)) with (2 * PI * t)
    by (unfold t; field; lra).
  pose proof PI_RGT_0 as Hpi.
  assert (0 <= cos (2 * PI * t)) by (apply cos_ge_0; nra).
  lra.
Qed.

Lemma hanning_middle i :
  (512 <= i <= 1535)%nat -> 1/2 <= Worklet.hanning 2048 i.
Proof.
  intros [Hlo Hhi]. unfold Worklet.hanning. rewrite INR_2048.
  assert (Hb : 512 <= INR i <= 1535).
  { split.
    - replace 512 with (INR 512) by (rewrite INR_literal; reflexivity).
      apply le_INR. exact Hlo.
    - replace 1535 with (INR 1535) by (rewrite INR_literal; reflexivity).
      apply le_INR. exact Hhi. }
  set (t := INR i / (2048 - 1)).
  assert (Ht : 1/4 <= t <= 3/4) by (unfold t; split; lra).
  replace (2 * PI * INR i / (2048 - 1)) with (2 * PI * t)
    by (unfold t; field; lra).
  pose proof PI_RGT_0 as Hpi.
  assert (cos (2 * PI * t) <= 0) by (apply cos_le_0; nra).
  lra.
Qed.

(** ** The default settings on a stream *)

Lemma default_width : Rmax 5000 (2000 + 1) = 5000.
Proof. apply Rmax_left. lra. Qed.

(** Bin 464 lies at 9991.40625 Hz, inside the flat band. *)
Lemma default_bin_464 :
  nth 464 (Worklet.createPlateauFilterMask 44100 10000 5000 2000 2048) 0 = 1.
Proof.
  rewrite (nth_error_nth _ _ 0
             (worklet_mask_bin 44100 10000 _ 2000 2048 464 ltac:(lia))).
  simpl (_ =? _)%nat. cbv iota.
  assert (H464 : INR 464 = 464) by (rewrite INR_literal; reflexivity).
  unfold Worklet.freq_axis. rewrite INR_2048, H464.
  rewrite Rleb_true by lra.
  unfold Worklet.plateau.
  rewrite (Rabs_pos_eq (464 * 44100 / 2048)) by lra.
  rewrite Rltb_true; [reflexivity|].
  apply Rabs_def1; lra.
Qed.

(** With the default settings an impulse comes out of the worklet, at its
    place [n0] in the block, weighted by the square of the window and by
    the mean of the mask: at least [1/2048], at most 1. *)
Lemma default_impulse_sample this input output n0 :
  well_formed this -> Worklet.fftSize this = 2048%nat ->
  Worklet.overlappedOutput this = repeat 0 2048 ->
  (forall n, (n < 2048)%nat ->
     window_sample 2048 input n
     = if (n =? n0)%nat then Worklet.hanning 2048 n0 else 0) ->
  (n0 < length output <= 2048)%nat ->
  exists y,
    nth_error
      (nth 0 (nth 0 (Worklet.r_outputs
                       (Worklet.process 44100 this [[input]] [[output]]
                          default_params)) []) []) n0
    = Some (Fin y) /\
    Worklet.hanning 2048 n0 * Worklet.hanning 2048 n0 / 2048 <= y
    <= Worklet.hanning 2048 n0 * Worklet.hanning 2048 n0.
Proof.
  intros Hwf HN Hov Hinput [Hlo Hhi].
  set (latched := Worklet.latch this default_params).
  assert (HNl : Worklet.fftSize latched = 2048%nat) by exact HN.
  assert (Hgain : Worklet.or_else (Worklet.p_gain default_params)
                    (Worklet.gain this) <> 0)
    by (simpl; lra).
  assert (HB : (length output <= Worklet.fftSize this)%nat)
    by (rewrite HN; exact Hhi).
  pose proof (process_overlap_cells 44100 this input [] [] output [] []
                default_params Hwf Hgain HB) as H.
  cbv zeta in H.
  destruct H as (_ & _ & (out & Hout & _ & Hadd) & _).
  assert (HP : Worklet.processedOutput
                 (Worklet.r_this
                    (Worklet.process 44100 this [[input]] [[output]]
                       default_params))
               = processed_block 44100 latched input)
    by (apply process_processedOutput; [exact Hwf | exact Hgain]).
  specialize (Hadd n0 Hlo). rewrite HP, Hov, nth_repeat_0 in Hadd.
  rewrite Hout. cbn [nth]. eexists. split; [exact Hadd|].
  rewrite (impulse_processed 44100 latched input n0 (Worklet.hanning 2048 n0))
    by (rewrite HNl; auto; lia).
  rewrite HNl, INR_2048.
  change (Worklet.gain latched) with 1.
  change (Worklet.centerFreq latched) with 10000.
  change (Worklet.flatWidth latched) with 2000.
  change (Worklet.width latched) with (Rmax 5000 (2000 + 1)).
  rewrite default_width.
  set (mask := Worklet.createPlateauFilterMask 44100 10000 5000 2000 2048).
  set (a := Worklet.hanning 2048 n0).
  assert (Ha : 0 <= a) by apply hanning_nonneg.
  assert (Hbin : nth 464 mask 0 = 1) by apply default_bin_464.
  assert (Hmask : forall k, 0 <= nth k mask 0 <= 1)
    by (intros k; apply worklet_mask_bounds).
  assert (Hlow : a <= real (csum 2048
                    (fun k => mkComplex (a * (nth k mask 0 * 1)) 0))).
  { pose proof (csum_reals_ge 2048 (fun k => a * (nth k mask 0 * 1)) 464)
      as Hsum.
    cbv beta in Hsum. rewrite Hbin in Hsum.
    replace a with (a * (1 * 1)) at 1 by ring.
    apply Hsum; [|lia]. intros k _. pose proof (Hmask k). nra. }
  assert (Hup : real (csum 2048
                  (fun k => mkComplex (a * (nth k mask 0 * 1)) 0))
                <= 2048 * a).
  { rewrite <- INR_2048.
    apply (csum_reals_le 2048 (fun k => a * (nth k mask 0 * 1))).
    intros k _. pose proof (Hmask k). nra. }
  remember (real (csum 2048
                    (fun k => mkComplex (a * (nth k mask 0 * 1)) 0)))
    as s eqn:Hs.
  clear Hs. split.
  - replace (a * a / 2048 ) with (a / 2048 * a) by field.
    replace (s / 2048 * a + 0) with (s / 2048 * a) by ring.
    apply Rmult_le_compat_r; [exact Ha|]. lra.
  - replace (s / 2048 * a + 0) with (s / 2048 * a) by ring.
    apply Rmult_le_compat_r; [exact Ha|]. lra.
Qed.

Lemma zero_blocks_silent sampleRate parameters n this :
  (forall st, Worklet.or_else (Worklet.p_gain parameters) (Worklet.gain st)
              <> 0) ->
  well_formed this -> Worklet.fftSize this = 2048%nat ->
  Worklet.overlappedOutput this = repeat 0 2048 ->
  let blocks := repeat (repeat 0 128) n in
  fst (render sampleRate this parameters blocks)
  = repeat (repeat (Fin 0) 128) n /\
  well_formed (snd (render sampleRate this parameters blocks)) /\
  Worklet.fftSize (snd (render sampleRate this parameters blocks)) = 2048%nat /\
  Worklet.overlappedOutput (snd (render sampleRate this parameters blocks))
  = repeat 0 2048.
Proof.
  intros Hg Hwf HN Hov blocks.
  destruct (render_silent sampleRate parameters 2048 blocks Hg) with (this := this)
    as (Hfst & Hrest); auto.
  - intros st block Hin Hst HNst.
    apply repeat_spec in Hin. subst block.
    rewrite <- HNst.
    apply (silence_processed sampleRate (Worklet.latch st parameters)).
    intros k. apply silence_window.
  - intros block Hin. apply repeat_spec in Hin. subst block.
    rewrite repeat_length. lia.
  - split; [|exact Hrest]. rewrite Hfst. unfold blocks.
    rewrite map_repeat, repeat_length. reflexivity.
Qed.

(** Block 7 of the worklet's answer to an impulse stream. *)
Lemma render_impulse_stream sampleRate parameters i :
  (forall st, Worklet.or_else (Worklet.p_gain parameters) (Worklet.gain st)
              <> 0) ->
  exists st,
    well_formed st /\ Worklet.fftSize st = 2048%nat /\
    Worklet.overlappedOutput st = repeat 0 2048 /\
    nth 7 (fst (render sampleRate Worklet.constructor parameters
                  (impulse_stream i))) []
    = nth 0 (nth 0 (Worklet.r_outputs
                      (Worklet.process sampleRate st [[impulse_at i (127 - i)]]
                         [[repeat (Fin 0) (length (impulse_at i (127 - i)))]]
                         parameters)) []) [].
Proof.
  intros Hg.
  destruct (zero_blocks_silent sampleRate parameters 7 Worklet.constructor Hg)
    as (Hfst & Hwf & HN & Hov);
    [exact well_formed_constructor | reflexivity | reflexivity |].
  exists (snd (render sampleRate Worklet.constructor parameters
                 (repeat (repeat 0 128) 7))).
  split; [exact Hwf|]. split; [exact HN|]. split; [exact Hov|].
  unfold impulse_stream. rewrite render_app. cbn [fst].
  rewrite app_nth2 by (rewrite length_render, repeat_length; lia).
  rewrite length_render, repeat_length. cbn [Nat.sub app render].
  destruct (render sampleRate _ parameters (repeat (repeat 0 128) 8))
    as [outs final].
  reflexivity.
Qed.

Lemma impulse_stream_flat i :
  (i <= 127)%nat ->
  length (concat (impulse_stream i)) = 2048%nat /\
  nth_error (concat (impulse_stream i)) (7 * 128 + i) = Some 1.
Proof.
  intros Hi. unfold impulse_stream.
  rewrite !concat_app. cbn [concat]. rewrite app_nil_r.
  assert (Hzeros : forall n, length (concat (repeat (repeat 0 128) n))
                             = (n * 128)%nat).
  { induction n as [|n IH]; [reflexivity|].
    change (concat (repeat (repeat 0 128) (S n)))
      with (repeat 0 128 ++ concat (repeat (repeat 0 128) n)).
    rewrite length_app, repeat_length, IH. lia. }
  assert (Himp : length (impulse_at i (127 - i)) = 128%nat).
  { unfold impulse_at. rewrite length_app. cbn [length].
    rewrite !repeat_length. lia. }
  split.
  - rewrite !length_app, !Hzeros, Himp. reflexivity.
  - rewrite nth_error_app2 by (rewrite Hzeros; lia).
    rewrite Hzeros.
    replace (7 * 128 + i - 7 * 128)%nat with i by lia.
    rewrite nth_error_app1 by (rewrite Himp; lia).
    unfold impulse_at.
    rewrite nth_error_app2 by (rewrite repeat_length; lia).
    rewrite repeat_length, Nat.sub_diag. reflexivity.
Qed.

(** With the default settings the fallback lets sample 929 through with
    the weight of its window: its mask is evaluated at 929 * 22050 / 2048,
    about 10002 Hz, in the flat band. *)
Lemma default_fallback_sample :
  nth_error (PlateauFilter._processAudio default_filter
               (concat (impulse_stream 33)) (repeat (Fin 0) 2048))
            (7 * 128 + 33)
  = Some (Fin (Worklet.hanning 2048 929)).
Proof.
  destruct (impulse_stream_flat 33 ltac:(lia)) as [Hlen Hone].
  rewrite (processAudio_sample default_filter _ _ (7 * 128 + 33) 1 Hone)
    by (rewrite repeat_length; lia).
  rewrite Hlen. change (7 * 128 + 33)%nat with 929%nat.
  assert (Hw : PlateauFilter.window 2048 929 = Fin (Worklet.hanning 2048 929))
    by reflexivity.
  assert (Hm : PlateauFilter._calculateMask default_filter
                 (INR 929 * (PlateauFilter.sampleRate default_filter / 2)
                  / INR 2048) = Fin 1).
  { unfold PlateauFilter._calculateMask, default_filter.
    cbn [PlateauFilter.centerFreq PlateauFilter.flatWidth
         PlateauFilter.width PlateauFilter.sampleRate].
    rewrite INR_2048.
    replace (INR 929) with 929 by (rewrite INR_literal; reflexivity).
    rewrite Rltb_true; [reflexivity|].
    apply Rabs_def1; lra. }
  rewrite Hw, Hm. simpl. do 2 f_equal. ring.
Qed.

(** ** The narrow plateau on a stream *)

Lemma narrow_width : Rmax 2 (1 + 1) = 2.
Proof. apply Rmax_left. lra. Qed.

Lemma Rabs_ge_1 x : x <= -1 \/ 1 <= x -> 1 <= Rabs x.
Proof.
  intros H. unfold Rabs. destruct (Rcase_abs x); lra.
Qed.

(** No bin of the worklet's axis lies within 1 Hz of 11988.28125 Hz. *)
Lemma narrow_mask k :
  (0 < k < 2048)%nat ->
  Worklet.plateau (383625 / 32) (Rmax 2 (1 + 1)) 1
    (Worklet.freq_axis 48000 2048 k) = 0.
Proof.
  intros [Hlo Hhi]. rewrite narrow_width.
  pose proof (INR_below_2048 k Hhi) as Hk.
  assert (Hcase : forall n : nat, INR k <= IZR (Z.of_nat n)
                                  \/ IZR (Z.of_nat n) + 1 <= INR k).
  { intros n. rewrite <- INR_literal.
    destruct (Nat.le_gt_cases k n) as [H|H].
    - left. apply le_INR. exact H.
    - right. rewrite <- S_INR. apply le_INR. exact H. }
  assert (Hfar : 1 <= Rabs (Rabs (Worklet.freq_axis 48000 2048 k)
                            - 383625 / 32)).
  { unfold Worklet.freq_axis, Rleb. rewrite INR_2048.
    destruct (Rle_dec (INR k) (2048 / 2)) as [Hle|Hgt].
    - rewrite (Rabs_pos_eq (INR k * 48000 / 2048)) by lra.
      apply Rabs_ge_1.
      destruct (Hcase 511%nat) as [H|H]; simpl in H; [left|right]; lra.
    - rewrite (Rabs_left ((INR k - 2048) * 48000 / 2048)) by lra.
      apply Rabs_ge_1.
      destruct (Hcase 1536%nat) as [H|H]; simpl in H; [right|left]; lra. }
  unfold Worklet.plateau.
  rewrite Rltb_false by lra. rewrite Rltb_false by lra. reflexivity.
Qed.

(** So the worklet answers every stream with silence. *)
Lemma narrow_worklet_silent blocks :
  (forall block, In block blocks -> (length block <= 2048)%nat) ->
  fst (render 48000 Worklet.constructor narrow_params blocks)
  = map (fun block => repeat (Fin 0) (length block)) blocks.
Proof.
  intros Hlen.
  destruct (render_silent 48000 narrow_params 2048 blocks)
    with (this := Worklet.constructor) as (Hfst & _); auto.
  - intros st. simpl. lra.
  - intros st block _ _ HN. rewrite <- HN.
    apply (stopband_processed 48000 (Worklet.latch st narrow_params)).
    intros k Hk. change (Worklet.fftSize (Worklet.latch st narrow_params))
      with (Worklet.fftSize st) in *.
    rewrite HN in *. apply narrow_mask. exact Hk.
  - exact well_formed_constructor.
Qed.

Lemma narrow_fallback_sample :
  nth_error (PlateauFilter._processAudio narrow_filter
               (concat (impulse_stream 127)) (repeat (Fin 0) 2048))
            (7 * 128 + 127)
  = Some (Fin (Worklet.hanning 2048 1023)).
Proof.
  destruct (impulse_stream_flat 127 ltac:(lia)) as [Hlen Hone].
  rewrite (processAudio_sample narrow_filter _ _ (7 * 128 + 127) 1 Hone)
    by (rewrite repeat_length; lia).
  rewrite Hlen. change (7 * 128 + 127)%nat with 1023%nat.
  assert (Hw : PlateauFilter.window 2048 1023
               = Fin (Worklet.hanning 2048 1023))
    by reflexivity.
  assert (Hm : PlateauFilter._calculateMask narrow_filter
                 (INR 1023 * (PlateauFilter.sampleRate narrow_filter / 2)
                  / INR 2048) = Fin 1).
  { unfold PlateauFilter._calculateMask, narrow_filter.
    cbn [PlateauFilter.centerFreq PlateauFilter.flatWidth
         PlateauFilter.width PlateauFilter.sampleRate].
    rewrite INR_2048.
    replace (INR 1023) with 1023 by (rewrite INR_literal; reflexivity).
    rewrite Rltb_true; [reflexivity|].
    apply Rabs_def1; lra. }
  rewrite Hw, Hm. simpl. do 2 f_equal. ring.
Qed.

(** C2.  The two paths part, each fed the same stream of 2048 samples
    with its own block size (128 for the worklet, from a fresh processor;
    2048 for the fallback) and the same settings.  With the default
    settings at a gain of 1 and 44100 Hz, the 1 at sample 929 comes out of
    the worklet as at most 1/4 and out of the fallback as at least 1/2.
    With the narrow plateau the worklet is silent, and the 1 at sample 1023
    comes out of the fallback as at least 1/2.  The transforms of the
    fallback hand their argument back, so its mask, made for frequency
    bins, multiplies the samples. *)
Theorem fallback_diverges_from_worklet :
  (exists y,
      nth_error
        (nth 7 (fst (render 44100 Worklet.constructor default_params
                       (impulse_stream 33))) []) 33
      = Some (Fin y) /\ y <= 1/4) /\
  (exists y,
      nth_error (PlateauFilter._processAudio default_filter
                   (concat (impulse_stream 33)) (repeat (Fin 0) 2048))
                (7 * 128 + 33)
      = Some (Fin y) /\ 1/2 <= y) /\
  fst (render 48000 Worklet.constructor narrow_params (impulse_stream 127))
  = repeat (repeat (Fin 0) 128) 16 /\
  (exists y,
      nth_error (PlateauFilter._processAudio narrow_filter
                   (concat (impulse_stream 127)) (repeat (Fin 0) 2048))
                (7 * 128 + 127)
      = Some (Fin y) /\ 1/2 <= y).
Proof.
  split; [|split; [|split]].
  - destruct (render_impulse_stream 44100 default_params 33)
      as (st & Hwf & HN & Hov & Hblock).
    { intros st. simpl. lra. }
    rewrite Hblock.
    destruct (default_impulse_sample st (impulse_at 33 (127 - 33))
                (repeat (Fin 0) (length (impulse_at 33 (127 - 33)))) 33
                Hwf HN Hov) as (y & Hy & _ & Hup).
    + intros n _. apply impulse_at_window.
    + rewrite repeat_length. unfold impulse_at.
      rewrite length_app, repeat_length. simpl. lia.
    + exists y. split; [exact Hy|].
      pose proof (hanning_first_quarter 33 ltac:(lia)).
      pose proof (hanning_nonneg 2048 33). nra.
  - exists (Worklet.hanning 2048 929).
    split; [exact default_fallback_sample|].
    apply hanning_middle. lia.
  - rewrite narrow_worklet_silent.
    + reflexivity.
    + intros block Hin. unfold impulse_stream in Hin.
      rewrite !in_app_iff in Hin.
      destruct Hin as [Hin|[[<-|[]]|Hin]];
        try (apply repeat_spec in Hin; subst block; rewrite repeat_length; lia).
      unfold impulse_at. rewrite length_app, repeat_length. simpl. lia.
  - exists (Worklet.hanning 2048 1023).
    split; [exact narrow_fallback_sample|].
    apply hanning_middle. lia.
Qed.

(** * The transforms on every length *)

Lemma fft_throws x :
  length x <> 0%nat -> (forall m, length x <> (2 ^ m)%nat) ->
  fft x = Throw RangeError /\ ifft x = Throw RangeError.
Proof.
  remember (length x) as n eqn:Hn. revert x Hn.
  induction n as [n IH] using lt_wf_ind. intros x Hn H0 Hpow.
  rewrite fft_body, ifft_body, <- Hn.
  destruct (n <=? 1)%nat eqn:Hle.
  - apply Nat.leb_le in Hle. exfalso. apply (Hpow 0%nat). simpl. lia.
  - apply Nat.leb_gt in Hle.
    destruct (Nat.even n) eqn:Hev; [|split; reflexivity].
    apply Nat.even_spec in Hev. destruct Hev as [h Hh].
    assert (Hhalf : (n / 2 = h)%nat) by (rewrite Hh; apply half_double).
    destruct (IH h ltac:(lia) (evens x)) as [He He'].
    + rewrite length_evens, <- Hn. symmetry. exact Hhalf.
    + lia.
    + intros m Hm. apply (Hpow (S m)). rewrite Hh, Hm. simpl. lia.
    + rewrite He, He'. split; reflexivity.
Qed.

(** X1.  [fft] is the discrete Fourier transform: on an input of
    [2 ^ m] values it returns an array of the same length whose bin [k]
    is the sum over [n] of [x[n] * exp(-2 i PI k n / N)]. *)
Theorem fft_computes_dft (m : nat) (x : list Complex) :
  length x = (2 ^ m)%nat ->
  exists y,
    fft x = Normal y /\ length y = length x /\
    forall k, (k < length x)%nat ->
      nth k y Cx.zero =
      csum (length x)
        (fun n => Cx.multiply (nth n x Cx.zero)
                    (Cx.fromPolar 1
                       (-2 * PI * INR k * INR n / INR (length x)))).
Proof.
  intros Hx. exists (dft_list (-2 * PI) x).
  split; [exact (fft_is_dft m x Hx)|].
  split; [apply length_dft_list|].
  intros k Hk. unfold dft_list.
  rewrite (nth_map_seq (dft (-2 * PI) x) (length x) k Cx.zero Hk).
  reflexivity.
Qed.

Lemma fft_computes_dft_witness :
  exists y,
    fft [mkComplex 1 0; mkComplex 2 0] = Normal y /\ length y = 2%nat.
Proof.
  destruct (fft_computes_dft 1 [mkComplex 1 0; mkComplex 2 0] eq_refl)
    as (y & Hy & Hlen & _).
  exists y. split; [exact Hy|exact Hlen].
Defined.

(** X2.  [ifft] is the inverse transform with its [1/N] scale: on
    [2 ^ m] bins it returns an array of the same length whose sample [k]
    is [1/N] times the sum over [n] of [x[n] * exp(2 i PI k n / N)]. *)
Theorem ifft_computes_inverse_dft (m : nat) (x : list Complex) :
  length x = (2 ^ m)%nat ->
  exists y,
    ifft x = Normal y /\ length y = length x /\
    forall k, (k < length x)%nat ->
      nth k y Cx.zero =
      Cx.scale
        (csum (length x)
           (fun n => Cx.multiply (nth n x Cx.zero)
                       (Cx.fromPolar 1
                          (2 * PI * INR k * INR n / INR (length x)))))
        (/ INR (length x)).
Proof.
  intros Hx. exists (idft_list (2 * PI) x).
  split; [exact (ifft_is_idft m x Hx)|].
  split; [apply length_idft_list|].
  intros k Hk. unfold idft_list.
  rewrite (nth_map_seq
             (fun k => Cx.scale (dft (2 * PI) x k) (/ INR (length x)))
             (length x) k Cx.zero Hk).
  reflexivity.
Qed.

Lemma ifft_computes_inverse_dft_witness :
  exists y,
    ifft [mkComplex 1 0; mkComplex 2 0] = Normal y /\ length y = 2%nat.
Proof.
  destruct (ifft_computes_inverse_dft 1 [mkComplex 1 0; mkComplex 2 0] eq_refl)
    as (y & Hy & Hlen & _).
  exists y. split; [exact Hy|exact Hlen].
Defined.

(** X3.  [fft] and [ifft] throw a RangeError exactly on the
    lengths that are neither 0 nor a power of two; on every other length
    they return an array of the length of their argument. *)
Theorem fft_throws_exactly_off_powers_of_two (x : list Complex) :
  (fft x = Throw RangeError <->
   length x <> 0%nat /\ forall m, length x <> (2 ^ m)%nat) /\
  (ifft x = Throw RangeError <->
   length x <> 0%nat /\ forall m, length x <> (2 ^ m)%nat) /\
  (fft x <> Throw RangeError ->
   exists y z, fft x = Normal y /\ ifft x = Normal z /\
               length y = length x /\ length z = length x).
Proof.
  assert (Hret : forall x : list Complex,
             length x = 0%nat \/ (exists m, length x = (2 ^ m)%nat) ->
             fft x <> Throw RangeError /\ ifft x <> Throw RangeError).
  { intros x0 H.
    destruct (fft_returns x0 H) as (y & Hy & _).
    destruct (ifft_returns x0 H) as (z & Hz & _).
    rewrite Hy, Hz. split; discriminate. }
  assert (Hdec : forall n : nat,
             (n = 0%nat \/ exists m, n = (2 ^ m)%nat) \/
             (n <> 0%nat /\ forall m, n <> (2 ^ m)%nat)).
  { intros n. destruct (Nat.eq_dec n 0) as [->|Hn]; [left; left; reflexivity|].
    destruct (Nat.eq_dec n (2 ^ Nat.log2 n)) as [He|Hne].
    - left. right. exists (Nat.log2 n). exact He.
    - right. split; [exact Hn|]. intros m Hm. apply Hne.
      rewrite Hm at 2. rewrite Nat.log2_pow2 by lia. exact Hm. }
  split; [|split].
  - split.
    + intros Hthrow. destruct (Hdec (length x)) as [Hok|Hbad]; [|exact Hbad].
      destruct (Hret x Hok) as [Hf _]. contradiction.
    + intros [H0 Hpow]. apply (fft_throws x H0 Hpow).
  - split.
    + intros Hthrow. destruct (Hdec (length x)) as [Hok|Hbad]; [|exact Hbad].
      destruct (Hret x Hok) as [_ Hi]. contradiction.
    + intros [H0 Hpow]. apply (fft_throws x H0 Hpow).
  - intros Hno. destruct (Hdec (length x)) as [Hok|[H0 Hpow]].
    + destruct (fft_returns x Hok) as (y & Hy & Hly).
      destruct (ifft_returns x Hok) as (z & Hz & Hlz).
      exists y, z. repeat split; assumption.
    + exfalso. apply Hno. apply (fft_throws x H0 Hpow).
Qed.

(** * The masks *)

Lemma plateau_even centerFreq width flatWidth f :
  Worklet.plateau centerFreq width flatWidth (- f)
  = Worklet.plateau centerFreq width flatWidth f.
Proof. unfold Worklet.plateau. rewrite Rabs_Ropp. reflexivity. Qed.

Lemma freq_axis_mirror sampleRate size k :
  (0 < k < size)%nat ->
  Worklet.freq_axis sampleRate size (size - k)
  = - Worklet.freq_axis sampleRate size k \/
  Worklet.freq_axis sampleRate size (size - k)
  = Worklet.freq_axis sampleRate size k.
Proof.
  intros Hk. unfold Worklet.freq_axis.
  rewrite minus_INR by lia.
  assert (Hs : 0 < INR size) by (apply lt_0_INR; lia).
  destruct (Rtotal_order (INR k) (INR size / 2)) as [Hlt|[Heq|Hgt]].
  - rewrite (Rleb_true (INR k)) by lra.
    rewrite Rleb_false by lra. left. field. lra.
  - rewrite (Rleb_true (INR k)) by lra.
    rewrite Rleb_true by lra. right. rewrite Heq. field. lra.
  - rewrite (Rleb_false (INR k)) by lra.
    rewrite Rleb_true by lra. left. field. lra.
Qed.

Lemma worklet_mask_mirror sampleRate centerFreq width flatWidth size k :
  (0 < k < size)%nat ->
  nth (size - k)
      (Worklet.createPlateauFilterMask sampleRate centerFreq width flatWidth
         size) 0
  = nth k
      (Worklet.createPlateauFilterMask sampleRate centerFreq width flatWidth
         size) 0.
Proof.
  intros Hk.
  pose proof (worklet_mask_bin sampleRate centerFreq width flatWidth size
                (size - k) ltac:(lia)) as Ha.
  pose proof (worklet_mask_bin sampleRate centerFreq width flatWidth size
                k ltac:(lia)) as Hb.
  rewrite (nth_error_nth _ _ _ Ha), (nth_error_nth _ _ _ Hb).
  assert ((size - k =? 0)%nat = false) as -> by (apply Nat.eqb_neq; lia).
  assert ((k =? 0)%nat = false) as -> by (apply Nat.eqb_neq; lia).
  destruct (freq_axis_mirror sampleRate size k Hk) as [-> | ->].
  - apply plateau_even.
  - reflexivity.
Qed.

(** X5.  The mask of the worklet has [size] bins, each between 0 and 1,
    and is symmetric about the Nyquist bin: bins [k] and [size - k] hold
    the same value, so a positive frequency and its negative twin are
    scaled alike. *)
Theorem worklet_mask_symmetric sampleRate centerFreq width flatWidth size k :
  (0 < k < size)%nat ->
  let mask := Worklet.createPlateauFilterMask sampleRate centerFreq width
                flatWidth size in
  nth (size - k) mask 0 = nth k mask 0 /\
  length mask = size /\
  forall i, 0 <= nth i mask 0 <= 1.
Proof.
  intros Hk mask. split; [|split].
  - apply worklet_mask_mirror. exact Hk.
  - apply length_worklet_mask.
  - intros i. apply worklet_mask_bounds.
Qed.

Lemma worklet_mask_symmetric_witness :
  nth (8 - 3) (Worklet.createPlateauFilterMask 8000 3000 200 100 8) 0
  = nth 3 (Worklet.createPlateauFilterMask 8000 3000 200 100 8) 0.
Proof.
  apply (worklet_mask_symmetric 8000 3000 200 100 8 3). lia.
Defined.

(** X6.  The plateau never rises with the distance from the
    centre frequency: of two frequencies, the one farther from the centre
    (in absolute value of the frequency) gets the smaller or equal mask
    value.  It is 1 inside the flat band and 0 from half the width on. *)
Theorem plateau_decreases_with_distance centerFreq width flatWidth f1 f2 :
  Rabs (Rabs f1 - centerFreq) <= Rabs (Rabs f2 - centerFreq) ->
  Worklet.plateau centerFreq width flatWidth f2
  <= Worklet.plateau centerFreq width flatWidth f1 /\
  (Rabs (Rabs f1 - centerFreq) < flatWidth / 2 ->
   Worklet.plateau centerFreq width flatWidth f1 = 1) /\
  (flatWidth / 2 <= Rabs (Rabs f2 - centerFreq) ->
   width / 2 <= Rabs (Rabs f2 - centerFreq) ->
   Worklet.plateau centerFreq width flatWidth f2 = 0).
Proof.
  intros Hd. split; [|split].
  - pose proof (plateau_le_1 centerFreq width flatWidth f2) as Hle.
    pose proof (plateau_nonneg centerFreq width flatWidth f1) as Hge.
    unfold Worklet.plateau in *.
    set (d1 := Rabs (Rabs f1 - centerFreq)) in *.
    set (d2 := Rabs (Rabs f2 - centerFreq)) in *.
    cbv zeta in *.
    destruct (Rlt_dec d1 (flatWidth / 2)) as [H1|H1].
    { rewrite (Rltb_true d1) by exact H1. exact Hle. }
    rewrite (Rltb_false d1 (flatWidth / 2)) in * by lra.
    rewrite (Rltb_false d2 (flatWidth / 2)) in * by lra.
    destruct (Rlt_dec d2 (width / 2)) as [H2|H2].
    + rewrite (Rltb_true d2) in * by exact H2.
      rewrite (Rltb_true d1) in * by lra.
      assert (Hw : 0 < width / 2 - flatWidth / 2) by lra.
      assert (Hcos : cos (PI * (d2 - flatWidth / 2)
                          / (width / 2 - flatWidth / 2))
                     <= cos (PI * (d1 - flatWidth / 2)
                             / (width / 2 - flatWidth / 2))).
      { pose proof PI_RGT_0 as Hpi.
        assert (Hq : forall d, flatWidth / 2 <= d < width / 2 ->
                   0 <= PI * (d - flatWidth / 2)
                        / (width / 2 - flatWidth / 2) <= PI).
        { intros d Hdd.
          replace (PI * (d - flatWidth / 2) / (width / 2 - flatWidth / 2))
            with (PI * ((d - flatWidth / 2) / (width / 2 - flatWidth / 2)))
            by (field; lra).
          assert (0 <= (d - flatWidth / 2) / (width / 2 - flatWidth / 2) <= 1).
          { split.
            - apply Rmult_le_pos; [lra|].
              left. apply Rinv_0_lt_compat. exact Hw.
            - apply (Rmult_le_reg_r (width / 2 - flatWidth / 2)); [exact Hw|].
              unfold Rdiv at 1. rewrite Rmult_assoc, Rinv_l by lra. lra. }
          nra. }
        apply cos_decr_1; try apply Hq; try lra.
        unfold Rdiv. apply Rmult_le_compat_r.
        - left. apply Rinv_0_lt_compat. exact Hw.
        - apply Rmult_le_compat_l; lra. }
      lra.
    + rewrite (Rltb_false d2) by lra. exact Hge.
  - intros H1. unfold Worklet.plateau. cbv zeta.
    rewrite Rltb_true by exact H1. reflexivity.
  - intros H2 H3. unfold Worklet.plateau. cbv zeta.
    rewrite Rltb_false by lra. rewrite Rltb_false by lra. reflexivity.
Qed.

Lemma plateau_decreases_with_distance_witness :
  Worklet.plateau 10000 5000 2000 12000
  <= Worklet.plateau 10000 5000 2000 11500.
Proof.
  apply (plateau_decreases_with_distance 10000 5000 2000 11500 12000).
  rewrite !(Rabs_right 11500), !(Rabs_right 12000) by lra.
  rewrite !Rabs_right by lra. lra.
Defined.

Lemma calculateMask_plateau (this : PlateauFilter.t) freq :
  0 <= freq ->
  PlateauFilter.flatWidth this < PlateauFilter.width this ->
  PlateauFilter._calculateMask this freq
  = Fin (Worklet.plateau (PlateauFilter.centerFreq this)
           (PlateauFilter.width this) (PlateauFilter.flatWidth this) freq).
Proof.
  intros Hf Hw. unfold PlateauFilter._calculateMask, Worklet.plateau.
  cbv zeta. rewrite (Rabs_right freq) by lra.
  set (d := Rabs (freq - PlateauFilter.centerFreq this)).
  destruct (Rlt_dec d (PlateauFilter.flatWidth this / 2)) as [H1|H1].
  { rewrite !Rltb_true by exact H1. reflexivity. }
  rewrite !(Rltb_false d (PlateauFilter.flatWidth this / 2)) by lra.
  rewrite Reqb_false by lra.
  destruct (Rtotal_order d (PlateauFilter.width this / 2))
    as [H2|[H2|H2]].
  - rewrite Rleb_true, Rltb_true by lra. reflexivity.
  - rewrite Rleb_true, Rltb_false by lra. f_equal.
    rewrite H2.
    replace (PI * (PlateauFilter.width this / 2
                   - PlateauFilter.flatWidth this / 2)
             / (PlateauFilter.width this / 2
                - PlateauFilter.flatWidth this / 2))
      with PI by (field; lra).
    rewrite cos_PI. lra.
  - rewrite Rleb_false, Rltb_false by lra. reflexivity.
Qed.

(** X7.  On the non-negative frequencies that the fallback
    evaluates, [_calculateMask] gives the value of the worklet's plateau
    whenever [flatWidth < width]: the [<=] of its skirt test only adds the
    point where the raised cosine is 0.  Its division is [0/0] exactly
    when the two widths are equal and the frequency lies on the edge. *)
Theorem calculateMask_agrees_with_worklet (this : PlateauFilter.t) freq :
  0 <= freq ->
  (PlateauFilter.flatWidth this < PlateauFilter.width this ->
   PlateauFilter._calculateMask this freq
   = Fin (Worklet.plateau (PlateauFilter.centerFreq this)
            (PlateauFilter.width this) (PlateauFilter.flatWidth this) freq)) /\
  (PlateauFilter._calculateMask this freq = NaN <->
   PlateauFilter.width this = PlateauFilter.flatWidth this /\
   Rabs (freq - PlateauFilter.centerFreq this)
   = PlateauFilter.width this / 2).
Proof.
  intros Hf. split; [apply calculateMask_plateau; exact Hf|].
  unfold PlateauFilter._calculateMask. cbv zeta.
  set (d := Rabs (freq - PlateauFilter.centerFreq this)).
  assert (Hd : 0 <= d) by apply Rabs_pos.
  split.
  - intros HN.
    destruct (Rlt_dec d (PlateauFilter.flatWidth this / 2)) as [H1|H1].
    { rewrite Rltb_true in HN by exact H1. discriminate. }
    rewrite Rltb_false in HN by lra.
    destruct (Rle_dec d (PlateauFilter.width this / 2)) as [H2|H2].
    + rewrite Rleb_true in HN by exact H2.
      destruct (Req_dec_T (PlateauFilter.width this / 2
                           - PlateauFilter.flatWidth this / 2) 0)
        as [H3|H3].
      * split; lra.
      * rewrite Reqb_false in HN by exact H3. discriminate.
    + rewrite Rleb_false in HN by lra. discriminate.
  - intros (Hw & He).
    rewrite Rltb_false by lra. rewrite Rleb_true by lra.
    rewrite Reqb_true by lra. reflexivity.
Qed.

Lemma calculateMask_agrees_with_worklet_witness :
  PlateauFilter._calculateMask default_filter 11500
  = Fin (Worklet.plateau 10000 5000 2000 11500).
Proof.
  apply (calculateMask_agrees_with_worklet default_filter 11500).
  - lra.
  - simpl. lra.
Defined.

(** ** ftt.js against the worklet *)

Lemma for_range_store (g : nat -> R) a n (l : list R) j :
  nth_error (fold_left (fun acc i => store acc i (g i)) (seq a n) l) j =
  if ((a <=? j) && (j <? a + n))%nat
  then match nth_error l j with Some _ => Some (g j) | None => None end
  else nth_error l j.
Proof.
  induction n as [|n IH].
  - simpl. destruct (a <=? j)%nat eqn:E1; simpl; [|reflexivity].
    assert ((j <? a + 0)%nat = false) as ->
        by (apply Nat.ltb_ge; apply Nat.leb_le in E1; lia).
    reflexivity.
  - rewrite seq_S, fold_left_app. simpl fold_left.
    rewrite nth_error_store, IH.
    destruct (Nat.eqb_spec (a + n) j) as [<-|Hne].
    + assert ((a <=? a + n)%nat = true) as -> by (apply Nat.leb_le; lia).
      assert ((a + n <? a + n)%nat = false) as -> by (apply Nat.ltb_irrefl).
      assert ((a + n <? a + S n)%nat = true) as -> by (apply Nat.ltb_lt; lia).
      simpl. reflexivity.
    + destruct (a <=? j)%nat eqn:E1; simpl; [|reflexivity].
      destruct (j <? a + n)%nat eqn:E2.
      * assert ((j <? a + S n)%nat = true) as ->
            by (apply Nat.ltb_lt; apply Nat.ltb_lt in E2; lia).
        reflexivity.
      * assert ((j <? a + S n)%nat = false) as ->
            by (apply Nat.ltb_ge; apply Nat.ltb_ge in E2; lia).
        reflexivity.
Qed.

Lemma createFrequencyArray_cell n sampleRate j :
  nth_error (Ftt.createFrequencyArray n sampleRate) j =
  if (j <? n)%nat
  then Some (if (j <=? n / 2)%nat then INR j * (sampleRate / INR n)
             else (INR j - INR n) * (sampleRate / INR n))
  else None.
Proof.
  unfold Ftt.createFrequencyArray, for_range, for_loop. cbv zeta.
  rewrite !for_range_store.
  assert (Hrep : nth_error (repeat 0 n) j =
                 if (j <? n)%nat then Some 0 else None).
  { destruct (j <? n)%nat eqn:E.
    - apply Nat.ltb_lt in E. rewrite nth_error_repeat by exact E. reflexivity.
    - apply Nat.ltb_ge in E. apply nth_error_None. rewrite repeat_length.
      exact E. }
  rewrite Hrep. clear Hrep.
  pose proof (Nat.Div0.div_le_upper_bound n 2 n ltac:(lia)) as Hhalf.
  change (0 <=? j)%nat with true. cbn [andb Nat.add].
  destruct (Nat.ltb_spec j n) as [Ej|Ej];
    destruct (Nat.leb_spec j (n / 2)) as [Eh|Eh];
    destruct (Nat.leb_spec (n / 2 + 1) j) as [E1|E1];
    destruct (Nat.ltb_spec j (n / 2 + 1 + (n - (n / 2 + 1)))) as [E2|E2];
    destruct (Nat.ltb_spec j (n / 2 + 1)) as [E3|E3];
    cbn [andb]; try reflexivity; try lia.
Qed.

Lemma half_as_real j n :
  (j <=? n / 2)%nat = Rleb (INR j) (INR n / 2).
Proof.
  destruct (j <=? n / 2)%nat eqn:E.
  - apply Nat.leb_le in E. symmetry. apply Rleb_true.
    assert (2 * j <= n)%nat.
    { pose proof (Nat.Div0.mul_div_le n 2). lia. }
    apply le_INR in H. rewrite mult_INR in H. simpl in H. lra.
  - apply Nat.leb_gt in E. symmetry. apply Rleb_false.
    assert (n < 2 * j)%nat.
    { pose proof (Nat.div_mod_eq n 2).
      pose proof (Nat.mod_upper_bound n 2 ltac:(lia)). lia. }
    apply lt_INR in H. rewrite mult_INR in H. simpl in H. lra.
Qed.

Lemma createFrequencyArray_axis n sampleRate :
  Ftt.createFrequencyArray n sampleRate
  = map (Worklet.freq_axis sampleRate n) (seq 0 n).
Proof.
  apply nth_error_ext. intros j.
  rewrite createFrequencyArray_cell.
  destruct (j <? n)%nat eqn:Ej.
  - apply Nat.ltb_lt in Ej.
    rewrite (nth_error_map_seq (Worklet.freq_axis sampleRate n) n j Ej).
    unfold Worklet.freq_axis. rewrite <- half_as_real.
    f_equal. destruct (j <=? n / 2)%nat; unfold Rdiv; ring.
  - apply Nat.ltb_ge in Ej. symmetry. apply nth_error_None.
    rewrite length_map, length_seq. exact Ej.
Qed.

Lemma createFrequencyArray_length n sampleRate :
  length (Ftt.createFrequencyArray n sampleRate) = n.
Proof.
  rewrite createFrequencyArray_axis, length_map, length_seq. reflexivity.
Qed.

(** X8.  [createFrequencyArray] of ftt.js lays out the same
    folded frequency axis as the worklet's mask generator: cell [i] is
    [i * sampleRate / n] up to the middle and [(i - n) * sampleRate / n]
    after it, and the array has [n] cells. *)
Theorem createFrequencyArray_is_folded_axis (n : nat) (sampleRate : R) :
  Ftt.createFrequencyArray n sampleRate
  = map (Worklet.freq_axis sampleRate n) (seq 0 n) /\
  length (Ftt.createFrequencyArray n sampleRate) = n /\
  forall i, (i < n)%nat ->
    nth i (Ftt.createFrequencyArray n sampleRate) 0 =
    if (i <=? n / 2)%nat then INR i * sampleRate / INR n
    else (INR i - INR n) * sampleRate / INR n.
Proof.
  split; [apply createFrequencyArray_axis|]. split.
  - rewrite createFrequencyArray_axis, length_map, length_seq. reflexivity.
  - intros i Hi.
    pose proof (createFrequencyArray_cell n sampleRate i) as Hc.
    assert ((i <? n)%nat = true) as Hlt by (apply Nat.ltb_lt; exact Hi).
    rewrite Hlt in Hc. rewrite (nth_error_nth _ _ _ Hc).
    destruct (i <=? n / 2)%nat; unfold Rdiv; ring.
Qed.

Lemma ftt_plateau_bounds targetFreq width delta f :
  0 <= Ftt.plateau targetFreq width delta f <= 1.
Proof.
  unfold Ftt.plateau. cbv zeta.
  destruct (Rltb _ delta); [lra|].
  destruct (Rltb _ width); [|lra].
  pose proof (COS_bound (PI * (Rabs (Rabs f - targetFreq) - delta)
                         / (width - delta))).
  lra.
Qed.

(** X9.  The mask generator of ftt.js, which takes half widths,
    returns on its own frequency array the mask that the worklet builds
    from the full widths [2 * width] and [2 * delta]; every value of a
    mask lies between 0 and 1. *)
Theorem ftt_mask_is_worklet_mask n sampleRate targetFreq width delta mask :
  Ftt.createPlateauFilterMask (Ftt.createFrequencyArray n sampleRate)
    targetFreq width delta = Normal mask ->
  mask = Worklet.createPlateauFilterMask sampleRate targetFreq
           (2 * width) (2 * delta) n /\
  length mask = n /\
  forall i, 0 <= nth i mask 0 <= 1.
Proof.
  intros Hm. apply ftt_mask_returned in Hm. destruct Hm as [Hm _].
  assert (Heq : Ftt.createFrequencyArray n sampleRate
                = map (Worklet.freq_axis sampleRate n) (seq 0 n)).
  { apply createFrequencyArray_axis. }
  assert (Hmask : mask = Worklet.createPlateauFilterMask sampleRate targetFreq
                           (2 * width) (2 * delta) n).
  { rewrite Hm. unfold Worklet.createPlateauFilterMask. cbv zeta.
    rewrite Heq, length_map, length_seq. f_equal.
    apply map_ext. intros i.
    unfold Ftt.plateau, Worklet.plateau. cbv zeta.
    replace (2 * delta / 2) with delta by field.
    replace (2 * width / 2) with width by field.
    reflexivity. }
  split; [exact Hmask|]. split.
  - rewrite Hmask. apply length_worklet_mask.
  - intros i. rewrite Hmask. apply worklet_mask_bounds.
Qed.

Lemma ftt_mask_is_worklet_mask_witness :
  exists mask,
    Ftt.createPlateauFilterMask (Ftt.createFrequencyArray 2 44100)
      10000 5000 2000 = Normal mask /\
    mask = Worklet.createPlateauFilterMask 44100 10000 (2 * 5000) (2 * 2000) 2.
Proof.
  destruct ftt_mask_two_bins as [mask Hmask].
  exists mask. split; [exact Hmask|].
  apply (ftt_mask_is_worklet_mask 2 44100 10000 5000 2000 mask Hmask).
Defined.

(** * The worklet, block after block *)

Lemma process_output_shape sampleRate this inputs outputs parameters :
  let r := Worklet.process sampleRate this inputs outputs parameters in
  Worklet.r_outputs r = outputs \/
  exists output out channels rest,
    outputs = (output :: channels) :: rest /\
    Worklet.r_outputs r = (out :: channels) :: rest /\
    length out = length output.
Proof.
  unfold Worklet.process.
  destruct inputs as [|[|input ins] inputs]; try (left; reflexivity).
  destruct outputs as [|[|output channels] outputs]; try (left; reflexivity).
  destruct (Reqb _ 0).
  - right. eexists _, _, _, _. split; [reflexivity|].
    split; [reflexivity|].
    apply (length_for_loop_update (fun _ _ => Fin 0)).
  - destruct (fft _); try (left; reflexivity).
    destruct (ifft _); try (left; reflexivity).
    match goal with
    | |- context [Worklet.overlap_add ?n ?p ?o ?v] =>
        pose proof (proj1 (length_overlap_add n p o v)) as Hlen;
        destruct (Worklet.overlap_add n p o v) as [out ov]
    end.
    right. eexists _, _, _, _. split; [reflexivity|].
    split; [reflexivity|]. exact Hlen.
Qed.

Lemma process_params sampleRate this inputs outputs parameters :
  let r := Worklet.process sampleRate this inputs outputs parameters in
  let latched := Worklet.latch this parameters in
  Worklet.centerFreq (Worklet.r_this r) = Worklet.centerFreq latched /\
  Worklet.width (Worklet.r_this r) = Worklet.width latched /\
  Worklet.flatWidth (Worklet.r_this r) = Worklet.flatWidth latched /\
  Worklet.gain (Worklet.r_this r) = Worklet.gain latched /\
  Worklet.hanningWindow (Worklet.r_this r) = Worklet.hanningWindow this /\
  Worklet.fftBuffer (Worklet.r_this r) = Worklet.fftBuffer this /\
  Worklet.fftPosition (Worklet.r_this r) = Worklet.fftPosition this.
Proof.
  unfold Worklet.process.
  destruct inputs as [|[|input ins] inputs]; try (repeat split; reflexivity).
  destruct outputs as [|[|output channels] outputs];
    try (repeat split; reflexivity).
  destruct (Reqb _ 0); try (repeat split; reflexivity).
  destruct (fft _); try (repeat split; reflexivity).
  destruct (ifft _); try (repeat split; reflexivity).
  destruct (Worklet.overlap_add _ _ _ _). repeat split; reflexivity.
Qed.

Lemma process_completion sampleRate this inputs outputs parameters :
  well_formed this ->
  Worklet.r_completion
    (Worklet.process sampleRate this inputs outputs parameters)
  = if (negb (no_input inputs)
       && match outputs with [] => true | _ => false end)%bool
    then Throw TypeError else Normal true.
Proof.
  intros Hwf.
  destruct inputs as [|[|input ins] inputs]; try reflexivity.
  destruct outputs as [|[|output channels] outputs]; try reflexivity.
  destruct (Req_dec_T
              (Worklet.or_else (Worklet.p_gain parameters)
                 (Worklet.gain this)) 0)
    as [Hg|Hg].
  - rewrite process_gain_zero by assumption. reflexivity.
  - rewrite process_block by assumption. reflexivity.
Qed.

(** X10.  On a processor in the state that the constructor
    sets up and [process] maintains, [process] never throws out of a
    transform or a buffer access: it returns [true] whenever there is no
    input channel or the host hands over at least one output, and throws a
    TypeError only for an input with no output at all.  The processor it
    leaves is in such a state again, with the same transform size. *)
Theorem process_returns_true sampleRate this inputs outputs parameters :
  well_formed this ->
  let r := Worklet.process sampleRate this inputs outputs parameters in
  (no_input inputs = true \/ outputs <> [] ->
   Worklet.r_completion r = Normal true) /\
  (no_input inputs = false -> outputs = [] ->
   Worklet.r_completion r = Throw TypeError /\ Worklet.r_outputs r = []) /\
  well_formed (Worklet.r_this r) /\
  Worklet.fftSize (Worklet.r_this r) = Worklet.fftSize this.
Proof.
  intros Hwf r. unfold r.
  rewrite (process_completion sampleRate this inputs outputs parameters Hwf).
  split; [|split; [|split]].
  - intros [Hin|Hout].
    + rewrite Hin. reflexivity.
    + destruct outputs; [contradiction|].
      rewrite andb_false_r. reflexivity.
  - intros Hin ->. rewrite Hin. split; [reflexivity|].
    destruct inputs as [|[|input ins] inputs]; try discriminate.
    reflexivity.
  - apply process_keeps_well_formed. exact Hwf.
  - apply process_fftSize.
Qed.

Lemma process_returns_true_witness :
  Worklet.r_completion
    (Worklet.process 44100 Worklet.constructor [[[1; 2]]] [[[Fin 0; Fin 0]]]
       default_params) = Normal true.
Proof.
  apply (process_returns_true 44100 Worklet.constructor [[[1; 2]]]
           [[[Fin 0; Fin 0]]] default_params well_formed_constructor).
  right. discriminate.
Defined.

(** X11.  Whatever the state and the blocks, [process]
    writes to channel 0 of output 0 only: every other channel of every
    output is handed back as it came, and no block changes its length.
    It never touches the Hanning table, [fftBuffer] or [fftPosition]. *)
Theorem process_writes_first_channel_only
        sampleRate this inputs outputs parameters :
  let r := Worklet.process sampleRate this inputs outputs parameters in
  map (map (@length num)) (Worklet.r_outputs r)
  = map (map (@length num)) outputs /\
  (forall o c, (o <> 0 \/ c <> 0)%nat ->
     nth c (nth o (Worklet.r_outputs r) []) []
     = nth c (nth o outputs []) []) /\
  Worklet.hanningWindow (Worklet.r_this r) = Worklet.hanningWindow this /\
  Worklet.fftBuffer (Worklet.r_this r) = Worklet.fftBuffer this /\
  Worklet.fftPosition (Worklet.r_this r) = Worklet.fftPosition this.
Proof.
  cbv zeta.
  pose proof (process_params sampleRate this inputs outputs parameters)
    as (_ & _ & _ & _ & Hh & Hb & Hp).
  destruct (process_output_shape sampleRate this inputs outputs parameters)
    as [Heq|(output & out & channels & rest & Ho & Hr & Hlen)].
  - rewrite Heq. repeat split; auto.
  - subst outputs. rewrite Hr. split; [|split; [|auto]].
    + simpl. rewrite Hlen. reflexivity.
    + intros [|o] [|c] [H|H]; try reflexivity; contradiction.
Qed.

(** X12.  Over a whole stream of blocks the processor stays in the state
    the constructor sets up (a power-of-two transform size, buffers and
    Hanning table of that size), and the host gets one output block per
    input block, of the same length. *)
Theorem render_keeps_processor_well_formed sampleRate parameters blocks this :
  well_formed this ->
  well_formed (snd (render sampleRate this parameters blocks)) /\
  Worklet.fftSize (snd (render sampleRate this parameters blocks))
  = Worklet.fftSize this /\
  map (@length num) (fst (render sampleRate this parameters blocks))
  = map (@length R) blocks.
Proof.
  revert this. induction blocks as [|block blocks IH]; intros this Hwf.
  - simpl. auto.
  - cbn [render].
    set (r := Worklet.process sampleRate this [[block]]
                [[repeat (Fin 0) (length block)]] parameters).
    assert (Hwf' : well_formed (Worklet.r_this r))
      by (apply process_keeps_well_formed; exact Hwf).
    assert (HN : Worklet.fftSize (Worklet.r_this r) = Worklet.fftSize this)
      by apply process_fftSize.
    assert (Hlen : length (nth 0 (nth 0 (Worklet.r_outputs r) []) [])
                   = length block).
    { destruct (process_output_shape sampleRate this [[block]]
                  [[repeat (Fin 0) (length block)]] parameters)
        as [Heq|(output & out & channels & rest & Ho & Hr & Hlen)];
        fold r in Heq || fold r in Hr.
      - rewrite Heq. simpl. apply repeat_length.
      - rewrite Hr. simpl. injection Ho as <- _ _.
        rewrite Hlen. apply repeat_length. }
    clearbody r.
    destruct (IH (Worklet.r_this r) Hwf') as (Hw & Hs & Hl).
    destruct (render sampleRate (Worklet.r_this r) parameters blocks)
      as [outs final].
    cbn [fst snd map] in *. split; [exact Hw|]. split; [congruence|].
    f_equal; [exact Hlen|exact Hl].
Qed.

Lemma render_keeps_processor_well_formed_witness :
  well_formed
    (snd (render 44100 Worklet.constructor default_params [[1; 2]; [3; 4]])).
Proof.
  apply (render_keeps_processor_well_formed 44100 default_params
           [[1; 2]; [3; 4]] Worklet.constructor well_formed_constructor).
Defined.

(** X13.  Silence in, silence out: a block of zeros given to a
    processor whose overlap buffer holds zeros comes out as zeros,
    whatever the parameters, and leaves zeros in the overlap buffer. *)
Theorem silence_in_silence_out sampleRate this len ins inputs output channels
        outputs parameters :
  well_formed this ->
  Worklet.overlappedOutput this = repeat 0 (Worklet.fftSize this) ->
  (length output <= Worklet.fftSize this)%nat ->
  let r := Worklet.process sampleRate this ((repeat 0 len :: ins) :: inputs)
             ((output :: channels) :: outputs) parameters in
  Worklet.r_outputs r
    = (repeat (Fin 0) (length output) :: channels) :: outputs /\
  Worklet.overlappedOutput (Worklet.r_this r)
    = repeat 0 (Worklet.fftSize this) /\
  Worklet.r_completion r = Normal true.
Proof.
  intros Hwf Hov HB r. unfold r.
  destruct (Req_dec_T
              (Worklet.or_else (Worklet.p_gain parameters)
                 (Worklet.gain this)) 0)
    as [Hg|Hg].
  - rewrite bypass_keeps_overlap by exact Hg.
    rewrite process_gain_zero by exact Hg. auto.
  - destruct (silent_block sampleRate this (repeat 0 len) ins inputs output
                channels outputs parameters Hwf Hov Hg HB) as [Ho Hv].
    + apply (silence_processed sampleRate (Worklet.latch this parameters)).
      intros n. apply silence_window.
    + split; [exact Ho|]. split; [exact Hv|].
      rewrite process_block by assumption. reflexivity.
Qed.

Lemma silence_in_silence_out_witness :
  Worklet.r_outputs
    (Worklet.process 44100 Worklet.constructor [[repeat 0 128]]
       [[silent_output]] default_params)
  = [[repeat (Fin 0) (length silent_output)]].
Proof.
  apply (silence_in_silence_out 44100 Worklet.constructor 128 [] []
           silent_output [] [] default_params well_formed_constructor).
  - reflexivity.
  - rewrite length_silent_output. simpl. lia.
Defined.

(** X14.  Two blocks in a row, both of [B] samples with
    [2 * B <= N] and a gain other than 0: sample [i] of the second output
    block is sample [i] of the second processed frame plus sample [i + B]
    of the first processed frame, whatever the overlap buffer held
    before. *)
Theorem consecutive_blocks_overlap sampleRate this in1 in2 out1 out2 p1 p2 :
  well_formed this ->
  Worklet.or_else (Worklet.p_gain p1) (Worklet.gain this) <> 0 ->
  Worklet.or_else (Worklet.p_gain p2)
    (Worklet.or_else (Worklet.p_gain p1) (Worklet.gain this)) <> 0 ->
  length out2 = length out1 ->
  (2 * length out1 <= Worklet.fftSize this)%nat ->
  let r1 := Worklet.process sampleRate this [[in1]] [[out1]] p1 in
  let r2 := Worklet.process sampleRate (Worklet.r_this r1) [[in2]] [[out2]]
              p2 in
  let frame1 := Worklet.processedOutput (Worklet.r_this r1) in
  let frame2 := Worklet.processedOutput (Worklet.r_this r2) in
  exists out,
    Worklet.r_outputs r2 = [[out]] /\ length out = length out1 /\
    forall i, (i < length out1)%nat ->
      nth_error out i
      = Some (Fin (nth i frame2 0 + nth (i + length out1) frame1 0)).
Proof.
  intros Hwf Hg1 Hg2 Hlen HB r1 r2 frame1 frame2.
  pose proof (process_overlap_cells sampleRate this in1 [] [] out1 [] [] p1
                Hwf Hg1 ltac:(lia)) as H1.
  cbv zeta in H1. fold r1 in H1. fold frame1 in H1.
  destruct H1 as (_ & _ & _ & Hlo & _ & _).
  assert (Hwf1 : well_formed (Worklet.r_this r1))
    by (apply process_keeps_well_formed; exact Hwf).
  assert (HN : Worklet.fftSize (Worklet.r_this r1) = Worklet.fftSize this)
    by apply process_fftSize.
  assert (Hgain : Worklet.gain (Worklet.r_this r1)
                  = Worklet.or_else (Worklet.p_gain p1) (Worklet.gain this)).
  { pose proof (process_params sampleRate this [[in1]] [[out1]] p1)
      as (_ & _ & _ & Hg & _).
    fold r1 in Hg. rewrite Hg. apply latch_gain. }
  pose proof (process_overlap_cells sampleRate (Worklet.r_this r1) in2 [] []
                out2 [] [] p2 Hwf1) as H2.
  rewrite Hgain, HN in H2. specialize (H2 Hg2 ltac:(lia)).
  cbv zeta in H2. fold r2 in H2. fold frame2 in H2.
  destruct H2 as (_ & _ & (out & Hout & Hlo2 & Hadd) & _).
  exists out. split; [exact Hout|]. split; [congruence|].
  intros i Hi. rewrite Hadd by lia. do 2 f_equal.
  f_equal. apply (nth_error_nth _ _ 0). apply Hlo; lia.
Qed.

Lemma consecutive_blocks_overlap_witness :
  exists out,
    Worklet.r_outputs
      (Worklet.process 8000
         (Worklet.r_this
            (Worklet.process 8000 Worklet.constructor [[impulse_block]]
               [[silent_output]] (wide_params 1)))
         [[impulse_block]] [[silent_output]] (wide_params 1))
    = [[out]] /\ length out = length silent_output.
Proof.
  destruct (consecutive_blocks_overlap 8000 Worklet.constructor
              impulse_block impulse_block silent_output silent_output
              (wide_params 1) (wide_params 1) well_formed_constructor)
    as (out & Hout & Hlen & _).
  - simpl. lra.
  - simpl. lra.
  - reflexivity.
  - rewrite length_silent_output. simpl. lia.
  - exists out. split; [exact Hout|exact Hlen].
Defined.

(** X15.  The parameter arrays of a block override what a message
    has set: with all four parameters present, [process] after
    [handleMessage] does what [process] alone does.  A parameter that is
    absent from the arrays falls back to the value of the last message,
    and one absent from the message to the value held before. *)
Theorem parameters_override_message sampleRate this msg cf w fw g
        inputs outputs :
  Worklet.process sampleRate (Worklet.handleMessage this msg) inputs outputs
    (Worklet.mkAudioParams (Some cf) (Some w) (Some fw) (Some g))
  = Worklet.process sampleRate this inputs outputs
      (Worklet.mkAudioParams (Some cf) (Some w) (Some fw) (Some g)) /\
  let r := Worklet.process sampleRate (Worklet.handleMessage this msg)
             inputs outputs (Worklet.mkAudioParams None None None None) in
  Worklet.centerFreq (Worklet.r_this r)
  = Worklet.or_else (Worklet.p_centerFreq msg) (Worklet.centerFreq this) /\
  Worklet.flatWidth (Worklet.r_this r)
  = Worklet.or_else (Worklet.p_flatWidth msg) (Worklet.flatWidth this) /\
  Worklet.gain (Worklet.r_this r)
  = Worklet.or_else (Worklet.p_gain msg) (Worklet.gain this) /\
  Worklet.width (Worklet.r_this r)
  = Rmax (Worklet.or_else (Worklet.p_width msg) (Worklet.width this))
         (Worklet.or_else (Worklet.p_flatWidth msg) (Worklet.flatWidth this)
          + 1).
Proof.
  split; [reflexivity|]. intros r.
  pose proof (process_params sampleRate (Worklet.handleMessage this msg)
                inputs outputs (Worklet.mkAudioParams None None None None))
    as (Hc & Hw & Hf & Hg & _).
  fold r in Hc, Hw, Hf, Hg. rewrite Hc, Hw, Hf, Hg.
  repeat split; reflexivity.
Qed.

(** * The first sample of a block *)

Lemma hanning_0 size : Worklet.hanning size 0 = 0.
Proof.
  unfold Worklet.hanning. simpl INR.
  replace (2 * PI * 0 / (INR size - 1)) with 0 by (unfold Rdiv; ring).
  rewrite cos_0. ring.
Qed.

Lemma windowed_block_first N x0 x0' rest :
  windowed_block N (x0 :: rest) = windowed_block N (x0' :: rest).
Proof.
  unfold windowed_block. apply map_ext. intros [|i].
  - unfold window_sample. simpl. rewrite hanning_0. f_equal. ring.
  - reflexivity.
Qed.

(** X16.  The Hanning table starts at 0, so the first sample
    of an input block never reaches the output: two blocks that differ
    in their first sample only are processed alike, in the outputs and in
    the state that is left.  (For a transform size of 1 the first entry
    of the table is [0/0] in the code, hence the bound on the size.) *)
Theorem process_ignores_first_sample sampleRate this x0 x0' rest ins inputs
        outputs parameters :
  well_formed this ->
  (2 <= Worklet.fftSize this)%nat ->
  Worklet.process sampleRate this (((x0 :: rest) :: ins) :: inputs) outputs
    parameters
  = Worklet.process sampleRate this (((x0' :: rest) :: ins) :: inputs) outputs
      parameters.
Proof.
  intros Hwf _.
  destruct outputs as [|[|output channels] outputs]; try reflexivity.
  destruct (Req_dec_T
              (Worklet.or_else (Worklet.p_gain parameters)
                 (Worklet.gain this)) 0)
    as [Hg|Hg].
  - rewrite !process_gain_zero by exact Hg. reflexivity.
  - rewrite !process_block by assumption. cbv zeta.
    assert (HP : processed_block sampleRate (Worklet.latch this parameters)
                   (x0 :: rest)
                 = processed_block sampleRate (Worklet.latch this parameters)
                     (x0' :: rest)).
    { unfold processed_block, masked_spectrum.
      rewrite (windowed_block_first _ x0 x0' rest). reflexivity. }
    rewrite HP. reflexivity.
Qed.

Lemma process_ignores_first_sample_witness :
  Worklet.process 44100 Worklet.constructor [[[1; 2; 3]]] [[[Fin 0; Fin 0]]]
    default_params
  = Worklet.process 44100 Worklet.constructor [[[5; 2; 3]]] [[[Fin 0; Fin 0]]]
      default_params.
Proof.
  apply (process_ignores_first_sample 44100 Worklet.constructor 1 5 [2; 3]
           [] [] [[[Fin 0; Fin 0]]] default_params well_formed_constructor).
  simpl. lia.
Defined.

(** * Real blocks stay real *)

Lemma csum_conjugate n f :
  Cx.conjugate (csum n f) = csum n (fun k => Cx.conjugate (f k)).
Proof.
  induction n as [|n IH]; simpl.
  - cx_eq.
  - rewrite <- IH. cx_eq.
Qed.

Lemma csum_first n f :
  csum (S n) f = Cx.add (f 0%nat) (csum n (fun k => f (S k))).
Proof.
  induction n as [|n IH].
  - simpl. cx_eq.
  - change (csum (S (S n)) f) with (Cx.add (csum (S n) f) (f (S n))).
    rewrite IH. simpl. cx_eq.
Qed.

Lemma csum_reverse n f : csum n f = csum n (fun k => f (n - 1 - k)%nat).
Proof.
  induction n as [|n IH]; [reflexivity|].
  rewrite (csum_first n (fun k => f (S n - 1 - k)%nat)).
  change (csum (S n) f) with (Cx.add (csum n f) (f n)).
  replace (S n - 1 - 0)%nat with n by lia.
  rewrite IH.
  rewrite (csum_ext n (fun k => f (S n - 1 - S k)%nat)
                      (fun k => f (n - 1 - k)%nat)).
  - cx_eq.
  - intros k Hk. f_equal. lia.
Qed.

(** A sum whose terms pair up as conjugates is real. *)
Lemma hermitian_sum_real N (a : nat -> Complex) :
  imag (a 0%nat) = 0 ->
  (forall k, (0 < k < N)%nat -> a (N - k)%nat = Cx.conjugate (a k)) ->
  imag (csum N a) = 0.
Proof.
  destruct N as [|n]; [reflexivity|]. intros H0 Hsym.
  rewrite csum_first. simpl imag. rewrite H0.
  set (b := fun k => a (S k)).
  assert (Hb : csum n b = Cx.conjugate (csum n b)).
  { rewrite csum_conjugate. rewrite (csum_reverse n b) at 1.
    apply csum_ext. intros k Hk. unfold b.
    rewrite <- Hsym by lia. f_equal. lia. }
  apply (f_equal imag) in Hb. simpl in Hb. lra.
Qed.

Lemma cis_mirror c (N i k : nat) :
  (forall j : nat, cis (c * INR j) = mkComplex 1 0) ->
  (0 < k < N)%nat ->
  cis (c * INR i * INR (N - k) / INR N)
  = Cx.conjugate (cis (c * INR i * INR k / INR N)).
Proof.
  intros Hper Hk.
  assert (HN : INR N <> 0) by (apply not_0_INR; lia).
  rewrite minus_INR by lia.
  replace (c * INR i * (INR N - INR k) / INR N)
    with (c * INR i + - (c * INR i * INR k / INR N)) by (field; exact HN).
  rewrite cis_plus, Hper, cis_neg. cx_eq.
Qed.

(** The transform of a real block is conjugate symmetric. *)
Lemma dft_real_hermitian (u : list Complex) k :
  (forall n, imag (nth n u Cx.zero) = 0) ->
  (0 < k < length u)%nat ->
  dft (-2 * PI) u (length u - k) = Cx.conjugate (dft (-2 * PI) u k).
Proof.
  intros Hreal Hk. unfold dft. rewrite csum_conjugate.
  apply csum_ext. intros n Hn.
  replace (-2 * PI * INR (length u - k) * INR n / INR (length u))
    with (-2 * PI * INR n * INR (length u - k) / INR (length u))
    by (unfold Rdiv; ring).
  rewrite (cis_mirror (-2 * PI) (length u) n k cis_period_neg Hk).
  replace (-2 * PI * INR k * INR n / INR (length u))
    with (-2 * PI * INR n * INR k / INR (length u))
    by (unfold Rdiv; ring).
  specialize (Hreal n).
  apply Complex_eq; simpl; rewrite Hreal; ring.
Qed.

(** The inverse transform of a conjugate-symmetric spectrum, scaled by a
    symmetric real mask that is 0 at bin 0, is real. *)
Lemma masked_inverse_real (X : nat -> Complex) (s : nat -> R) (N i : nat) :
  s 0%nat = 0 ->
  (forall k, (0 < k < N)%nat -> s (N - k)%nat = s k) ->
  (forall k, (0 < k < N)%nat -> X (N - k)%nat = Cx.conjugate (X k)) ->
  imag (csum N (fun k => Cx.multiply (Cx.scale (X k) (s k))
                           (cis (2 * PI * INR i * INR k / INR N)))) = 0.
Proof.
  intros Hs0 Hs HX.
  apply (hermitian_sum_real N
           (fun k => Cx.multiply (Cx.scale (X k) (s k))
                       (cis (2 * PI * INR i * INR k / INR N)))).
  - rewrite Hs0. simpl. ring.
  - intros k Hk.
    rewrite (cis_mirror (2 * PI) N i k cis_period_pos Hk).
    rewrite Hs, HX by exact Hk. cx_eq.
Qed.

Lemma of_reals_imag xs n : imag (nth n (of_reals xs) Cx.zero) = 0.
Proof.
  unfold of_reals.
  destruct (nth_error (map (fun r => mkComplex r 0) xs) n) as [c|] eqn:E.
  - rewrite (nth_error_nth _ _ _ E).
    apply nth_error_In, in_map_iff in E. destruct E as (r & <- & _).
    reflexivity.
  - apply nth_error_None in E. rewrite nth_overflow by exact E. reflexivity.
Qed.

Lemma csum_imag_zero n f :
  (forall k, (k < n)%nat -> imag (f k) = 0) -> imag (csum n f) = 0.
Proof.
  induction n as [|n IH]; intros H; simpl; [reflexivity|].
  rewrite IH, H by auto with arith. ring.
Qed.

(** X4.  The transform of a block of real samples is conjugate
    symmetric: bin [N - k] of [fft] is the conjugate of bin [k], and bin 0
    is real. *)
Theorem fft_of_real_is_conjugate_symmetric (m : nat) (xs : list R) :
  length xs = (2 ^ m)%nat ->
  exists y,
    fft (of_reals xs) = Normal y /\
    imag (nth 0 y Cx.zero) = 0 /\
    forall k, (0 < k < length xs)%nat ->
      nth (length xs - k) y Cx.zero = Cx.conjugate (nth k y Cx.zero).
Proof.
  intros Hlen.
  assert (Hl : length (of_reals xs) = length xs)
    by (unfold of_reals; apply length_map).
  exists (dft_list (-2 * PI) (of_reals xs)). split.
  - apply (fft_is_dft m). rewrite Hl. exact Hlen.
  - pose proof (pow2_pos m) as Hpos. unfold dft_list. rewrite Hl. split.
    + rewrite (nth_map_seq (dft (-2 * PI) (of_reals xs)) (length xs) 0 Cx.zero)
        by lia.
      unfold dft. apply csum_imag_zero. intros n _.
      replace (-2 * PI * INR 0 * INR n / INR (length (of_reals xs))) with 0
        by (simpl; unfold Rdiv; ring).
      rewrite cis_0, multiply_1_r. apply of_reals_imag.
    + intros k Hk.
      rewrite !(nth_map_seq (dft (-2 * PI) (of_reals xs)) (length xs) _ Cx.zero)
        by lia.
      rewrite <- Hl.
      apply dft_real_hermitian; [apply of_reals_imag|lia].
Qed.

Lemma fft_of_real_is_conjugate_symmetric_witness :
  exists y, fft (of_reals [1; 2; 3; 4]) = Normal y /\
            nth (4 - 1) y Cx.zero = Cx.conjugate (nth 1 y Cx.zero).
Proof.
  destruct (fft_of_real_is_conjugate_symmetric 2 [1; 2; 3; 4] eq_refl)
    as (y & Hy & _ & Hsym).
  exists y. split; [exact Hy|]. apply (Hsym 1%nat). simpl. lia.
Defined.

(** X17.  In the frame pipeline of [process] the inverse
    transform of the masked spectrum has no imaginary part: the block is
    real and the mask symmetric, so keeping [ifftOutput[i].real] alone
    drops nothing. *)
Theorem worklet_inverse_transform_is_real sampleRate
        (this : Worklet.PlateauProcessor) (input : list R) :
  well_formed this ->
  exists fftOutput ifftOutput,
    fft (Worklet.windowed_input this input) = Normal fftOutput /\
    ifft (Worklet.apply_mask this
            (Worklet.createPlateauFilterMask sampleRate
               (Worklet.centerFreq this) (Worklet.width this)
               (Worklet.flatWidth this) (Worklet.fftSize this))
            fftOutput) = Normal ifftOutput /\
    length ifftOutput = Worklet.fftSize this /\
    forall i, imag (nth i ifftOutput Cx.zero) = 0.
Proof.
  intros Hwf. pose proof Hwf as ((m & Hm) & _).
  set (N := Worklet.fftSize this) in *.
  set (u := windowed_block N input).
  set (mask := Worklet.createPlateauFilterMask sampleRate
                 (Worklet.centerFreq this) (Worklet.width this)
                 (Worklet.flatWidth this) N).
  assert (Hu : length u = N) by apply length_windowed_block.
  assert (HNpos : (0 < N)%nat) by (rewrite Hm; apply pow2_pos).
  set (V := map (fun k => Cx.scale (nth k (dft_list (-2 * PI) u) Cx.zero)
                            (nth k mask 0 * Worklet.gain this))
                (seq 0 N)).
  assert (HV : length V = N)
    by (unfold V; rewrite length_map, length_seq; reflexivity).
  exists (dft_list (-2 * PI) u), (idft_list (2 * PI) V).
  split; [|split; [|split]].
  - rewrite (windowed_input_block this Hwf). fold N. fold u.
    apply (fft_is_dft m). rewrite Hu. exact Hm.
  - rewrite (apply_mask_block this)
      by (rewrite length_dft_list; exact Hu).
    fold N. fold V. apply (ifft_is_idft m). rewrite HV. exact Hm.
  - rewrite length_idft_list. exact HV.
  - intros i. destruct (Nat.lt_ge_cases i N) as [Hi|Hi].
    + unfold idft_list. rewrite HV.
      rewrite (nth_map_seq
                 (fun k => Cx.scale (dft (2 * PI) V k) (/ INR N))
                 N i Cx.zero Hi).
      simpl. apply Rmult_eq_0_compat_r.
      unfold dft. rewrite HV.
      rewrite (csum_ext N _
                 (fun k => Cx.multiply
                             (Cx.scale (dft (-2 * PI) u k)
                                       (nth k mask 0 * Worklet.gain this))
                             (cis (2 * PI * INR i * INR k / INR N)))).
      * apply (masked_inverse_real (dft (-2 * PI) u)
                 (fun k => nth k mask 0 * Worklet.gain this) N i).
        -- pose proof (worklet_mask_bin sampleRate (Worklet.centerFreq this)
                         (Worklet.width this) (Worklet.flatWidth this) N 0
                         HNpos) as H0.
           fold mask in H0. rewrite (nth_error_nth _ _ _ H0). simpl. ring.
        -- intros k Hk. f_equal. apply worklet_mask_mirror. exact Hk.
        -- intros k Hk. rewrite <- Hu.
           apply dft_real_hermitian; [|rewrite Hu; exact Hk].
           intros n. unfold u, windowed_block.
           destruct (Nat.lt_ge_cases n N) as [Hn|Hn].
           ++ rewrite (nth_map_seq
                         (fun i => mkComplex (window_sample N input i) 0)
                         N n Cx.zero Hn).
              reflexivity.
           ++ rewrite nth_overflow
                by (rewrite length_map, length_seq; exact Hn).
              reflexivity.
      * intros k Hk. unfold V.
        rewrite (nth_map_seq
                   (fun k => Cx.scale (nth k (dft_list (-2 * PI) u) Cx.zero)
                               (nth k mask 0 * Worklet.gain this))
                   N k Cx.zero Hk).
        unfold dft_list. rewrite Hu.
        rewrite (nth_map_seq (dft (-2 * PI) u) N k Cx.zero Hk).
        reflexivity.
    + rewrite nth_overflow
        by (rewrite length_idft_list, HV; exact Hi).
      reflexivity.
Qed.

Lemma worklet_inverse_transform_is_real_witness :
  exists fftOutput,
    fft (Worklet.windowed_input Worklet.constructor impulse_block)
    = Normal fftOutput.
Proof.
  destruct (worklet_inverse_transform_is_real 44100 Worklet.constructor
              impulse_block well_formed_constructor)
    as (fftOutput & _ & Hfft & _).
  exists fftOutput. exact Hfft.
Defined.

(** * The gain is a linear control *)

Lemma nth_map_Rmult g l i : nth i (map (Rmult g) l) 0 = g * nth i l 0.
Proof.
  replace 0 with (g * 0) at 1 by ring. apply (map_nth (Rmult g)).
Qed.

Lemma processed_block_gain sampleRate (a b : Worklet.PlateauProcessor) g input :
  Worklet.fftSize a = Worklet.fftSize b ->
  Worklet.centerFreq a = Worklet.centerFreq b ->
  Worklet.width a = Worklet.width b ->
  Worklet.flatWidth a = Worklet.flatWidth b ->
  Worklet.gain a = g * Worklet.gain b ->
  processed_block sampleRate a input
  = map (Rmult g) (processed_block sampleRate b input).
Proof.
  intros HN Hc Hw Hf Hg.
  assert (HV : masked_spectrum sampleRate a input
               = map (fun c => Cx.scale c g)
                     (masked_spectrum sampleRate b input)).
  { unfold masked_spectrum. rewrite HN, Hc, Hw, Hf, Hg, map_map.
    apply map_ext. intros k. cx_eq. }
  unfold processed_block. rewrite HV, HN, map_map.
  apply map_ext. intros i. rewrite dft_scale. simpl. ring.
Qed.

Section GainLinear.

Variable sampleRate : R.
Variables cf w fw : option R.

Local Abbreviation params_at g := (Worklet.mkAudioParams cf w fw (Some g)).

Lemma gain_block g block (sg s1 : Worklet.PlateauProcessor) :
  g <> 0 ->
  well_formed sg -> well_formed s1 ->
  Worklet.fftSize sg = Worklet.fftSize s1 ->
  Worklet.centerFreq sg = Worklet.centerFreq s1 ->
  Worklet.width sg = Worklet.width s1 ->
  Worklet.flatWidth sg = Worklet.flatWidth s1 ->
  Worklet.overlappedOutput sg = map (Rmult g) (Worklet.overlappedOutput s1) ->
  (length block <= Worklet.fftSize s1)%nat ->
  let rg := Worklet.process sampleRate sg [[block]]
              [[repeat (Fin 0) (length block)]] (params_at g) in
  let r1 := Worklet.process sampleRate s1 [[block]]
              [[repeat (Fin 0) (length block)]] (params_at 1) in
  nth 0 (nth 0 (Worklet.r_outputs rg) []) []
  = map (nmul (Fin g)) (nth 0 (nth 0 (Worklet.r_outputs r1) []) []) /\
  Worklet.overlappedOutput (Worklet.r_this rg)
  = map (Rmult g) (Worklet.overlappedOutput (Worklet.r_this r1)) /\
  Worklet.centerFreq (Worklet.r_this rg)
  = Worklet.centerFreq (Worklet.r_this r1) /\
  Worklet.width (Worklet.r_this rg) = Worklet.width (Worklet.r_this r1) /\
  Worklet.flatWidth (Worklet.r_this rg)
  = Worklet.flatWidth (Worklet.r_this r1).
Proof.
  intros Hg Hwfg Hwf1 HN Hc Hw Hf Hov HB rg r1.
  assert (Hg' : Worklet.or_else (Worklet.p_gain (params_at g))
                  (Worklet.gain sg) <> 0) by exact Hg.
  assert (H1' : Worklet.or_else (Worklet.p_gain (params_at 1))
                  (Worklet.gain s1) <> 0) by (simpl; lra).
  set (output := repeat (Fin 0) (length block)).
  assert (Hlo : length output = length block) by apply repeat_length.
  assert (HP : Worklet.processedOutput (Worklet.r_this rg)
               = map (Rmult g) (Worklet.processedOutput (Worklet.r_this r1))).
  { unfold rg, r1. rewrite !process_processedOutput by assumption.
    apply processed_block_gain; simpl; try assumption; try congruence.
    ring. }
  pose proof (process_overlap_cells sampleRate sg block [] [] output [] []
                (params_at g) Hwfg Hg') as Hcg.
  rewrite Hlo, HN in Hcg. specialize (Hcg HB). cbv zeta in Hcg.
  fold output in rg. fold rg in Hcg.
  pose proof (process_overlap_cells sampleRate s1 block [] [] output [] []
                (params_at 1) Hwf1 H1') as Hc1.
  rewrite Hlo in Hc1. specialize (Hc1 HB). cbv zeta in Hc1.
  fold output in r1. fold r1 in Hc1.
  destruct Hcg as (_ & _ & (og & Hog & Hlg & Haddg) & Hlog & Hhig & Holdg).
  destruct Hc1 as (_ & _ & (o1 & Ho1 & Hl1 & Hadd1) & Hlo1 & Hhi1 & Hold1).
  rewrite HP in *. rewrite Hov in *.
  pose proof (process_params sampleRate sg [[block]] [[output]]
                (params_at g)) as (Pc & Pw & Pf & _).
  pose proof (process_params sampleRate s1 [[block]] [[output]]
                (params_at 1)) as (Qc & Qw & Qf & _).
  fold rg in Pc, Pw, Pf. fold r1 in Qc, Qw, Qf.
  split; [|split; [|split; [|split]]].
  - rewrite Hog, Ho1. cbn [nth]. apply nth_error_ext. intros j.
    rewrite nth_error_map.
    destruct (Nat.lt_ge_cases j (length block)) as [Hj|Hj].
    + rewrite Haddg, Hadd1 by exact Hj. simpl.
      rewrite !nth_map_Rmult. do 2 f_equal. ring.
    + assert (nth_error og j = None) as -> by (apply nth_error_None; lia).
      assert (nth_error o1 j = None) as -> by (apply nth_error_None; lia).
      reflexivity.
  - apply nth_error_ext. intros j. rewrite nth_error_map.
    destruct (Nat.lt_ge_cases j (length block)) as [Hj|Hj].
    + destruct (Nat.lt_ge_cases (j + length block) (Worklet.fftSize s1))
        as [Hs|Hs].
      * rewrite Hlog, Hlo1 by assumption. simpl.
        rewrite nth_map_Rmult. reflexivity.
      * rewrite Hhig, Hhi1 by assumption. simpl. f_equal. ring.
    + rewrite Holdg, Hold1 by assumption. apply nth_error_map.
  - rewrite Pc, Qc. simpl. rewrite Hc. reflexivity.
  - rewrite Pw, Qw. simpl. rewrite Hw, Hf. reflexivity.
  - rewrite Pf, Qf. simpl. rewrite Hf. reflexivity.
Qed.

Lemma gain_render g blocks :
  g <> 0 ->
  forall sg s1 : Worklet.PlateauProcessor,
    well_formed sg -> well_formed s1 ->
    Worklet.fftSize sg = Worklet.fftSize s1 ->
    Worklet.centerFreq sg = Worklet.centerFreq s1 ->
    Worklet.width sg = Worklet.width s1 ->
    Worklet.flatWidth sg = Worklet.flatWidth s1 ->
    Worklet.overlappedOutput sg
    = map (Rmult g) (Worklet.overlappedOutput s1) ->
    (forall block, In block blocks ->
       (length block <= Worklet.fftSize s1)%nat) ->
    fst (render sampleRate sg (params_at g) blocks)
    = map (map (nmul (Fin g)))
          (fst (render sampleRate s1 (params_at 1) blocks)).
Proof.
  intros Hg. induction blocks as [|block blocks IH];
    intros sg s1 Hwfg Hwf1 HN Hc Hw Hf Hov Hlen; [reflexivity|].
  cbn [render].
  destruct (gain_block g block sg s1 Hg Hwfg Hwf1 HN Hc Hw
              Hf Hov (Hlen block (or_introl eq_refl)))
    as (Hout & Hov' & Hc' & Hw' & Hf').
  set (rg := Worklet.process sampleRate sg [[block]]
               [[repeat (Fin 0) (length block)]] (params_at g)) in *.
  set (r1 := Worklet.process sampleRate s1 [[block]]
               [[repeat (Fin 0) (length block)]] (params_at 1)) in *.
  assert (HNg : Worklet.fftSize (Worklet.r_this rg) = Worklet.fftSize sg)
    by apply process_fftSize.
  assert (HN1 : Worklet.fftSize (Worklet.r_this r1) = Worklet.fftSize s1)
    by apply process_fftSize.
  specialize (IH (Worklet.r_this rg) (Worklet.r_this r1)
                 (process_keeps_well_formed _ _ _ _ _ Hwfg)
                 (process_keeps_well_formed _ _ _ _ _ Hwf1)
                 ltac:(congruence) Hc' Hw' Hf' Hov').
  rewrite HN1 in IH. specialize (IH (fun b Hb => Hlen b (or_intror Hb))).
  clearbody rg r1.
  destruct (render sampleRate (Worklet.r_this rg) _ blocks) as [og fg].
  destruct (render sampleRate (Worklet.r_this r1) _ blocks) as [o1 f1].
  cbn [fst map] in *. rewrite Hout, IH. reflexivity.
Qed.

Lemma zero_gain_render blocks :
  forall s0 s1 : Worklet.PlateauProcessor,
    well_formed s1 ->
    (forall block, In block blocks ->
       (length block <= Worklet.fftSize s1)%nat) ->
    fst (render sampleRate s0 (params_at 0) blocks)
    = map (map (nmul (Fin 0)))
          (fst (render sampleRate s1 (params_at 1) blocks)).
Proof.
  induction blocks as [|block blocks IH]; intros s0 s1 Hwf1 Hlen;
    [reflexivity|].
  cbn [render].
  set (output := repeat (Fin 0) (length block)).
  assert (Hlo : length output = length block) by apply repeat_length.
  assert (H0 : Worklet.r_outputs
                 (Worklet.process sampleRate s0 [[block]] [[output]]
                    (params_at 0))
               = [[repeat (Fin 0) (length block)]]).
  { rewrite process_gain_zero by reflexivity. cbn [Worklet.r_outputs].
    rewrite Hlo. reflexivity. }
  assert (H1' : Worklet.or_else (Worklet.p_gain (params_at 1))
                  (Worklet.gain s1) <> 0) by (simpl; lra).
  pose proof (process_overlap_cells sampleRate s1 block [] [] output [] []
                (params_at 1) Hwf1 H1') as Hc1.
  rewrite Hlo in Hc1.
  specialize (Hc1 (Hlen block (or_introl eq_refl))). cbv zeta in Hc1.
  destruct Hc1 as (_ & _ & (o1 & Ho1 & Hl1 & Hadd1) & _).
  set (r0 := Worklet.process sampleRate s0 [[block]] [[output]]
               (params_at 0)) in *.
  set (r1 := Worklet.process sampleRate s1 [[block]] [[output]]
               (params_at 1)) in *.
  assert (HN1 : Worklet.fftSize (Worklet.r_this r1) = Worklet.fftSize s1)
    by apply process_fftSize.
  specialize (IH (Worklet.r_this r0) (Worklet.r_this r1)
                 (process_keeps_well_formed _ _ _ _ _ Hwf1)).
  rewrite HN1 in IH. specialize (IH (fun b Hb => Hlen b (or_intror Hb))).
  clearbody r0 r1.
  destruct (render sampleRate (Worklet.r_this r0) _ blocks) as [og fg].
  destruct (render sampleRate (Worklet.r_this r1) _ blocks) as [o1' f1].
  cbn [fst map] in *. rewrite H0, Ho1, IH. cbn [nth]. f_equal.
  apply nth_error_ext. intros j. rewrite nth_error_map.
  destruct (Nat.lt_ge_cases j (length block)) as [Hj|Hj].
  - rewrite Hadd1, nth_error_repeat by exact Hj. simpl.
    do 2 f_equal. ring.
  - assert (nth_error o1 j = None) as -> by (apply nth_error_None; lia).
    apply nth_error_None. rewrite repeat_length. exact Hj.
Qed.

End GainLinear.

(** X18.  The gain scales the whole output stream: from a
    processor with an empty overlap buffer, the stream rendered at gain
    [g] is [g] times the stream rendered at gain 1, sample by sample,
    for the same blocks and the same other parameters. *)
Theorem gain_scales_stream sampleRate this cf w fw g blocks :
  well_formed this ->
  Worklet.overlappedOutput this = repeat 0 (Worklet.fftSize this) ->
  (forall block, In block blocks ->
     (length block <= Worklet.fftSize this)%nat) ->
  fst (render sampleRate this (Worklet.mkAudioParams cf w fw (Some g)) blocks)
  = map (map (nmul (Fin g)))
        (fst (render sampleRate this
                (Worklet.mkAudioParams cf w fw (Some 1)) blocks)).
Proof.
  intros Hwf Hov Hlen.
  destruct (Req_dec_T g 0) as [->|Hg].
  - apply (zero_gain_render sampleRate cf w fw blocks this this Hwf Hlen).
  - apply (gain_render sampleRate cf w fw g blocks Hg this this); auto.
    rewrite Hov, map_repeat. f_equal. ring.
Qed.

Lemma gain_scales_stream_witness :
  fst (render 44100 Worklet.constructor
         (Worklet.mkAudioParams None None None (Some 3)) [[1; 2]; [3; 4]])
  = map (map (nmul (Fin 3)))
        (fst (render 44100 Worklet.constructor
                (Worklet.mkAudioParams None None None (Some 1))
                [[1; 2]; [3; 4]])).
Proof.
  apply (gain_scales_stream 44100 Worklet.constructor None None None 3
           [[1; 2]; [3; 4]] well_formed_constructor).
  - reflexivity.
  - intros block [<-|[<-|[]]]; simpl; lia.
Defined.

(** * The fallback filter object *)






(** X20.  To move a filter with [flatWidth + 1 <= width] to a
    target pair with [fw + 1 <= w], the order of the two setters matters:
    flat width first reaches the target when [fw <= width - 1], width
    first when [flatWidth + 1 <= w], and at least one of the two orders
    always does.  The other order can stop short: width first leaves
    [width = flatWidth + 1] when [w] is below the old flat width plus 1. *)
Theorem setters_reach_target_in_some_order (this : PlateauFilter.t) w fw :
  PlateauFilter.flatWidth this + 1 <= PlateauFilter.width this ->
  fw + 1 <= w ->
  let a := PlateauFilter.setWidth (PlateauFilter.setFlatWidth this fw) w in
  let b := PlateauFilter.setFlatWidth (PlateauFilter.setWidth this w) fw in
  (fw <= PlateauFilter.width this - 1 ->
   PlateauFilter.width a = w /\ PlateauFilter.flatWidth a = fw) /\
  (PlateauFilter.flatWidth this + 1 <= w ->
   PlateauFilter.width b = w /\ PlateauFilter.flatWidth b = fw) /\
  ((PlateauFilter.width a = w /\ PlateauFilter.flatWidth a = fw) \/
   (PlateauFilter.width b = w /\ PlateauFilter.flatWidth b = fw)) /\
  (w < PlateauFilter.flatWidth this + 1 ->
   PlateauFilter.width b = PlateauFilter.flatWidth this + 1 /\
   PlateauFilter.width b <> w).
Proof.
  intros Hold Hnew a b.
  destruct (setFlatWidth_flatWidth this fw) as [Hf1 Hw1].
  destruct (setWidth_width (PlateauFilter.setFlatWidth this fw) w)
    as [Hw2 Hf2].
  destruct (setWidth_width this w) as [Hw3 Hf3].
  destruct (setFlatWidth_flatWidth (PlateauFilter.setWidth this w) fw)
    as [Hf4 Hw4].
  fold a in Hw2, Hf2. fold b in Hf4, Hw4.
  rewrite Hf1 in Hw2, Hf2. rewrite Hw3 in Hf4, Hw4.
  assert (Ha : fw <= PlateauFilter.width this - 1 ->
               PlateauFilter.width a = w /\ PlateauFilter.flatWidth a = fw).
  { intros H. rewrite Hw2, Hf2. rewrite Rmin_left by exact H.
    rewrite Rmax_left by lra. auto. }
  assert (Hb : PlateauFilter.flatWidth this + 1 <= w ->
               PlateauFilter.width b = w /\ PlateauFilter.flatWidth b = fw).
  { intros H. rewrite Hw4, Hf4. rewrite Rmax_left by exact H.
    rewrite Rmin_left by lra. auto. }
  split; [exact Ha|]. split; [exact Hb|]. split.
  - destruct (Rle_dec fw (PlateauFilter.width this - 1)) as [H|H].
    + left. apply Ha. exact H.
    + right. apply Hb. lra.
  - intros H. rewrite Hw4. rewrite Rmax_right by lra. split; lra.
Qed.

Lemma setters_reach_target_in_some_order_witness :
  PlateauFilter.width
    (PlateauFilter.setWidth (PlateauFilter.setFlatWidth default_filter 500)
       1000) = 1000 /\
  PlateauFilter.flatWidth
    (PlateauFilter.setWidth (PlateauFilter.setFlatWidth default_filter 500)
       1000) = 500.
Proof.
  apply (setters_reach_target_in_some_order default_filter 1000 500);
    simpl; lra.
Defined.

(** X21.  What the fallback puts out for a buffer of two
    samples or more, with [flatWidth < width]: output sample [i] is input
    sample [i] times the Hanning window at [i], times the plateau at the
    frequency [i * nyquist / bufferSize], times the gain.  It depends on
    no other input sample. *)
Theorem fallback_output_is_pointwise (this : PlateauFilter.t)
        inputData inputData' outputData i x :
  PlateauFilter.flatWidth this < PlateauFilter.width this ->
  0 <= PlateauFilter.sampleRate this ->
  (2 <= length inputData)%nat ->
  length inputData' = length inputData ->
  nth_error inputData i = Some x ->
  nth_error inputData' i = Some x ->
  (i < length outputData)%nat ->
  nth_error (PlateauFilter._processAudio this inputData outputData) i
  = Some (Fin (x * Worklet.hanning (length inputData) i
               * Worklet.plateau (PlateauFilter.centerFreq this)
                   (PlateauFilter.width this) (PlateauFilter.flatWidth this)
                   (INR i * (PlateauFilter.sampleRate this / 2)
                    / INR (length inputData))
               * PlateauFilter.gain this)) /\
  nth_error (PlateauFilter._processAudio this inputData' outputData) i
  = nth_error (PlateauFilter._processAudio this inputData outputData) i.
Proof.
  intros Hw Hsr Hlen Hlen' Hx Hx' Hi.
  assert (Hformula : forall data,
            length data = length inputData ->
            nth_error data i = Some x ->
            nth_error (PlateauFilter._processAudio this data outputData) i
            = Some (Fin (x * Worklet.hanning (length inputData) i
               * Worklet.plateau (PlateauFilter.centerFreq this)
                   (PlateauFilter.width this) (PlateauFilter.flatWidth this)
                   (INR i * (PlateauFilter.sampleRate this / 2)
                    / INR (length inputData))
               * PlateauFilter.gain this))).
  { intros data Hl Hd.
    rewrite (processAudio_sample this data outputData i x Hd Hi), Hl.
    unfold PlateauFilter.window.
    assert ((length inputData =? 1)%nat = false) as ->
        by (apply Nat.eqb_neq; lia).
    set (f := INR i * (PlateauFilter.sampleRate this / 2)
              / INR (length inputData)).
    assert (Hf : 0 <= f).
    { unfold f. apply Rmult_le_pos.
      - apply Rmult_le_pos; [apply pos_INR|lra].
      - left. apply Rinv_0_lt_compat. apply lt_0_INR. lia. }
    assert (Hmask : PlateauFilter._calculateMask this f
                    = Fin (Worklet.plateau (PlateauFilter.centerFreq this)
                             (PlateauFilter.width this)
                             (PlateauFilter.flatWidth this) f)).
    { apply calculateMask_plateau; assumption. }
    rewrite Hmask. simpl. unfold Worklet.hanning. reflexivity. }
  split.
  - apply Hformula; auto.
  - rewrite (Hformula inputData' Hlen' Hx').
    rewrite (Hformula inputData eq_refl Hx). reflexivity.
Qed.

Lemma fallback_output_is_pointwise_witness :
  nth_error (PlateauFilter._processAudio default_filter [1; 2; 3]
               [Fin 0; Fin 0; Fin 0]) 1
  = Some (Fin (2 * Worklet.hanning 3 1
               * Worklet.plateau 10000 5000 2000 (INR 1 * (44100 / 2) / INR 3)
               * 1)).
Proof.
  apply (fallback_output_is_pointwise default_filter [1; 2; 3] [1; 2; 3]
           [Fin 0; Fin 0; Fin 0] 1 2); simpl; try lra; try lia; reflexivity.
Defined.

(** * ftt.js: when [applyFFTFilter] returns *)

Lemma jsround_bounds x :
  IZR (jsround x) <= x + 1/2 < IZR (jsround x) + 1.
Proof.
  unfold jsround. pose proof (base_Int_part (x + 1/2)) as [H1 H2]. lra.
Qed.

Lemma ftt_throws_TypeError frequencies targetFreq width delta e :
  Ftt.createPlateauFilterMask frequencies targetFreq width delta = Throw e ->
  e = TypeError.
Proof.
  unfold Ftt.createPlateauFilterMask, Ftt.log_at, Ftt.log_bin.
  cbv zeta.
  repeat match goal with
         | |- context [match ?c with _ => _ end] =>
             match c with
             | context [match _ with _ => _ end] => fail 1
             | _ => destruct c; simpl bind
             end
         end;
    congruence.
Qed.

Lemma padded_step P sampleRate :
  (2 <= P)%nat ->
  Ftt.nsub (rd (Ftt.createFrequencyArray P sampleRate) 1)
           (rd (Ftt.createFrequencyArray P sampleRate) 0)
  = Fin (INR 1 * (sampleRate / INR P) - INR 0 * (sampleRate / INR P)).
Proof.
  intros HP. unfold rd. rewrite !createFrequencyArray_cell.
  assert ((1 <? P)%nat = true) as -> by (apply Nat.ltb_lt; lia).
  assert ((0 <? P)%nat = true) as -> by (apply Nat.ltb_lt; lia).
  assert ((1 <=? P / 2)%nat = true) as ->.
  { apply Nat.leb_le. apply Nat.div_le_lower_bound; lia. }
  reflexivity.
Qed.

Lemma short_step P sampleRate :
  (P < 2)%nat ->
  Ftt.nsub (rd (Ftt.createFrequencyArray P sampleRate) 1)
           (rd (Ftt.createFrequencyArray P sampleRate) 0) = NaN.
Proof.
  intros HP. unfold rd. rewrite (createFrequencyArray_cell P sampleRate 1).
  assert ((1 <? P)%nat = false) as -> by (apply Nat.ltb_ge; lia).
  reflexivity.
Qed.

Lemma log_bin_inside mask a s :
  0 < s -> 0 <= a -> (2 <= length mask)%nat ->
  a / s <= INR (length mask) / 2 ->
  Ftt.log_bin mask a (Fin s) = Normal tt.
Proof.
  intros Hs Ha Hlen Hhalf. unfold Ftt.log_bin.
  rewrite Reqb_false by lra.
  pose proof (jsround_bounds (a / s)) as [Hlo Hhi].
  assert (H0 : 0 <= a / s).
  { apply Rmult_le_pos; [exact Ha|].
    left. apply Rinv_0_lt_compat. exact Hs. }
  assert (HP : 2 <= INR (length mask)).
  { apply le_INR in Hlen. simpl in Hlen. lra. }
  assert (Hge : (0 <= jsround (a / s))%Z).
  { assert (IZR (-1) < IZR (jsround (a / s))) by (simpl; lra).
    apply lt_IZR in H. lia. }
  assert (Hlt : (jsround (a / s) < Z.of_nat (length mask))%Z).
  { apply lt_IZR. rewrite <- INR_IZR_INZ. lra. }
  apply Z.leb_le in Hge. apply Z.ltb_lt in Hlt. rewrite Hge, Hlt.
  reflexivity.
Qed.

Lemma log_bin_outside mask a s :
  0 < s -> INR (length mask) <= a / s ->
  Ftt.log_bin mask a (Fin s) = Throw TypeError.
Proof.
  intros Hs Hout. unfold Ftt.log_bin.
  rewrite Reqb_false by lra.
  pose proof (jsround_bounds (a / s)) as [Hlo Hhi].
  assert (Hge : (Z.of_nat (length mask) <= jsround (a / s))%Z).
  { assert (IZR (Z.of_nat (length mask) - 1) < IZR (jsround (a / s))).
    { rewrite minus_IZR, <- INR_IZR_INZ. lra. }
    apply lt_IZR in H. lia. }
  apply Z.ltb_ge in Hge. rewrite Hge, andb_false_r. reflexivity.
Qed.

Lemma padded_at_least_2 L : (2 <= L)%nat -> (2 <= Ftt.paddedLength L)%nat.
Proof.
  intros HL. pose proof (paddedLength_spec L) as [Hle _]. lia.
Qed.

(** X22.  [applyFFTFilter] returns, without throwing, for two
    samples or more at a sample rate of 30 kHz or more with the target
    frequency between 0 and Nyquist: the bins that the mask generator
    looks up for its log lines (5 kHz, the target, 15 kHz) then exist,
    and the padded length is a power of two. *)
Theorem applyFFTFilter_returns_in_audio_range
        samples sampleRate targetFreq width delta :
  (2 <= length samples)%nat ->
  30000 <= sampleRate ->
  0 <= targetFreq <= sampleRate / 2 ->
  exists result,
    Ftt.applyFFTFilter samples sampleRate targetFreq width delta
    = Normal result /\
    length result = length samples.
Proof.
  intros HL Hsr Ht.
  set (P := Ftt.paddedLength (length samples)).
  assert (HP : (2 <= P)%nat) by (apply padded_at_least_2; exact HL).
  assert (HPr : 2 <= INR P) by (apply le_INR in HP; simpl in HP; lra).
  assert (Hmask : exists mask,
             Ftt.createPlateauFilterMask (Ftt.createFrequencyArray P sampleRate)
               targetFreq width delta = Normal mask).
  { unfold Ftt.createPlateauFilterMask. cbv zeta.
    rewrite (padded_step P sampleRate HP).
    set (mask := store _ 0%nat 0).
    assert (Hlen : length mask = P).
    { unfold mask. rewrite length_store, length_map, length_seq.
      pose proof (createFrequencyArray_length P sampleRate) as H.
      exact H. }
    set (s := INR 1 * (sampleRate / INR P) - INR 0 * (sampleRate / INR P)).
    assert (Hs : s = sampleRate / INR P) by (unfold s; simpl; ring).
    assert (Hspos : 0 < s).
    { rewrite Hs. apply Rdiv_lt_0_compat; lra. }
    assert (Hq : forall a, 0 <= a <= sampleRate / 2 ->
                 Ftt.log_bin mask a (Fin s) = Normal tt).
    { intros a Ha. apply log_bin_inside; try lra.
      - rewrite Hlen. exact HP.
      - rewrite Hlen, Hs.
        replace (a / (sampleRate / INR P)) with (a / sampleRate * INR P)
          by (field; lra).
        assert (a / sampleRate <= 1 / 2).
        { apply (Rmult_le_reg_r sampleRate); [lra|].
          unfold Rdiv at 1. rewrite Rmult_assoc, Rinv_l by lra. lra. }
        nra. }
    rewrite !Hq by lra.
    assert (H0 : Ftt.log_at mask 0 = Normal tt).
    { unfold Ftt.log_at.
      destruct (nth_error mask 0) eqn:E; [reflexivity|].
      apply nth_error_None in E. lia. }
    assert (Hm : Ftt.log_at mask
                   (length (Ftt.createFrequencyArray P sampleRate) / 2)
                 = Normal tt).
    { unfold Ftt.log_at.
      destruct (nth_error mask _) eqn:E; [reflexivity|].
      apply nth_error_None in E.
      pose proof (createFrequencyArray_length P sampleRate) as H.
      rewrite H, Hlen in E.
      pose proof (Nat.div_lt P 2 ltac:(lia) ltac:(lia)). lia. }
    rewrite H0, Hm. simpl bind. eexists. reflexivity. }
  destruct Hmask as [mask Hmask].
  destruct (applyFFTFilter_returns samples sampleRate targetFreq width delta
              mask Hmask) as [result Hres].
  exists result. split; [exact Hres|].
  apply (applyFFTFilter_normalised samples sampleRate targetFreq width delta
           result Hres).
Qed.

Lemma applyFFTFilter_returns_in_audio_range_witness :
  exists result,
    Ftt.applyFFTFilter [1; 0; 0] 44100 10000 5000 2000 = Normal result /\
    length result = 3%nat.
Proof.
  apply (applyFFTFilter_returns_in_audio_range [1; 0; 0] 44100 10000 5000
           2000); simpl; try lia; lra.
Defined.

(** X23.  At a sample rate of 15 kHz or less [applyFFTFilter]
    throws a TypeError on every input and for every filter setting: the
    log line for 15 kHz looks up a bin past the end of the mask. *)
Theorem applyFFTFilter_throws_at_low_sample_rate
        samples sampleRate targetFreq width delta :
  0 < sampleRate <= 15000 ->
  Ftt.applyFFTFilter samples sampleRate targetFreq width delta
  = Throw TypeError.
Proof.
  intros Hsr. unfold Ftt.applyFFTFilter. cbv zeta.
  set (P := Ftt.paddedLength (length samples)).
  destruct (Ftt.createPlateauFilterMask (Ftt.createFrequencyArray P sampleRate)
              targetFreq width delta) as [mask|e] eqn:E.
  - exfalso. revert E. unfold Ftt.createPlateauFilterMask. cbv zeta.
    set (m := store _ 0%nat 0).
    assert (Hlen : length m = P).
    { unfold m. rewrite length_store, length_map, length_seq.
      pose proof (createFrequencyArray_length P sampleRate) as H.
      exact H. }
    destruct (Ftt.log_at m 0); cbn [bind]; [|discriminate].
    destruct (Nat.lt_ge_cases P 2) as [HP|HP].
    + rewrite (short_step P sampleRate HP). unfold Ftt.log_bin.
      cbn [bind]. discriminate.
    + rewrite (padded_step P sampleRate HP).
      set (s := INR 1 * (sampleRate / INR P) - INR 0 * (sampleRate / INR P)).
      assert (HPr : 2 <= INR P) by (apply le_INR in HP; simpl in HP; lra).
      assert (Hs : s = sampleRate / INR P) by (unfold s; simpl; ring).
      assert (Hspos : 0 < s).
      { rewrite Hs. apply Rdiv_lt_0_compat; lra. }
      destruct (Ftt.log_bin m 5000 (Fin s)); cbn [bind]; [|discriminate].
      destruct (Ftt.log_bin m targetFreq (Fin s)); cbn [bind]; [|discriminate].
      rewrite (log_bin_outside m 15000 s Hspos); [cbn [bind]; discriminate|].
      rewrite Hlen, Hs.
      replace (15000 / (sampleRate / INR P))
        with (15000 / sampleRate * INR P) by (field; lra).
      assert (1 <= 15000 / sampleRate).
      { apply (Rmult_le_reg_r sampleRate); [lra|].
        unfold Rdiv. rewrite Rmult_assoc, Rinv_l by lra. lra. }
      nra.
  - cbn [bind]. f_equal.
    apply (ftt_throws_TypeError _ _ _ _ _ E).
Qed.

Lemma applyFFTFilter_throws_at_low_sample_rate_witness :
  Ftt.applyFFTFilter [1; 0; 0; 0] 8000 1000 500 200 = Throw TypeError.
Proof.
  apply applyFFTFilter_throws_at_low_sample_rate. lra.
Defined.

(** X24.  [applyFFTFilter] never throws out of its
    transforms: a call either throws the TypeError of the mask
    generator's log lines or returns an array of the length of the input,
    peak-normalised: no sample exceeds 1 in absolute value, and unless
    all samples are 0 one of them is exactly 1 or -1. *)
Theorem applyFFTFilter_peak_normalised
        samples sampleRate targetFreq width delta :
  Ftt.applyFFTFilter samples sampleRate targetFreq width delta
  = Throw TypeError \/
  exists result,
    Ftt.applyFFTFilter samples sampleRate targetFreq width delta
    = Normal result /\
    length result = length samples /\
    (forall i, Rabs (nth i result 0) <= 1) /\
    ((forall i, nth i result 0 = 0) \/
     exists j, (j < length samples)%nat /\ Rabs (nth j result 0) = 1).
Proof.
  destruct (Ftt.createPlateauFilterMask
              (Ftt.createFrequencyArray (Ftt.paddedLength (length samples))
                 sampleRate) targetFreq width delta) as [mask|e] eqn:E.
  - right.
    destruct (applyFFTFilter_returns samples sampleRate targetFreq width delta
                mask E) as [result Hres].
    exists result. split; [exact Hres|].
    destruct (applyFFTFilter_normalised samples sampleRate targetFreq width
                delta result Hres)
      as (Hlen & Hle & raw & maxAmp & Hpos & Hmax & Hatt & Hdiv & Hzero).
    split; [exact Hlen|]. split; [exact Hle|].
    destruct (Req_dec_T maxAmp 0) as [H0|H0].
    + left. intros i. destruct (Nat.lt_ge_cases i (length samples)) as [Hi|Hi].
      * apply Hzero; assumption.
      * apply nth_overflow. lia.
    + right. destruct Hatt as [Hz|(j & Hj & Hjmax)]; [contradiction|].
      exists j. split; [exact Hj|].
      rewrite Hdiv by (assumption || lra).
      unfold Rdiv. rewrite Rabs_mult, <- Hjmax.
      rewrite (Rabs_pos_eq (/ maxAmp))
        by (left; apply Rinv_0_lt_compat; lra).
      apply Rinv_r. exact H0.
  - left. unfold Ftt.applyFFTFilter. cbv zeta. rewrite E. simpl bind.
    f_equal. apply (ftt_throws_TypeError _ _ _ _ _ E).
Qed.

(** * class Complex *)

(** X29.  The modulus of [Complex]: [abs] is multiplicative over
    [multiply], [fromPolar(r, theta)] has modulus [|r|], and a number
    times its conjugate is the square of its modulus, with no imaginary
    part. *)
Theorem complex_abs_multiplicative (a b : Complex) (r theta : R) :
  Cx.abs (Cx.multiply a b) = Cx.abs a * Cx.abs b /\
  Cx.abs (Cx.fromPolar r theta) = Rabs r /\
  Cx.multiply a (Cx.conjugate a) = mkComplex (Cx.abs a * Cx.abs a) 0.
Proof.
  destruct a as [ar ai], b as [br bi]. unfold Cx.abs. simpl.
  split; [|split].
  - rewrite <- sqrt_mult by nra. f_equal. ring.
  - replace (r * cos theta * (r * cos theta) + r * sin theta * (r * sin theta))
      with (Rsqr r * (cos theta * cos theta + sin theta * sin theta))
      by (unfold Rsqr; ring).
    rewrite cis_unit, Rmult_1_r. apply sqrt_Rsqr_abs.
  - unfold Cx.multiply, Cx.conjugate. simpl.
    rewrite sqrt_sqrt by nra. f_equal; ring.
Qed.

(** * ftt.js: the integer helpers *)

Lemma toInt32_small z : (- 2 ^ 31 <= z < 2 ^ 31)%Z -> toInt32 z = z.
Proof.
  intros Hz. unfold toInt32. rewrite Z.mod_small; lia.
Qed.

Lemma land_pred_pow2 (n : Z) :
  (0 < n)%Z ->
  Z.land n (n - 1) = 0%Z <-> exists m, (0 <= m)%Z /\ n = (2 ^ m)%Z.
Proof.
  intros Hn. split.
  - intros Hland.
    pose proof (Z.log2_nonneg n) as Hk.
    pose proof (Z.log2_spec n Hn) as [Hlo Hhi].
    exists (Z.log2 n). split; [exact Hk|].
    destruct (Z.eq_dec n (2 ^ Z.log2 n)) as [E|E]; [exact E|].
    exfalso.
    assert (Hbit : Z.testbit (Z.land n (n - 1)) (Z.log2 n) = true).
    { rewrite Z.land_spec, (Z.bit_log2 n Hn). simpl.
      assert (Hlog : Z.log2 (n - 1) = Z.log2 n).
      { apply Z.log2_unique; [exact Hk|]. lia. }
      rewrite <- Hlog. apply Z.bit_log2. lia. }
    rewrite Hland, Z.bits_0 in Hbit. discriminate.
  - intros (m & Hm & ->).
    rewrite Z.sub_1_r, <- Z.ones_equiv.
    apply Z.bits_inj'. intros i Hi.
    rewrite Z.land_spec, Z.bits_0.
    destruct (Z.lt_ge_cases i m) as [Hlt|Hge].
    + rewrite Z.pow2_bits_false by lia. reflexivity.
    + rewrite Z.ones_spec_high by lia. apply andb_false_r.
Qed.

(** X27.  [isPowerOf2] is right on every integer below 2^31: it
    answers [true] exactly on the powers of two (and [false] on 0 and on
    negative integers).  Past 32 bits the operands wrap: it also answers
    [true] on [k * 2^32 + 1], which is no power of two for [k >= 1]
    (stated for the [k] that keep the number below 2^53, where a
    JavaScript number still holds every integer). *)
Theorem isPowerOf2_correct (n : Z) :
  (n < 2 ^ 31)%Z ->
  (Ftt.isPowerOf2 n = true <-> exists m, (0 <= m)%Z /\ n = (2 ^ m)%Z) /\
  (forall k, (1 <= k < 2 ^ 21)%Z ->
     Ftt.isPowerOf2 (k * 2 ^ 32 + 1) = true /\
     forall m, (0 <= m)%Z -> (k * 2 ^ 32 + 1 <> 2 ^ m)%Z).
Proof.
  intros Hn. split.
  - unfold Ftt.isPowerOf2.
    destruct (Z.ltb_spec 0 n) as [Hpos|Hneg].
    + rewrite !toInt32_small by lia. simpl andb.
      rewrite Z.eqb_eq. apply land_pred_pow2. exact Hpos.
    + simpl. split; [discriminate|].
      intros (m & Hm & ->). pose proof (Z.pow_pos_nonneg 2 m). lia.
  - intros k Hk. split.
    + unfold Ftt.isPowerOf2.
      assert (H1 : toInt32 (k * 2 ^ 32 + 1) = 1%Z).
      { unfold toInt32.
        replace (k * 2 ^ 32 + 1 + 2 ^ 31)%Z with (1 + 2 ^ 31 + k * 2 ^ 32)%Z
          by ring.
        rewrite Z.mod_add by lia. rewrite Z.mod_small by lia. lia. }
      assert (H0 : toInt32 (k * 2 ^ 32 + 1 - 1) = 0%Z).
      { unfold toInt32.
        replace (k * 2 ^ 32 + 1 - 1 + 2 ^ 31)%Z with (2 ^ 31 + k * 2 ^ 32)%Z
          by ring.
        rewrite Z.mod_add by lia. rewrite Z.mod_small by lia. lia. }
      rewrite H1, H0.
      assert ((0 <? k * 2 ^ 32 + 1)%Z = true) as -> by (apply Z.ltb_lt; lia).
      reflexivity.
    + intros m Hm E.
      destruct (Z.eq_dec m 0) as [->|Hm0].
      * simpl in E. lia.
      * assert (Hodd : Z.odd (k * 2 ^ 32 + 1) = true).
        { rewrite Z.add_comm, Z.mul_comm.
          replace (2 ^ 32 * k)%Z with (2 * (2 ^ 31 * k))%Z by ring.
          rewrite Z.odd_add_mul_2. reflexivity. }
        rewrite E in Hodd.
        replace m with (Z.succ (m - 1)) in Hodd by lia.
        rewrite Z.pow_succ_r, Z.odd_mul in Hodd by lia.
        simpl in Hodd. discriminate.
Qed.

Lemma isPowerOf2_correct_witness :
  Ftt.isPowerOf2 2048 = true <-> exists m, (0 <= m)%Z /\ 2048%Z = (2 ^ m)%Z.
Proof.
  apply (isPowerOf2_correct 2048). reflexivity.
Defined.

Section BitReverse.

Variable n : Z.
Hypothesis Hn : (0 <= n < 2 ^ 31)%Z.

Let body (_ : nat) (s : Z * Z) : Z * Z :=
  let '(reversed, n) := s in
  (Z.lor (toInt32 (Z.shiftl (toInt32 reversed) 1)) (Z.land (toInt32 n) 1),
   Z.shiftr (toInt32 n) 1).

Lemma shiftr_range k : (0 <= k)%Z -> (0 <= Z.shiftr n k < 2 ^ 31)%Z.
Proof.
  intros Hk. split.
  - apply Z.shiftr_nonneg. lia.
  - rewrite Z.shiftr_div_pow2 by exact Hk.
    pose proof (Z.pow_pos_nonneg 2 k ltac:(lia) Hk) as Hp.
    apply Z.le_lt_trans with n; [|lia].
    apply Z.div_le_upper_bound; nia.
Qed.

Lemma bitReverse_loop k :
  (k <= 31)%nat ->
  let s := for_loop k body (0%Z, n) in
  snd s = Z.shiftr n (Z.of_nat k) /\
  (0 <= fst s < 2 ^ Z.of_nat k)%Z /\
  forall i, (0 <= i < Z.of_nat k)%Z ->
    Z.testbit (fst s) i = Z.testbit n (Z.of_nat k - 1 - i).
Proof.
  induction k as [|k IH]; intros Hk.
  - simpl. repeat split; try lia; intros; lia.
  - rewrite for_loop_S.
    destruct (IH ltac:(lia)) as (Hsnd & Hrange & Hbits).
    destruct (for_loop k body (0%Z, n)) as [r x].
    cbn [fst snd] in *. subst x. unfold body.
    pose proof (shiftr_range (Z.of_nat k) ltac:(lia)) as Hx.
    assert (Hpow : (2 ^ Z.of_nat k <= 2 ^ 30)%Z)
      by (apply Z.pow_le_mono_r; lia).
    rewrite (toInt32_small r) by lia.
    rewrite (toInt32_small (Z.shiftr n (Z.of_nat k))) by lia.
    rewrite Z.shiftl_mul_pow2 by lia.
    change (2 ^ 1)%Z with 2%Z.
    rewrite (toInt32_small (r * 2)) by lia.
    set (x := Z.shiftr n (Z.of_nat k)) in *.
    assert (Hland : Z.land x 1 = Z.b2z (Z.testbit x 0)).
    { change 1%Z with (Z.ones 1). rewrite Z.land_ones by lia.
      change (2 ^ 1)%Z with 2%Z. rewrite Z.bit0_mod. reflexivity. }
    assert (Hx0 : Z.testbit x 0 = Z.testbit n (Z.of_nat k)).
    { unfold x. rewrite Z.shiftr_spec by lia. f_equal. }
    assert (Hlor : Z.lor (r * 2) (Z.land x 1)
                   = (2 * r + Z.b2z (Z.testbit x 0))%Z).
    { rewrite Hland. apply Z.bits_inj'. intros i Hi.
      rewrite Z.lor_spec.
      destruct (Z.eq_dec i 0) as [->|Hi0].
      - rewrite Z.testbit_0_r, Z.b2z_bit0, Z.mul_comm, Z.testbit_even_0.
        reflexivity.
      - replace i with (Z.succ (i - 1)) by lia.
        rewrite Z.testbit_succ_r by lia.
        rewrite Z.mul_comm, Z.double_bits_succ.
        assert (Z.testbit (Z.b2z (Z.testbit x 0)) (Z.succ (i - 1)) = false)
          as ->.
        { destruct (Z.testbit x 0); simpl Z.b2z; [|apply Z.bits_0].
          apply Z.bits_above_log2; simpl; lia. }
        apply orb_false_r. }
    cbn [fst snd]. rewrite Hlor.
    split; [|split].
    + unfold x. rewrite Z.shiftr_shiftr by lia. f_equal. lia.
    + rewrite Nat2Z.inj_succ, Z.pow_succ_r by lia.
      destruct (Z.testbit x 0); simpl Z.b2z; lia.
    + intros i Hi. rewrite Nat2Z.inj_succ in *.
      destruct (Z.eq_dec i 0) as [->|Hi0].
      * rewrite Z.testbit_0_r, Hx0. f_equal. lia.
      * replace i with (Z.succ (i - 1)) at 1 by lia.
        rewrite Z.testbit_succ_r by lia.
        rewrite Hbits by lia. f_equal. lia.
Qed.

Lemma bitReverse_bits bits :
  (bits <= 31)%nat ->
  (0 <= Ftt.bitReverse n bits < 2 ^ Z.of_nat bits)%Z /\
  forall i, (0 <= i < Z.of_nat bits)%Z ->
    Z.testbit (Ftt.bitReverse n bits) i
    = Z.testbit n (Z.of_nat bits - 1 - i).
Proof.
  intros Hb. destruct (bitReverse_loop bits Hb) as (_ & Hr & Hbits).
  split; [exact Hr|exact Hbits].
Qed.

End BitReverse.

Lemma bits_above_pow2 a k i :
  (0 <= a < 2 ^ k)%Z -> (k <= i)%Z -> Z.testbit a i = false.
Proof.
  intros Ha Hi.
  destruct (Z.eq_dec a 0) as [->|Hne]; [apply Z.bits_0|].
  apply Z.bits_above_log2; [lia|].
  assert (Z.log2 a < k)%Z by (apply Z.log2_lt_pow2; lia). lia.
Qed.

(** X28.  For [bits <= 31] and [0 <= n < 2^bits], [bitReverse]
    returns the integer below [2^bits] whose bit [i] is bit
    [bits - 1 - i] of [n], and reversing twice gives [n] back. *)
Theorem bitReverse_involution (n : Z) (bits : nat) :
  (bits <= 31)%nat ->
  (0 <= n < 2 ^ Z.of_nat bits)%Z ->
  (0 <= Ftt.bitReverse n bits < 2 ^ Z.of_nat bits)%Z /\
  (forall i, (0 <= i < Z.of_nat bits)%Z ->
     Z.testbit (Ftt.bitReverse n bits) i
     = Z.testbit n (Z.of_nat bits - 1 - i)) /\
  Ftt.bitReverse (Ftt.bitReverse n bits) bits = n.
Proof.
  intros Hb Hn.
  assert (Hpow : (2 ^ Z.of_nat bits <= 2 ^ 31)%Z)
    by (apply Z.pow_le_mono_r; lia).
  destruct (bitReverse_bits n ltac:(lia) bits Hb) as [Hr Hbits].
  split; [exact Hr|]. split; [exact Hbits|].
  destruct (bitReverse_bits (Ftt.bitReverse n bits) ltac:(lia) bits Hb)
    as [Hr2 Hbits2].
  apply Z.bits_inj'. intros i Hi.
  destruct (Z.lt_ge_cases i (Z.of_nat bits)) as [Hlt|Hge].
  - rewrite Hbits2 by lia. rewrite Hbits by lia. f_equal. lia.
  - rewrite (bits_above_pow2 _ (Z.of_nat bits) i Hr2 Hge).
    rewrite (bits_above_pow2 _ (Z.of_nat bits) i Hn Hge). reflexivity.
Qed.

Lemma bitReverse_involution_witness :
  Ftt.bitReverse (Ftt.bitReverse 6 4) 4 = 6%Z.
Proof.
  apply (bitReverse_involution 6 4); simpl; lia.
Defined.

(** * Bin 0 and the sum of the samples *)

Lemma Rsum_app a b : Rsum (a ++ b) = Rsum a + Rsum b.
Proof.
  unfold Rsum. induction a as [|x a IH]; simpl; [ring|].
  rewrite IH. ring.
Qed.

Lemma real_csum n f :
  real (csum n f) = Rsum (map (fun i => real (f i)) (seq 0 n)).
Proof.
  induction n as [|n IH]; [reflexivity|].
  rewrite seq_S, map_app, Rsum_app. simpl. rewrite IH.
  unfold Rsum. simpl. ring.
Qed.

Lemma Rsum_map_scale (f : nat -> R) c l :
  Rsum (map (fun i => f i * c) l) = Rsum (map f l) * c.
Proof.
  unfold Rsum. induction l as [|x l IH]; simpl; [ring|].
  rewrite IH. ring.
Qed.

Lemma Rsum_map_zero (l : list nat) : Rsum (map (fun _ => 0) l) = 0.
Proof.
  unfold Rsum. induction l as [|x l IH]; simpl; [reflexivity|].
  rewrite IH. ring.
Qed.

(** The inverse transform of a spectrum whose bin 0 is 0 sums to 0. *)
Lemma dc_removed m F y :
  length F = (2 ^ m)%nat -> nth 0 F Cx.zero = Cx.zero ->
  ifft F = Normal y ->
  Rsum (map (fun i => real (nth i y Cx.zero)) (seq 0 (2 ^ m))) = 0.
Proof.
  intros HF H0 Hy.
  pose proof (fft_after_ifft m F HF) as Hround.
  rewrite Hy in Hround. cbn [bind] in Hround.
  assert (Hly : length y = (2 ^ m)%nat).
  { rewrite (ifft_is_idft m F HF) in Hy. injection Hy as <-.
    rewrite length_idft_list. exact HF. }
  rewrite (fft_is_dft m y Hly) in Hround. injection Hround as Hround.
  pose proof (pow2_pos m) as Hpos.
  assert (Hbin : dft (-2 * PI) y 0 = Cx.zero).
  { rewrite <- H0, <- Hround. unfold dft_list. rewrite Hly.
    symmetry. apply (nth_map_seq (dft (-2 * PI) y)). exact Hpos. }
  unfold dft in Hbin. rewrite Hly in Hbin.
  rewrite <- real_csum.
  rewrite (csum_ext _ _ (fun n => Cx.multiply (nth n y Cx.zero)
                           (cis (-2 * PI * INR 0 * INR n / INR (2 ^ m))))).
  - rewrite Hbin. reflexivity.
  - intros i _.
    replace (-2 * PI * INR 0 * INR i / INR (2 ^ m)) with 0
      by (simpl; unfold Rdiv; ring).
    rewrite cis_0, multiply_1_r. reflexivity.
Qed.

Lemma paddedLength_pow2 m : Ftt.paddedLength (2 ^ m) = (2 ^ m)%nat.
Proof.
  unfold Ftt.paddedLength. pose proof (pow2_pos m) as Hpos.
  destruct (2 ^ m)%nat as [|p] eqn:E; [lia|].
  rewrite <- E, Nat.log2_up_pow2 by lia. reflexivity.
Qed.

Lemma for_loop_copy (f : nat -> R) n :
  for_loop n (fun i r => store r i (f i)) (repeat 0 n) = map f (seq 0 n).
Proof.
  apply nth_error_ext. intros j.
  rewrite (for_loop_update 0 (fun i _ => f i)).
  destruct (Nat.ltb_spec j n) as [Hj|Hj].
  - rewrite nth_error_repeat by exact Hj.
    rewrite (nth_error_map_seq f n j Hj). reflexivity.
  - transitivity (@None R).
    + apply nth_error_None. rewrite repeat_length. exact Hj.
    + symmetry. apply nth_error_None. rewrite length_map, length_seq.
      exact Hj.
Qed.

(** X30.  The filter stage of [generateFilteredNoise] never throws:
    for every noise buffer and every setting it returns as many samples
    as it was given (its transforms run on the padded, power-of-two
    length).  Bin 0 is set to 0, so when the number of samples is a power
    of two the samples of the result sum to 0. *)
Theorem generateFilteredNoise_returns (params : Ui.Params)
        (noiseBuffer : list R) :
  exists result,
    Ui.generateFilteredNoise params noiseBuffer = Normal result /\
    length result = length noiseBuffer /\
    forall m, length noiseBuffer = (2 ^ m)%nat -> Rsum result = 0.
Proof.
  unfold Ui.generateFilteredNoise. cbv zeta.
  set (L := length noiseBuffer).
  set (P := Ftt.paddedLength L).
  destruct (paddedLength_spec L) as [Hle Hpow]. fold P in Hle, Hpow.
  set (complexBuffer := map _ (seq 0 P)).
  assert (Hlc : length complexBuffer = P)
    by (unfold complexBuffer; rewrite length_map, length_seq; reflexivity).
  destruct (fft_returns complexBuffer) as (fftResult & Hfft & Hlf).
  { rewrite Hlc. exact Hpow. }
  rewrite Hfft. cbn [bind].
  set (filterMask := map _ (seq 0 P)).
  set (scaled := for_loop P _ fftResult).
  assert (Hls : length scaled = P).
  { unfold scaled.
    rewrite (length_for_loop_update
               (fun i r => Cx.scale (nth i r Cx.zero) (nth i filterMask 0))).
    rewrite Hlf. exact Hlc. }
  set (F := store scaled 0 (mkComplex 0 0)).
  assert (HlF : length F = P) by (unfold F; rewrite length_store; exact Hls).
  destruct (ifft_returns F) as (ifftResult & Hifft & Hli).
  { rewrite HlF. exact Hpow. }
  rewrite Hifft. cbn [bind].
  rewrite (for_loop_copy (fun i => real (nth i ifftResult Cx.zero)) L).
  eexists. split; [reflexivity|]. split.
  - rewrite length_map, length_seq. reflexivity.
  - intros m Hm.
    assert (HP : P = (2 ^ m)%nat)
      by (unfold P; rewrite Hm; apply paddedLength_pow2).
    rewrite Hm.
    apply (dc_removed m F ifftResult).
    + rewrite HlF. exact HP.
    + apply (nth_error_nth F 0 Cx.zero). unfold F.
      apply nth_error_store_same. rewrite Hls, HP. apply pow2_pos.
    + exact Hifft.
Qed.

Lemma applyFFTFilter_stages samples sampleRate targetFreq width delta result :
  Ftt.applyFFTFilter samples sampleRate targetFreq width delta
  = Normal result ->
  exists mask fftResult ifftResult maxAmp,
    Ftt.createPlateauFilterMask
      (Ftt.createFrequencyArray (Ftt.paddedLength (length samples))
         sampleRate) targetFreq width delta = Normal mask /\
    ifft (map (fun i =>
                 mkComplex (real (nth i fftResult Cx.zero) * nth i mask 0)
                           (imag (nth i fftResult Cx.zero) * nth i mask 0))
              (seq 0 (length fftResult))) = Normal ifftResult /\
    length fftResult = Ftt.paddedLength (length samples) /\
    result = map (fun i => real (nth i ifftResult Cx.zero)
                           * (if Rltb 0 maxAmp then / maxAmp else 1))
                 (seq 0 (length samples)).
Proof.
  unfold Ftt.applyFFTFilter. cbv zeta.
  destruct (Ftt.createPlateauFilterMask _ _ _ _) as [filterMask|] eqn:Emask;
    cbn [bind]; [|discriminate].
  set (paddedInput := map _ samples ++ repeat _ _).
  destruct (fft paddedInput) as [fftResult|] eqn:Efft;
    cbn [bind]; [|discriminate].
  destruct (ifft _) as [ifftResult|] eqn:Eifft; cbn [bind]; [|discriminate].
  set (L := length samples).
  set (raw := fun i => real (nth i ifftResult Cx.zero)).
  pose proof (scan_loop raw L L (le_n L)) as H. cbv zeta in H.
  match type of H with
  | context [for_loop L ?f ?s] =>
      match goal with
      | |- context [for_loop L ?g s] => change g with f
      end;
      destruct (for_loop L f s) as [res maxAmp]
  end.
  cbn [fst snd] in H.
  destruct H as (Hlen & Hraw & Hpos & Hmax & Hatt).
  intros Hret. injection Hret as <-.
  exists filterMask, fftResult, ifftResult, maxAmp.
  split; [reflexivity|]. split; [exact Eifft|]. split.
  - destruct (paddedLength_spec L) as [Hle Hpow].
    assert (Hlp : length paddedInput = Ftt.paddedLength L).
    { unfold paddedInput. rewrite length_app, length_map, repeat_length.
      fold L. lia. }
    destruct (fft_returns paddedInput) as (y & Hy & Hly).
    { rewrite Hlp. exact Hpow. }
    rewrite Efft in Hy. injection Hy as <-. rewrite Hly. exact Hlp.
  - apply nth_error_ext. intros j.
    destruct (Nat.lt_ge_cases j L) as [Hj|Hj].
    + rewrite (nth_error_map_seq _ L j Hj).
      destruct (Rltb 0 maxAmp).
      * rewrite (for_loop_update 0 (fun _ a => a / maxAmp)).
        apply Nat.ltb_lt in Hj. rewrite Hj. apply Nat.ltb_lt in Hj.
        rewrite (nth_error_nth' res 0) by lia. simpl.
        rewrite Hraw by assumption. reflexivity.
      * rewrite (nth_error_nth' res 0) by lia.
        rewrite Hraw by assumption. f_equal. unfold raw. ring.
    + transitivity (@None R).
      * apply nth_error_None.
        destruct (Rltb 0 maxAmp); [|lia].
        rewrite (length_for_loop_update (fun i res => nth i res 0 / maxAmp)).
        lia.
      * symmetry. apply nth_error_None.
        rewrite length_map, length_seq. exact Hj.
Qed.

(** X25.  [mask[0] = 0] removes the offset: when the number of
    samples is a power of two (no padding), the samples that
    [applyFFTFilter] returns sum to 0. *)
Theorem applyFFTFilter_removes_dc (m : nat) samples sampleRate targetFreq
        width delta result :
  length samples = (2 ^ m)%nat ->
  Ftt.applyFFTFilter samples sampleRate targetFreq width delta
  = Normal result ->
  Rsum result = 0.
Proof.
  intros Hm Hres.
  destruct (applyFFTFilter_stages _ _ _ _ _ _ Hres)
    as (mask & fftResult & ifftResult & maxAmp & Hmask & Hifft & Hlf & ->).
  rewrite Hm, paddedLength_pow2 in Hlf, Hmask.
  rewrite Hm, Rsum_map_scale.
  apply ftt_mask_returned in Hmask. destruct Hmask as [Hmask Hpos].
  assert (Hm0 : nth 0 mask 0 = 0).
  { apply (nth_error_nth mask 0 0). rewrite Hmask.
    apply nth_error_store_same. rewrite Hmask, length_store in Hpos.
    exact Hpos. }
  rewrite (dc_removed m _ ifftResult) with (3 := Hifft).
  - ring.
  - rewrite length_map, length_seq. exact Hlf.
  - rewrite Hlf.
    rewrite (nth_map_seq
               (fun i => mkComplex
                           (real (nth i fftResult Cx.zero) * nth i mask 0)
                           (imag (nth i fftResult Cx.zero) * nth i mask 0))
               (2 ^ m) 0 Cx.zero (pow2_pos m)).
    rewrite Hm0. cx_eq.
Qed.

Lemma applyFFTFilter_removes_dc_witness :
  exists result,
    Ftt.applyFFTFilter [1; 1] 44100 10000 5000 2000 = Normal result /\
    Rsum result = 0.
Proof.
  destruct applyFFTFilter_two_samples as (result & Hres & _).
  exists result. split; [exact Hres|].
  apply (applyFFTFilter_removes_dc 1 [1; 1] 44100 10000 5000 2000 result
           eq_refl Hres).
Defined.
